(** * Backend_space: the NASA synchronization engine

    A shallow embedding of [services/nasaSyncService.js] (the Dataset
    Differ, the Classification Gateway, the Identifier Allocator and the
    Synchronization Orchestrator), of [services/schedulerService.js] (the
    single-flight guard and the date of the next run) and of the
    [POST /api/sync/run] handler of [routes/sync.js], followed by the
    properties established about them.

    Modelling conventions.
    - A JavaScript number that carries a measurement or a probability is a
      binary64 float ([PrimFloat.float]); a counter, an HTTP status, a
      millisecond time stamp or a Kepler label is an integer ([nat], [N] or
      [Z]).  JavaScript is exact on the integers up to 2^53 - 1
      ([Js.MAX_SAFE_INTEGER]); what is stated about Kepler labels is
      stated for labels within that bound.
    - A JavaScript string is a [string] of bytes; [toUpperCase],
      [toLowerCase] and the [/i] flag of a regular expression act on the
      ASCII letters.
    - [null], [undefined] and an absent property are [None].
    - Asynchronous code is written in a state-and-exception monad [M] over
      the process state [Sys]; what the outside world answers (the NASA TAP
      service, the inference API, MongoDB faults, the clock, the time zone
      of the host) is read from an environment [World].  [console.log]
      output is not modelled. *)

From Stdlib Require Import Floats Ascii String NArith ZArith.
From stdpp Require Import gmap strings list pretty sorting.

Open Scope string_scope.
Open Scope list_scope.

(** ** JavaScript strings *)

Module Js.

Definition code (c : ascii) : N := N_of_ascii c.

Definition is_lower (c : ascii) : bool := ((97 <=? code c) && (code c <=? 122))%N.
Definition is_upper (c : ascii) : bool := ((65 <=? code c) && (code c <=? 90))%N.
Definition is_digit (c : ascii) : bool := ((48 <=? code c) && (code c <=? 57))%N.
Definition is_letter (c : ascii) : bool := is_lower c || is_upper c.

(** [\s] on ASCII: tab, line feed, vertical tab, form feed, carriage
    return and space. *)
Definition is_space (c : ascii) : bool :=
  ((9 <=? code c) && (code c <=? 13) || (code c =? 32))%N.

Definition upper_char (c : ascii) : ascii :=
  if is_lower c then ascii_of_N (code c - 32) else c.
Definition lower_char (c : ascii) : ascii :=
  if is_upper c then ascii_of_N (code c + 32) else c.

Fixpoint map_chars (f : ascii -> ascii) (s : string) : string :=
  match s with
  | EmptyString => EmptyString
  | String c r => String (f c) (map_chars f r)
  end.

Definition toUpperCase : string -> string := map_chars upper_char.
Definition toLowerCase : string -> string := map_chars lower_char.

(** [s.startsWith(p)], returning what follows the prefix. *)
Fixpoint strip_prefix (p s : string) : option string :=
  match p, s with
  | EmptyString, _ => Some s
  | String a p', String b s' => if Ascii.eqb a b then strip_prefix p' s' else None
  | String _ _, EmptyString => None
  end.

(** The same, comparing letters without regard to case (flag [i]). *)
Fixpoint strip_prefix_ci (p s : string) : option string :=
  match p, s with
  | EmptyString, _ => Some s
  | String a p', String b s' =>
      if Ascii.eqb (lower_char a) (lower_char b) then strip_prefix_ci p' s' else None
  | String _ _, EmptyString => None
  end.

Definition startsWith (s p : string) : bool :=
  if strip_prefix p s is Some _ then true else false.

(** [s.includes(p)]. *)
Fixpoint includes (s p : string) : bool :=
  startsWith s p ||
  match s with
  | EmptyString => false
  | String _ r => includes r p
  end.

(** [s.split(sep)[0]] for a one-character separator. *)
Fixpoint before_char (sep : ascii) (s : string) : string :=
  match s with
  | EmptyString => EmptyString
  | String c r => if Ascii.eqb c sep then EmptyString else String c (before_char sep r)
  end.

(** The longest prefix of characters satisfying [p], and the rest. *)
Fixpoint span (p : ascii -> bool) (s : string) : string * string :=
  match s with
  | EmptyString => (EmptyString, EmptyString)
  | String c r =>
      if p c then let '(a, b) := span p r in (String c a, b)
      else (EmptyString, s)
  end.

(** [Number.MAX_SAFE_INTEGER], 2^53 - 1. *)
Definition MAX_SAFE_INTEGER : N := 9007199254740991.

(** [parseInt] on a string of decimal digits: the integer the digits
    denote.  JavaScript returns the binary64 number nearest to it, which
    is that integer when it is at most [MAX_SAFE_INTEGER]. *)
Fixpoint parse_digits (acc : N) (s : string) : N :=
  match s with
  | EmptyString => acc
  | String c r => parse_digits (10 * acc + (code c - 48))%N r
  end.
Definition parseInt (digits : string) : N := parse_digits 0 digits.

(** Truthiness of the values the code tests. *)
Definition truthy_str (s : option string) : bool :=
  match s with
  | Some (String _ _) => true
  | _ => false
  end.
Definition truthy_N (n : option N) : bool :=
  match n with
  | Some n => negb (n =? 0)%N
  | None => false
  end.
(** A number is falsy when it is [0], [-0] or [NaN]. *)
Definition truthy_num (x : float) : bool :=
  negb (PrimFloat.eqb x 0%float) && PrimFloat.eqb x x.

(** [a || b] on strings and on numbers. *)
Definition or_str (a : option string) (b : string) : string :=
  match a with
  | Some s => if truthy_str a then s else b
  | None => b
  end.
Definition or_num (a : option float) (b : float) : float :=
  match a with
  | Some x => if truthy_num x then x else b
  | None => b
  end.

(** A thrown [Error]: axios adds [code] and, when a response came back
    with a status outside 2xx, [response] (its status and status text). *)
Record Error := {
  code_of : option string;
  message : string;
  response : option (Z * string);
}.

Definition new_Error (msg : string) : Error :=
  {| code_of := None; message := msg; response := None |}.

(** A JSON value kept opaque by the engine. *)
Inductive Val :=
| Null
| Num (x : float)
| Str (s : string)
| Bool (b : bool).

End Js.

(** What an axios call comes back with: a response (status, status text,
    body) or a rejection. *)
Inductive Http (A : Type) :=
| Resolved (status : Z) (statusText : string) (data : A)
| Rejected (e : Js.Error).
Arguments Resolved {A} status statusText data.
Arguments Rejected {A} e.

(** ** Data model *)

(** Row of the remote projection [SELECT kepoi_name, koi_disposition]. *)
Record Entry := {
  e_kepoi_name : option string;
  e_koi_disposition : option string;
}.

(** The inference API's answer. *)
Record InferResponse := {
  prediction : option string;
  probability : option float;
  r_explanation : option string;
  base_value : option Js.Val;
  contributions : option Js.Val;
  feature_names : option Js.Val;
}.

(** [ai_prediction] as stored with a record. *)
Record AiPrediction := {
  ai_label : option string;
  ai_probability : option float;
  ai_confidence_score : float;
  ai_base_value : option Js.Val;
  ai_contributions : option Js.Val;
  ai_feature_names : option Js.Val;
  processed_date : Z;
}.

(** A KOI object: a full row of the remote catalogue and, once stored, a
    document of the [koi_objects] collection.  The three columns the
    engine reads are fields; the other columns stay in [columns]. *)
Record KOI := {
  kepoi_name : option string;
  koi_disposition : option string;
  kepler_name : option string;
  columns : gmap string Js.Val;
  IS_AI : bool;
  explanation : option string;
  confidence_score : option float;
  ai_prediction : option AiPrediction;
  sync_source : option string;
  sync_date : option Z;
  sync_version : option string;
}.

(** The body posted to the inference API: properties in insertion order. *)
Definition InferData : Type := list (string * Js.Val).

(** The object [sendCandidateToInferAPI] returns. *)
Record InferResult := {
  success : bool;
  ir_kepoi_name : string;
  ir_kepler_name : option string;
  ir_status : option Z;
  ir_duration : Z;
  action : option string;
  ir_prediction : option string;
  ir_error : option string;
  ir_data : option (option InferResponse);
}.

(** An element of [stats.errorDetails]; [ed_status] is [inr "unknown"]
    when the result carried no status. *)
Record ErrorDetail := {
  ed_kepoi_name : option string;
  ed_type : string;
  ed_error : option string;
  ed_status : option (Z + string);
  ed_duration : option Z;
}.

Record Stats := {
  startTime : Z;
  totalFromNASA : nat;
  newKOIs : nat;
  confirmed : nat;
  falsePositive : nat;
  candidates : nat;
  candidatesSent : nat;
  candidatesClassifiedByAI : nat;
  candidatesSavedAsFalsePositive : nat;
  candidatesSavedAsConfirmed : nat;
  candidatesOtherPrediction : nat;
  errors : nat;
  errorDetails : list ErrorDetail;
  duration : Z;
}.

(** A document of the [sync_logs] collection: the statistics of a pass
    that returned, or the [errorStats] of one that threw. *)
Inductive LogEntry :=
| LogStats (stats : Stats) (createdAt : Z)
| LogError (startTime : Z) (error : string) (duration : Z) (createdAt : Z).

(** ** Process state and environment *)

(** HTTP requests, in the order they were made, each with the [timeout]
    (in milliseconds) it was configured with. *)
Inductive Event :=
| GetNames (timeout : Z)
| GetComplete (name : string) (timeout : Z)
| PostInfer (body : InferData) (timeout : Z).

(** Static fields of [SchedulerService]. *)
Record Scheduler := {
  syncTask : bool;
  isRunning : bool;
  lastRun : option Z;
  nextRun : option Z;
}.

Record Sys := {
  koi_objects : list KOI;
  sync_logs : list LogEntry;
  scheduler : Scheduler;
  trace : list Event;
  ticks : nat;
}.

(** MongoDB operations, each of which may fail. *)
Inductive DbOp :=
| FindNames
| FindSimilar (koiBase : string)
| FindLast
| InsertOneKOI (doc : KOI)
| InsertOneLog (entry : LogEntry).

(** What the outside world answers during one pass: the two queries of
    the NASA TAP service, the inference API, whether [getDatabase] finds
    the connection initialised and which MongoDB operations fail, the
    successive readings of the clock, and the time zone of the host:
    [LocalTZA t isUTC] is the offset of local time from UTC, in
    milliseconds, at the time value [t], which is a UTC one when [isUTC]
    and a local one otherwise. *)
Record World := {
  nasa_names : Http (list Entry);
  nasa_complete : string -> Http (list KOI);
  infer_api : InferData -> Http (option InferResponse);
  db_ready : bool;
  db_fault : DbOp -> option Js.Error;
  clock : nat -> Z;
  LocalTZA : Z -> bool -> Z;
}.

(** ** The monad of asynchronous code *)

Inductive Res (A : Type) :=
| Ok (a : A)
| Throw (e : Js.Error).
Arguments Ok {A} a.
Arguments Throw {A} e.

(** A computation over a mutable state [Σ] that returns or throws; what
    it did to the state before throwing stays done. *)
Definition ST (Σ A : Type) : Type := Σ -> Res A * Σ.

Definition ret {Σ A} (a : A) : ST Σ A := fun s => (Ok a, s).

Definition bind {Σ A B} (m : ST Σ A) (k : A -> ST Σ B) : ST Σ B :=
  fun s =>
    match m s with
    | (Ok a, s') => k a s'
    | (Throw e, s') => (Throw e, s')
    end.

Definition throw {Σ A} (e : Js.Error) : ST Σ A := fun s => (Throw e, s).

(** [try { m } catch (e) { h e }]. *)
Definition try_catch {Σ A} (m : ST Σ A) (h : Js.Error -> ST Σ A) : ST Σ A :=
  fun s =>
    match m s with
    | (Ok a, s') => (Ok a, s')
    | (Throw e, s') => h e s'
    end.

(** [try { m } finally { f }] for a [finally] block that only assigns. *)
Definition try_finally {Σ A} (m : ST Σ A) (f : Σ -> Σ) : ST Σ A :=
  fun s => let '(r, s') := m s in (r, f s').

Definition get {Σ} : ST Σ Σ := fun s => (Ok s, s).
Definition modify {Σ} (f : Σ -> Σ) : ST Σ unit := fun s => (Ok tt, f s).

Notation "'do' x <- m ; k" := (bind m (fun x => k))
  (at level 10, x name, m at level 100, k at level 200,
   format "'[v' 'do'  x  <-  m ; '/' k ']'").
Notation "'exec' m ; k" := (bind m (fun _ => k))
  (at level 10, m at level 100, k at level 200,
   format "'[v' 'exec'  m ; '/' k ']'").

(** [for (const x of xs) { body x }]. *)
Fixpoint for_of {Σ A} (xs : list A) (body : A -> ST Σ unit) : ST Σ unit :=
  match xs with
  | [] => ret tt
  | x :: rest => exec body x; for_of rest body
  end.

(** Code of the process: its state is [Sys]. *)
Abbreviation M := (ST Sys).

(** A block that owns a local mutable object [L] (the [stats] of a pass):
    [local] allocates it, [lift] runs process code inside the block. *)
Definition lift {L A} (m : M A) : ST (Sys * L) A :=
  fun '(s, l) => let '(r, s') := m s in (r, (s', l)).
Definition update {L} (f : L -> L) : ST (Sys * L) unit :=
  modify (fun '(s, l) => (s, f l)).
Definition read {L} : ST (Sys * L) L :=
  fun '(s, l) => (Ok l, (s, l)).
Definition local {L A} (init : L) (m : ST (Sys * L) A) : M A :=
  fun s => let '(r, (s', _)) := m (s, init) in (r, s').

Definition set_koi_objects (f : list KOI -> list KOI) (s : Sys) : Sys :=
  {| koi_objects := f (koi_objects s); sync_logs := sync_logs s;
     scheduler := scheduler s; trace := trace s; ticks := ticks s |}.
Definition set_sync_logs (f : list LogEntry -> list LogEntry) (s : Sys) : Sys :=
  {| koi_objects := koi_objects s; sync_logs := f (sync_logs s);
     scheduler := scheduler s; trace := trace s; ticks := ticks s |}.
Definition set_scheduler (f : Scheduler -> Scheduler) (s : Sys) : Sys :=
  {| koi_objects := koi_objects s; sync_logs := sync_logs s;
     scheduler := f (scheduler s); trace := trace s; ticks := ticks s |}.
Definition set_trace (f : list Event -> list Event) (s : Sys) : Sys :=
  {| koi_objects := koi_objects s; sync_logs := sync_logs s;
     scheduler := scheduler s; trace := f (trace s); ticks := ticks s |}.
Definition set_ticks (f : nat -> nat) (s : Sys) : Sys :=
  {| koi_objects := koi_objects s; sync_logs := sync_logs s;
     scheduler := scheduler s; trace := trace s; ticks := f (ticks s) |}.

Definition emit (ev : Event) : M unit := modify (set_trace (fun t => t ++ [ev])).

(** [Date.now()] and [new Date()]: the next reading of the clock. *)
Definition now (w : World) : M Z :=
  fun s => (Ok (clock w (ticks s)), set_ticks S s).

(** [await] on an axios call. *)
Definition await {A} (r : Http A) : M (Z * string * A) :=
  match r with
  | Resolved status statusText data => ret (status, statusText, data)
  | Rejected e => throw e
  end.

(** [config/database.js]: [getDatabase] throws until the connection has
    been initialised. *)
Definition getDatabase (w : World) : M unit :=
  if db_ready w then ret tt
  else throw (Js.new_Error "Database not initialized. Call connectToDatabase first.").

(** A MongoDB call: it throws when the driver reports a fault. *)
Definition mongo {A} (w : World) (op : DbOp) (m : M A) : M A :=
  match db_fault w op with
  | Some e => throw e
  | None => m
  end.

(** ** The Identifier Allocator: pure helpers *)

Module Allocator.

(** [extractKOIBase]. *)
Definition extractKOIBase (kepoi_name : string) : string :=
  if negb (Js.truthy_str (Some kepoi_name)) then ""
  else Js.before_char "." kepoi_name.

(** One attempt of [/Kepler-(\d+)/i] at the start of [s]: the digits
    captured. *)
Definition match_number_here (s : string) : option string :=
  match Js.strip_prefix_ci "Kepler-" s with
  | Some r0 =>
      let '(digits, _) := Js.span Js.is_digit r0 in
      if decide (digits = "") then None else Some digits
  | None => None
  end.

(** One attempt of [/Kepler-\d+\s+([a-z])/i] at the start of [s]: the
    letter captured.  Both [\d+] and [\s+] are greedy and what follows
    each excludes its own class, so no shorter repetition can match. *)
Definition match_letter_here (s : string) : option ascii :=
  match Js.strip_prefix_ci "Kepler-" s with
  | Some r0 =>
      let '(digits, r1) := Js.span Js.is_digit r0 in
      let '(blanks, r2) := Js.span Js.is_space r1 in
      match r2 with
      | String c _ =>
          if negb (bool_decide (digits = "")) && negb (bool_decide (blanks = ""))
             && Js.is_letter c
          then Some c else None
      | EmptyString => None
      end
  | None => None
  end.

(** [s.match(re)]: the leftmost position where an attempt succeeds. *)
Fixpoint search {A} (here : string -> option A) (s : string) : option A :=
  match here s with
  | Some x => Some x
  | None =>
      match s with
      | EmptyString => None
      | String _ r => search here r
      end
  end.

(** [extractKeplerNumber]. *)
Definition extractKeplerNumber (kepler_name : option string) : option N :=
  if negb (Js.truthy_str kepler_name) then None
  else
    match search match_number_here (default "" kepler_name) with
    | Some digits => Some (Js.parseInt digits)
    | None => None
    end.

(** [extractKeplerLetter]. *)
Definition extractKeplerLetter (kepler_name : option string) : option ascii :=
  if negb (Js.truthy_str kepler_name) then None
  else
    match search match_letter_here (default "" kepler_name) with
    | Some c => Some (Js.lower_char c)
    | None => None
    end.

Definition alphabet : list ascii := list_ascii_of_string "bcdefghijklmnopqrstuvwxyz".

(** [getNextAvailableLetter]: the loop over [alphabet], then the
    fallback. *)
Fixpoint first_unused (letters usedLetters : list ascii) : option ascii :=
  match letters with
  | [] => None
  | letter :: rest =>
      if negb (bool_decide (letter ∈ usedLetters)) then Some letter
      else first_unused rest usedLetters
  end.

Definition getNextAvailableLetter (usedLetters : list ascii) : ascii :=
  match first_unused alphabet usedLetters with
  | Some letter => letter
  | None => "z"%char
  end.

(** The object [keplerGroups]: its properties in insertion order. *)
Definition Groups : Type := list (N * list ascii).

Fixpoint group_get (g : Groups) (number : N) : option (list ascii) :=
  match g with
  | [] => None
  | (k, v) :: rest => if decide (k = number) then Some v else group_get rest number
  end.

Fixpoint group_push (g : Groups) (number : N) (letter : ascii) : Groups :=
  match g with
  | [] => []
  | (k, v) :: rest =>
      if decide (k = number) then (k, v ++ [letter]) :: rest
      else (k, v) :: group_push rest number letter
  end.

(** The body of [similarKOIs.forEach]. *)
Definition group_step (keplerGroups : Groups) (koi : KOI) : Groups :=
  if Js.truthy_str (kepler_name koi) then
    let number := extractKeplerNumber (kepler_name koi) in
    let letter := extractKeplerLetter (kepler_name koi) in
    match number with
    | Some n =>
        if Js.truthy_N number then
          let g1 := if group_get keplerGroups n is None
                    then keplerGroups ++ [(n, [])] else keplerGroups in
          match letter with
          | Some l => group_push g1 n l
          | None => g1
          end
        else keplerGroups
    | None => keplerGroups
    end
  else keplerGroups.

Definition group_all (similarKOIs : list KOI) : Groups :=
  foldl group_step [] similarKOIs.

(** [Object.keys]: the keys that are array indices (below 2^32 - 1) in
    ascending order, then the others in insertion order. *)
Definition is_array_index (n : N) : bool := (n <? 4294967295)%N.

Definition object_keys (g : Groups) : list N :=
  merge_sort N.le (filter (fun k => is_array_index k = true) g.*1)
  ++ filter (fun k => is_array_index k = false) g.*1.

(** [keys.reduce((a, b) => f a b)] without an initial value, on a
    non-empty array. *)
Definition reduce {A} (f : A -> A -> A) (xs : list A) : option A :=
  match xs with
  | [] => None
  | x :: rest => Some (foldl f x rest)
  end.

Definition group_size (g : Groups) (k : N) : nat :=
  length (default [] (group_get g k)).

Definition mostPopular (g : Groups) : option N :=
  reduce (fun a b => if (group_size g b <? group_size g a)%nat then a else b)
         (object_keys g).

(** The template literal [`Kepler-${number} ${letter}`].  A number that
    is an integer below 10^21, as every safe integer is, is printed in
    decimal digits. *)
Definition kepler (number : N) (letter : ascii) : string :=
  "Kepler-" +:+ pretty number +:+ " " +:+ String letter "".

(** Case A of [generateKeplerName]: the name, when [similarKOIs] holds a
    Kepler label. *)
Definition caseA (similarKOIs : list KOI) : option string :=
  if (0 <? length similarKOIs)%nat then
    let keplerGroups := group_all similarKOIs in
    if (0 <? length (object_keys keplerGroups))%nat then
      match mostPopular keplerGroups with
      | Some mostPopularNumber =>
          let usedLetters := default [] (group_get keplerGroups mostPopularNumber) in
          let nextLetter := getNextAvailableLetter usedLetters in
          Some (kepler mostPopularNumber nextLetter)
      | None => None
      end
    else None
  else None.

(** The query of [findSimilarKOIs]: [kepoi_name] matches
    [^<koiBase>\.] with option [i].  [koiBase] is read as the literal
    text it is when it is made of letters and digits, as the base of a
    KOI name is ([K00001]); a base with a character that a regular
    expression reads as an operator is outside this reading, and what is
    stated about the records found is stated for bases of letters and
    digits. *)
Definition similar_to (koiBase : string) (koi : KOI) : bool :=
  match kepoi_name koi with
  | Some name => if Js.strip_prefix_ci (koiBase +:+ ".") name is Some _ then true else false
  | None => false
  end.

(** The query of [findLastKeplerName]: [kepler_name] matches
    [/^Kepler-\d+/i]. *)
Definition has_kepler_label (koi : KOI) : bool :=
  match kepler_name koi with
  | Some name => if match_number_here name is Some _ then true else false
  | None => false
  end.

(** The [forEach] of [findLastKeplerName], on [(maxNumber, lastKeplerName)]. *)
Definition last_step (acc : N * option string) (result : KOI) : N * option string :=
  let '(maxNumber, lastKeplerName) := acc in
  match extractKeplerNumber (kepler_name result) with
  | Some number =>
      if negb (number =? 0)%N && (maxNumber <? number)%N
      then (number, kepler_name result) else acc
  | None => acc
  end.

Definition last_of (results : list KOI) : option string :=
  if decide (length results = 0%nat) then None
  else snd (foldl last_step (0%N, None) results).

(** Case B of [generateKeplerName].  The sum [(lastNumber || 0) + 1] is
    exact when [lastNumber] is at most [Js.MAX_SAFE_INTEGER]. *)
Definition caseB (lastKeplerName : option string) : string :=
  let newNumber :=
    if Js.truthy_str lastKeplerName then
      (default 0 (extractKeplerNumber lastKeplerName) + 1)%N
    else 1%N in
  kepler newNumber "b".

End Allocator.

(** ** [NasaSyncService] *)

Module NasaSyncService.

Import Allocator.

Definition INFER_FIELDS : list string :=
  [ "koi_period"; "koi_duration"; "koi_depth"; "koi_ror"; "koi_prad"; "koi_impact";
    "koi_teq"; "koi_dor";
    "koi_steff"; "koi_slogg"; "koi_srad"; "koi_smass"; "koi_srho";
    "koi_kepmag"; "koi_model_snr"; "koi_num_transits";
    "koi_max_sngle_ev"; "koi_max_mult_ev" ].

Definition status_error (status : Z) (statusText : string) : Js.Error :=
  Js.new_Error ("NASA API returned status " +:+ pretty status +:+ ": " +:+ statusText).

Section WithWorld.

Context (w : World).

(** [fetchKepOINamesFromNASA]. *)
Definition fetchKepOINamesFromNASA : M (list Entry) :=
  try_catch
    (exec emit (GetNames 60000);
     do resp <- await (nasa_names w);
     let '(status, statusText, data) := resp in
     if negb (status =? 200)%Z then throw (status_error status statusText)
     else ret data)
    (fun error =>
       throw (Js.new_Error ("Could not retrieve NASA kepoi_names: " +:+ Js.message error))).

(** [fetchCompleteKOIData]. *)
Definition fetchCompleteKOIData (kepoi_name : string) : M KOI :=
  try_catch
    (exec emit (GetComplete kepoi_name 30000);
     do resp <- await (nasa_complete w kepoi_name);
     let '(status, statusText, data) := resp in
     if negb (status =? 200)%Z then throw (status_error status statusText)
     else
       match data with
       | [] => throw (Js.new_Error ("No data found for " +:+ kepoi_name))
       | first :: _ => ret first
       end)
    (fun error => throw error).

(** The set built by [getExistingKepOINames] from the documents found. *)
Definition names_of (existingKOIs : list KOI) : gset string :=
  list_to_set (omap (fun koi => if Js.truthy_str (kepoi_name koi) then kepoi_name koi else None)
                    existingKOIs).

(** [getExistingKepOINames]. *)
Definition getExistingKepOINames : M (gset string) :=
  try_catch
    (exec getDatabase w;
     do s <- mongo w FindNames get;
     ret (names_of (koi_objects s)))
    (fun error => throw error).

Definition stamp (koiData : KOI) (date : Z) : KOI :=
  {| kepoi_name := kepoi_name koiData;
     koi_disposition := koi_disposition koiData;
     kepler_name := kepler_name koiData;
     columns := columns koiData;
     IS_AI := IS_AI koiData;
     explanation := explanation koiData;
     confidence_score := confidence_score koiData;
     ai_prediction := ai_prediction koiData;
     sync_source := Some "nasa_tap";
     sync_date := Some date;
     sync_version := Some "1.0" |}.

(** [saveKOIToMongoDB]. *)
Definition saveKOIToMongoDB (koiData : KOI) : M unit :=
  try_catch
    (exec getDatabase w;
     do date <- now w;
     let enrichedData := stamp koiData date in
     mongo w (InsertOneKOI enrichedData)
           (modify (set_koi_objects (fun docs => docs ++ [enrichedData]))))
    (fun error => throw error).

(** [findSimilarKOIs]; the documents come back whole, their projection
    on [kepoi_name] and [kepler_name] being all the caller reads. *)
Definition findSimilarKOIs (koiBase : string) : M (list KOI) :=
  try_catch
    (exec getDatabase w;
     do s <- mongo w (FindSimilar koiBase) get;
     ret (filter (fun koi => similar_to koiBase koi = true) (koi_objects s)))
    (fun error => ret []).

(** [findLastKeplerName]. *)
Definition findLastKeplerName : M (option string) :=
  try_catch
    (exec getDatabase w;
     do s <- mongo w FindLast get;
     ret (last_of (filter (fun koi => has_kepler_label koi = true) (koi_objects s))))
    (fun error => ret None).

(** [generateKeplerName]. *)
Definition generateKeplerName (kepoi_name : string) : M string :=
  try_catch
    (let koiBase := extractKOIBase kepoi_name in
     do similarKOIs <- findSimilarKOIs koiBase;
     match caseA similarKOIs with
     | Some newKeplerName => ret newKeplerName
     | None =>
         do lastKeplerName <- findLastKeplerName;
         ret (caseB lastKeplerName)
     end)
    (fun error =>
       do t <- now w;
       ret ("Kepler-" +:+ pretty t +:+ " b")).

(** [saveSyncStats]. *)
Definition saveSyncStats (entry : Z -> LogEntry) : M unit :=
  try_catch
    (exec getDatabase w;
     do createdAt <- now w;
     mongo w (InsertOneLog (entry createdAt))
           (modify (set_sync_logs (fun logs => logs ++ [entry createdAt]))))
    (fun error => ret tt).

(** The body posted for a candidate: the [INFER_FIELDS] the row owns, in
    that order, then [kepoi_name]. *)
Definition inferData_of (fullKoiData : KOI) (kepoi_name : string) : InferData :=
  omap (fun field => (fun v => (field, v)) <$> columns fullKoiData !! field) INFER_FIELDS
  ++ [("kepoi_name", Js.Str kepoi_name)].

(** [{...fullKoiData, koi_disposition, (kepler_name,) IS_AI: true,
    explanation, confidence_score, ai_prediction}]. *)
Definition enrich (fullKoiData : KOI) (disposition : string) (name : option string)
    (data : InferResponse) (fallback : string) (confidenceScore : float) (date : Z) : KOI :=
  {| kepoi_name := kepoi_name fullKoiData;
     koi_disposition := Some disposition;
     kepler_name := name;
     columns := columns fullKoiData;
     IS_AI := true;
     explanation := Some (Js.or_str (r_explanation data) fallback);
     confidence_score := Some confidenceScore;
     ai_prediction :=
       Some {| ai_label := prediction data;
               ai_probability := probability data;
               ai_confidence_score := confidenceScore;
               ai_base_value := base_value data;
               ai_contributions := contributions data;
               ai_feature_names := feature_names data;
               processed_date := date |};
     sync_source := sync_source fullKoiData;
     sync_date := sync_date fullKoiData;
     sync_version := sync_version fullKoiData |}.

Definition failure (kepoi_name : string) (status : option Z) (duration : Z)
    (error : string) (prediction : option string) : InferResult :=
  {| success := false; ir_kepoi_name := kepoi_name; ir_kepler_name := None;
     ir_status := status; ir_duration := duration; action := None;
     ir_prediction := prediction; ir_error := Some error; ir_data := None |}.

Definition answer (kepoi_name : string) (keplerName : option string) (status : Z)
    (duration : Z) (act : string) (prediction : option string)
    (data : option InferResponse) : InferResult :=
  {| success := true; ir_kepoi_name := kepoi_name; ir_kepler_name := keplerName;
     ir_status := Some status; ir_duration := duration; action := Some act;
     ir_prediction := prediction; ir_error := None; ir_data := Some data |}.

(** [sendCandidateToInferAPI]. *)
Definition sendCandidateToInferAPI (kepoi_name : string) : M InferResult :=
  do startTime <- now w;
  try_catch
    (do fullKoiData <- fetchCompleteKOIData kepoi_name;
     let inferData := inferData_of fullKoiData kepoi_name in
     exec emit (PostInfer inferData 10000);
     do resp <- await (infer_api w inferData);
     let '(status, statusText, data) := resp in
     do t <- now w;
     let duration := (t - startTime)%Z in
     if (status =? 200)%Z then
       let prediction := Js.toUpperCase <$> (data ≫= prediction) in
       match data with
       | Some body =>
           if decide (prediction = Some "FALSE POSITIVE") then
             try_catch
               (let probability := Js.or_num (probability body) 0 in
                let confidenceScore := (1 - probability)%float in
                do date <- now w;
                let enrichedData :=
                  enrich fullKoiData "FALSE POSITIVE" (kepler_name fullKoiData) body
                         "Classified as false positive by AI" confidenceScore date in
                exec saveKOIToMongoDB enrichedData;
                ret (answer kepoi_name None status duration "saved_as_false_positive"
                            prediction data))
               (fun saveError =>
                  ret (failure kepoi_name (Some status) duration
                               ("Save error: " +:+ Js.message saveError) prediction))
           else if decide (prediction = Some "CONFIRMED") then
             try_catch
               (let probability := Js.or_num (probability body) 0 in
                let confidenceScore := probability in
                do keplerName <- generateKeplerName kepoi_name;
                do date <- now w;
                let enrichedData :=
                  enrich fullKoiData "CONFIRMED" (Some keplerName) body
                         "Classified as confirmed by AI" confidenceScore date in
                exec saveKOIToMongoDB enrichedData;
                ret (answer kepoi_name (Some keplerName) status duration "saved_as_confirmed"
                            prediction data))
               (fun saveError =>
                  ret (failure kepoi_name (Some status) duration
                               ("Save error (CONFIRMED): " +:+ Js.message saveError) prediction))
           else
             ret (answer kepoi_name None status duration "prediction_not_supported"
                         prediction data)
       | None =>
           ret (answer kepoi_name None status duration "prediction_not_supported"
                       prediction data)
       end
     else
       ret (failure kepoi_name (Some status) duration
                    ("HTTP " +:+ pretty status +:+ " - non-200 response") None))
    (fun error =>
       do t <- now w;
       let duration := (t - startTime)%Z in
       if bool_decide (Js.code_of error = Some "ECONNABORTED")
          || Js.includes (Js.message error) "timeout" then
         ret (failure kepoi_name None duration "Timeout 10s exceeded" None)
       else
         match Js.response error with
         | Some (status, statusText) =>
             ret (failure kepoi_name (Some status) duration
                          ("HTTP " +:+ pretty status +:+ ": " +:+ statusText) None)
         | None =>
             ret (failure kepoi_name None duration
                          ("Connection error: " +:+ Js.message error) None)
         end).

(** Assignments to the [stats] object of a pass. *)
Definition set_totalFromNASA (n : nat) (stats : Stats) : Stats :=
  {| startTime := startTime stats; totalFromNASA := n; newKOIs := newKOIs stats;
     confirmed := confirmed stats; falsePositive := falsePositive stats;
     candidates := candidates stats; candidatesSent := candidatesSent stats;
     candidatesClassifiedByAI := candidatesClassifiedByAI stats;
     candidatesSavedAsFalsePositive := candidatesSavedAsFalsePositive stats;
     candidatesSavedAsConfirmed := candidatesSavedAsConfirmed stats;
     candidatesOtherPrediction := candidatesOtherPrediction stats;
     errors := errors stats; errorDetails := errorDetails stats;
     duration := duration stats |}.
Definition set_newKOIs (n : nat) (stats : Stats) : Stats :=
  {| startTime := startTime stats; totalFromNASA := totalFromNASA stats; newKOIs := n;
     confirmed := confirmed stats; falsePositive := falsePositive stats;
     candidates := candidates stats; candidatesSent := candidatesSent stats;
     candidatesClassifiedByAI := candidatesClassifiedByAI stats;
     candidatesSavedAsFalsePositive := candidatesSavedAsFalsePositive stats;
     candidatesSavedAsConfirmed := candidatesSavedAsConfirmed stats;
     candidatesOtherPrediction := candidatesOtherPrediction stats;
     errors := errors stats; errorDetails := errorDetails stats;
     duration := duration stats |}.
Definition set_duration (d : Z) (stats : Stats) : Stats :=
  {| startTime := startTime stats; totalFromNASA := totalFromNASA stats;
     newKOIs := newKOIs stats; confirmed := confirmed stats;
     falsePositive := falsePositive stats; candidates := candidates stats;
     candidatesSent := candidatesSent stats;
     candidatesClassifiedByAI := candidatesClassifiedByAI stats;
     candidatesSavedAsFalsePositive := candidatesSavedAsFalsePositive stats;
     candidatesSavedAsConfirmed := candidatesSavedAsConfirmed stats;
     candidatesOtherPrediction := candidatesOtherPrediction stats;
     errors := errors stats; errorDetails := errorDetails stats; duration := d |}.
Definition incr_confirmed (stats : Stats) : Stats :=
  {| startTime := startTime stats; totalFromNASA := totalFromNASA stats;
     newKOIs := newKOIs stats; confirmed := S (confirmed stats);
     falsePositive := falsePositive stats; candidates := candidates stats;
     candidatesSent := candidatesSent stats;
     candidatesClassifiedByAI := candidatesClassifiedByAI stats;
     candidatesSavedAsFalsePositive := candidatesSavedAsFalsePositive stats;
     candidatesSavedAsConfirmed := candidatesSavedAsConfirmed stats;
     candidatesOtherPrediction := candidatesOtherPrediction stats;
     errors := errors stats; errorDetails := errorDetails stats;
     duration := duration stats |}.
Definition incr_falsePositive (stats : Stats) : Stats :=
  {| startTime := startTime stats; totalFromNASA := totalFromNASA stats;
     newKOIs := newKOIs stats; confirmed := confirmed stats;
     falsePositive := S (falsePositive stats); candidates := candidates stats;
     candidatesSent := candidatesSent stats;
     candidatesClassifiedByAI := candidatesClassifiedByAI stats;
     candidatesSavedAsFalsePositive := candidatesSavedAsFalsePositive stats;
     candidatesSavedAsConfirmed := candidatesSavedAsConfirmed stats;
     candidatesOtherPrediction := candidatesOtherPrediction stats;
     errors := errors stats; errorDetails := errorDetails stats;
     duration := duration stats |}.
Definition incr_candidates (stats : Stats) : Stats :=
  {| startTime := startTime stats; totalFromNASA := totalFromNASA stats;
     newKOIs := newKOIs stats; confirmed := confirmed stats;
     falsePositive := falsePositive stats; candidates := S (candidates stats);
     candidatesSent := candidatesSent stats;
     candidatesClassifiedByAI := candidatesClassifiedByAI stats;
     candidatesSavedAsFalsePositive := candidatesSavedAsFalsePositive stats;
     candidatesSavedAsConfirmed := candidatesSavedAsConfirmed stats;
     candidatesOtherPrediction := candidatesOtherPrediction stats;
     errors := errors stats; errorDetails := errorDetails stats;
     duration := duration stats |}.
Definition incr_candidatesSent (stats : Stats) : Stats :=
  {| startTime := startTime stats; totalFromNASA := totalFromNASA stats;
     newKOIs := newKOIs stats; confirmed := confirmed stats;
     falsePositive := falsePositive stats; candidates := candidates stats;
     candidatesSent := S (candidatesSent stats);
     candidatesClassifiedByAI := candidatesClassifiedByAI stats;
     candidatesSavedAsFalsePositive := candidatesSavedAsFalsePositive stats;
     candidatesSavedAsConfirmed := candidatesSavedAsConfirmed stats;
     candidatesOtherPrediction := candidatesOtherPrediction stats;
     errors := errors stats; errorDetails := errorDetails stats;
     duration := duration stats |}.
Definition incr_candidatesClassifiedByAI (stats : Stats) : Stats :=
  {| startTime := startTime stats; totalFromNASA := totalFromNASA stats;
     newKOIs := newKOIs stats; confirmed := confirmed stats;
     falsePositive := falsePositive stats; candidates := candidates stats;
     candidatesSent := candidatesSent stats;
     candidatesClassifiedByAI := S (candidatesClassifiedByAI stats);
     candidatesSavedAsFalsePositive := candidatesSavedAsFalsePositive stats;
     candidatesSavedAsConfirmed := candidatesSavedAsConfirmed stats;
     candidatesOtherPrediction := candidatesOtherPrediction stats;
     errors := errors stats; errorDetails := errorDetails stats;
     duration := duration stats |}.
Definition incr_candidatesSavedAsFalsePositive (stats : Stats) : Stats :=
  {| startTime := startTime stats; totalFromNASA := totalFromNASA stats;
     newKOIs := newKOIs stats; confirmed := confirmed stats;
     falsePositive := falsePositive stats; candidates := candidates stats;
     candidatesSent := candidatesSent stats;
     candidatesClassifiedByAI := candidatesClassifiedByAI stats;
     candidatesSavedAsFalsePositive := S (candidatesSavedAsFalsePositive stats);
     candidatesSavedAsConfirmed := candidatesSavedAsConfirmed stats;
     candidatesOtherPrediction := candidatesOtherPrediction stats;
     errors := errors stats; errorDetails := errorDetails stats;
     duration := duration stats |}.
Definition incr_candidatesSavedAsConfirmed (stats : Stats) : Stats :=
  {| startTime := startTime stats; totalFromNASA := totalFromNASA stats;
     newKOIs := newKOIs stats; confirmed := confirmed stats;
     falsePositive := falsePositive stats; candidates := candidates stats;
     candidatesSent := candidatesSent stats;
     candidatesClassifiedByAI := candidatesClassifiedByAI stats;
     candidatesSavedAsFalsePositive := candidatesSavedAsFalsePositive stats;
     candidatesSavedAsConfirmed := S (candidatesSavedAsConfirmed stats);
     candidatesOtherPrediction := candidatesOtherPrediction stats;
     errors := errors stats; errorDetails := errorDetails stats;
     duration := duration stats |}.
Definition incr_candidatesOtherPrediction (stats : Stats) : Stats :=
  {| startTime := startTime stats; totalFromNASA := totalFromNASA stats;
     newKOIs := newKOIs stats; confirmed := confirmed stats;
     falsePositive := falsePositive stats; candidates := candidates stats;
     candidatesSent := candidatesSent stats;
     candidatesClassifiedByAI := candidatesClassifiedByAI stats;
     candidatesSavedAsFalsePositive := candidatesSavedAsFalsePositive stats;
     candidatesSavedAsConfirmed := candidatesSavedAsConfirmed stats;
     candidatesOtherPrediction := S (candidatesOtherPrediction stats);
     errors := errors stats; errorDetails := errorDetails stats;
     duration := duration stats |}.
Definition incr_errors (stats : Stats) : Stats :=
  {| startTime := startTime stats; totalFromNASA := totalFromNASA stats;
     newKOIs := newKOIs stats; confirmed := confirmed stats;
     falsePositive := falsePositive stats; candidates := candidates stats;
     candidatesSent := candidatesSent stats;
     candidatesClassifiedByAI := candidatesClassifiedByAI stats;
     candidatesSavedAsFalsePositive := candidatesSavedAsFalsePositive stats;
     candidatesSavedAsConfirmed := candidatesSavedAsConfirmed stats;
     candidatesOtherPrediction := candidatesOtherPrediction stats;
     errors := S (errors stats); errorDetails := errorDetails stats;
     duration := duration stats |}.
Definition push_errorDetails (detail : ErrorDetail) (stats : Stats) : Stats :=
  {| startTime := startTime stats; totalFromNASA := totalFromNASA stats;
     newKOIs := newKOIs stats; confirmed := confirmed stats;
     falsePositive := falsePositive stats; candidates := candidates stats;
     candidatesSent := candidatesSent stats;
     candidatesClassifiedByAI := candidatesClassifiedByAI stats;
     candidatesSavedAsFalsePositive := candidatesSavedAsFalsePositive stats;
     candidatesSavedAsConfirmed := candidatesSavedAsConfirmed stats;
     candidatesOtherPrediction := candidatesOtherPrediction stats;
     errors := errors stats; errorDetails := errorDetails stats ++ [detail];
     duration := duration stats |}.

Definition initial_stats (date : Z) : Stats :=
  {| startTime := date; totalFromNASA := 0; newKOIs := 0; confirmed := 0;
     falsePositive := 0; candidates := 0; candidatesSent := 0;
     candidatesClassifiedByAI := 0; candidatesSavedAsFalsePositive := 0;
     candidatesSavedAsConfirmed := 0; candidatesOtherPrediction := 0;
     errors := 0; errorDetails := []; duration := 0 |}.

(** The Differ: step 3 of [synchronizeKOIData]. *)
Definition newKepOIEntries (nasaKepOINames : list Entry) (existingKepOINames : gset string)
    : list Entry :=
  filter (fun entry =>
            Js.truthy_str (e_kepoi_name entry)
            && negb (bool_decide (default "" (e_kepoi_name entry) ∈ existingKepOINames)) = true)
         nasaKepOINames.

(** What the loop of [synchronizeKOIData] does with the answer of the
    inference API for one candidate. *)
Definition count_inferResult (kepoi_name : string) (inferResult : InferResult)
    : ST (Sys * Stats) unit :=
  if success inferResult then
    exec update incr_candidatesSent;
    exec update incr_candidatesClassifiedByAI;
    if decide (action inferResult = Some "saved_as_false_positive") then
      exec update incr_candidatesSavedAsFalsePositive;
      update incr_falsePositive
    else if decide (action inferResult = Some "saved_as_confirmed") then
      exec update incr_candidatesSavedAsConfirmed;
      update incr_confirmed
    else if bool_decide (action inferResult = Some "prediction_received")
            || bool_decide (action inferResult = Some "prediction_not_supported") then
      update incr_candidatesOtherPrediction
    else ret tt
  else
    exec update incr_errors;
    update (push_errorDetails
              {| ed_kepoi_name := Some kepoi_name;
                 ed_type := "infer_api_error";
                 ed_error := ir_error inferResult;
                 ed_status := match ir_status inferResult with
                              | Some status => if decide (status = 0%Z) then Some (inr "unknown")
                                               else Some (inl status)
                              | None => Some (inr "unknown")
                              end;
                 ed_duration := Some (ir_duration inferResult) |}).

(** The body of the loop over the new entries: step 4. *)
Definition process_entry (kepOIEntry : Entry) : ST (Sys * Stats) unit :=
  try_catch
    (let disposition := Js.toUpperCase <$> e_koi_disposition kepOIEntry in
     let kepoi_name := default "" (e_kepoi_name kepOIEntry) in
     if bool_decide (disposition = Some "CONFIRMED")
        || bool_decide (disposition = Some "FALSE POSITIVE") then
       do completeKOIData <- lift (fetchCompleteKOIData kepoi_name);
       exec lift (saveKOIToMongoDB completeKOIData);
       if decide (disposition = Some "CONFIRMED") then update incr_confirmed
       else update incr_falsePositive
     else if decide (disposition = Some "CANDIDATE") then
       exec update incr_candidates;
       do inferResult <- lift (sendCandidateToInferAPI kepoi_name);
       count_inferResult kepoi_name inferResult
     else
       exec update incr_errors;
       update (push_errorDetails
                 {| ed_kepoi_name := Some kepoi_name;
                    ed_type := "unknown_disposition";
                    ed_error := Some ("Unknown status: " +:+ default "undefined" disposition);
                    ed_status := None;
                    ed_duration := None |}))
    (fun error =>
       exec update incr_errors;
       update (push_errorDetails
                 {| ed_kepoi_name := e_kepoi_name kepOIEntry;
                    ed_type := "processing_error";
                    ed_error := Some (Js.message error);
                    ed_status := None;
                    ed_duration := None |})).

(** [synchronizeKOIData]. *)
Definition synchronizeKOIData : M Stats :=
  do startTime <- now w;
  do date <- now w;
  local (initial_stats date)
    (try_catch
       (do nasaKepOINames <- lift fetchKepOINamesFromNASA;
        exec update (set_totalFromNASA (length nasaKepOINames));
        do existingKepOINames <- lift getExistingKepOINames;
        let newKepOIEntries := newKepOIEntries nasaKepOINames existingKepOINames in
        exec update (set_newKOIs (length newKepOIEntries));
        if decide (length newKepOIEntries = 0%nat) then
          do t <- lift (now w);
          exec update (set_duration (t - startTime));
          read
        else
          exec for_of newKepOIEntries process_entry;
          do t <- lift (now w);
          exec update (set_duration (t - startTime));
          read)
       (fun error =>
          do t <- lift (now w);
          exec update (set_duration (t - startTime));
          exec update incr_errors;
          exec update (push_errorDetails
                        {| ed_kepoi_name := None;
                           ed_type := "sync_error";
                           ed_error := Some (Js.message error);
                           ed_status := None;
                           ed_duration := None |});
          throw error)).

End WithWorld.

End NasaSyncService.

(** ** Dates

    The part of [Date] that [SchedulerService.updateNextRunTime] uses.
    [Day], [TimeWithinDay], [getDay], [getHours], [addDate] and
    [setHours] are written on local time values (milliseconds since the
    epoch, in local time); [LocalTime] and [UTC] convert the time value
    of a [Date] to and from them in the time zone of the host. *)

Module Calendar.

Definition msPerDay : Z := 86400000.
Definition msPerHour : Z := 3600000.

(** [Day(t)] and [TimeWithinDay(t)]. *)
Definition Day (t : Z) : Z := t / msPerDay.
Definition TimeWithinDay (t : Z) : Z := t mod msPerDay.

(** [getDay()]: 0 is Sunday; the epoch was a Thursday. *)
Definition getDay (t : Z) : Z := (Day t + 4) mod 7.

(** [getHours()]. *)
Definition getHours (t : Z) : Z := (t / msPerHour) mod 24.

(** [d.setDate(d.getDate() + days)]: the day moves, the time within the
    day stays. *)
Definition addDate (t days : Z) : Z := (Day t + days) * msPerDay + TimeWithinDay t.

(** [d.setHours(hours, 0, 0, 0)]. *)
Definition setHours (t hours : Z) : Z := Day t * msPerDay + hours * msPerHour.

(** Lines 124 to 133 of [updateNextRunTime], on the local time value
    [now]. *)
Definition nextSunday (now : Z) : Z :=
  let daysUntilSunday := ((7 - getDay now) mod 7)%Z in
  let nextSunday :=
    if (daysUntilSunday =? 0)%Z && (2 <=? getHours now)%Z then addDate now 7
    else addDate now daysUntilSunday in
  setHours nextSunday 2.

(** [LocalTime(t)] and [UTC(t)]. *)
Definition LocalTime (w : World) (t : Z) : Z := (t + LocalTZA w t true)%Z.
Definition UTC (w : World) (t : Z) : Z := (t - LocalTZA w t false)%Z.

(** Lines 124 to 133 on the time value of the [Date] [now]: [getDay],
    [getDate] and [getHours] read the local time, and [setDate] and
    [setHours] each convert the local time they compose back to a time
    value. *)
Definition nextRunTime (w : World) (now : Z) : Z :=
  let daysUntilSunday := ((7 - getDay (LocalTime w now)) mod 7)%Z in
  let nextSunday :=
    if (daysUntilSunday =? 0)%Z && (2 <=? getHours (LocalTime w now))%Z
    then UTC w (addDate (LocalTime w now) 7)
    else UTC w (addDate (LocalTime w now) daysUntilSunday) in
  UTC w (setHours (LocalTime w nextSunday) 2).

End Calendar.

(** ** [SchedulerService] *)

Module SchedulerService.

Definition set_isRunning (b : bool) (sc : Scheduler) : Scheduler :=
  {| syncTask := syncTask sc; isRunning := b; lastRun := lastRun sc; nextRun := nextRun sc |}.
Definition set_lastRun (t : Z) (sc : Scheduler) : Scheduler :=
  {| syncTask := syncTask sc; isRunning := isRunning sc; lastRun := Some t; nextRun := nextRun sc |}.
Definition set_nextRun (t : option Z) (sc : Scheduler) : Scheduler :=
  {| syncTask := syncTask sc; isRunning := isRunning sc; lastRun := lastRun sc; nextRun := t |}.

Definition conflict : Js.Error := Js.new_Error "A synchronization is already in progress".

Section WithWorld.

Context (w : World).

(** [updateNextRunTime]. *)
Definition updateNextRunTime : M unit :=
  do s <- get;
  if syncTask (scheduler s) then
    do t <- now w;
    modify (set_scheduler (set_nextRun (Some (Calendar.nextRunTime w t))))
  else modify (set_scheduler (set_nextRun None)).

(** [executeSyncTask] up to its first [await]: the guard is passed, the
    flag raised and [lastRun] stamped. *)
Definition begin : M unit :=
  exec modify (set_scheduler (set_isRunning true));
  do t <- now w;
  modify (set_scheduler (set_lastRun t)).

(** The [try] and [catch] blocks of [executeSyncTask]. *)
Definition pass : M (option Stats) :=
  try_catch
    (do stats <- NasaSyncService.synchronizeKOIData w;
     exec NasaSyncService.saveSyncStats w (LogStats stats);
     exec updateNextRunTime;
     ret (Some stats))
    (fun error =>
       do s <- get;
       do t <- now w;
       let started := default 0%Z (lastRun (scheduler s)) in
       let errorStats := LogError started (Js.message error) (t - started) in
       exec try_catch (NasaSyncService.saveSyncStats w errorStats) (fun logError => ret tt);
       throw error).

(** The [finally] block. *)
Definition release : Sys -> Sys := set_scheduler (set_isRunning false).

(** [executeSyncTask] from its first [await] on. *)
Definition finish : M (option Stats) := try_finally pass release.

(** [executeSyncTask]; [None] is the [undefined] of the skipped run. *)
Definition executeSyncTask : M (option Stats) :=
  do s <- get;
  if isRunning (scheduler s) then ret None
  else
    exec begin;
    finish.

(** [runSyncNow]. *)
Definition runSyncNow : M (option Stats) :=
  do s <- get;
  if isRunning (scheduler s) then throw conflict
  else executeSyncTask.

End WithWorld.

(** *** Interleaving

    A pass is suspended at its [await]s, and a request handler or the
    cron callback may run meanwhile.  A configuration pairs the process
    state with the number of passes that have begun and not finished. *)

Inductive Trigger := Manual | Cron.

Inductive Entered :=
| Rejected (e : Js.Error)
| Skipped
| Started.

(** A trigger up to the first [await] it reaches. *)
Definition enter (w : World) (c : Trigger) (s : Sys) : Entered * Sys :=
  if isRunning (scheduler s) then
    match c with
    | Manual => (Rejected conflict, s)
    | Cron => (Skipped, s)
    end
  else (Started, snd (begin w s)).

Definition Config : Type := Sys * nat.

Inductive step : Config -> Config -> Prop :=
| step_trigger w c s n o s' :
    enter w c s = (o, s') ->
    step (s, n) (s', if o is Started then S n else n)
| step_finish w s n r s' :
    finish w s = (r, s') ->
    step (s, S n) (s', n).

Inductive reachable : Config -> Prop :=
| reachable_idle s : isRunning (scheduler s) = false -> reachable (s, 0)
| reachable_step c c' : reachable c -> step c c' -> reachable c'.

End SchedulerService.

(** ** [POST /api/sync/run] *)

Module Route.

Record Reply := {
  statusCode : Z;
  reply_error : option string;
  reply_message : string;
  reply_data : option (option Stats);
}.

Definition post_run (w : World) : M Reply :=
  try_catch
    (do stats <- SchedulerService.runSyncNow w;
     ret {| statusCode := 200; reply_error := None;
            reply_message := "Synchronization executed successfully";
            reply_data := Some stats |})
    (fun error =>
       let conflict := Js.includes (Js.message error) "already in progress" in
       let statusCode := if conflict then 409%Z else 500%Z in
       let message := if conflict then "A synchronization is already in progress"
                      else "Error during synchronization" in
       ret {| statusCode := statusCode;
              reply_error := Some (if (statusCode =? 409)%Z then "Conflict"
                                   else "Internal Server Error");
              reply_message := message;
              reply_data := None |}).

End Route.
(** * Around the engine

    A shallow embedding of the code the engine rests on and of the code
    that drives it: the connection of [config/database.js], the controls
    of the schedule in [services/schedulerService.js],
    [NasaSyncService.getSyncLogs] and the handlers of [routes/sync.js]
    beside [POST /run], and the [ExoplanetClassificationService]. *)

(** ** [config/database.js]: the connection

    The module's variables and its three functions.  The engine sees
    this state through [db_ready], which tells whether [db] has been
    assigned. *)

Module Database.

(** Calls the module makes to the MongoDB driver: [new MongoClient(uri,
    options)], [client.connect()] and [client.close()]. *)
Inductive Call :=
| NewClient
| Connect
| Close.

#[global] Instance Call_eq_dec : EqDecision Call.
Proof. solve_decision. Defined.

(** The variables [client] and [db] of the module ([client] is only
    tested for truthiness; [db] is the handle of the database it was
    built for), and the calls the driver has received. *)
Record Vars := {
  client : bool;
  db : option string;
  calls : list Call;
}.

Definition initial : Vars := {| client := false; db := None; calls := [] |}.

(** What the driver does with the calls of one operation: the
    constructor may throw (an invalid connection string), [connect] and
    [close] may reject. *)
Record Driver := {
  construct_fault : option Js.Error;
  connect_fault : option Js.Error;
  close_fault : option Js.Error;
}.

Definition set_client (b : bool) (v : Vars) : Vars :=
  {| client := b; db := db v; calls := calls v |}.
Definition set_db (h : option string) (v : Vars) : Vars :=
  {| client := client v; db := h; calls := calls v |}.

(** A call to the driver, which throws when the driver reports a fault. *)
Definition call (c : Call) (fault : option Js.Error) : ST Vars unit :=
  exec modify (fun v => {| client := client v; db := db v; calls := calls v ++ [c] |});
  match fault with
  | Some e => throw e
  | None => ret tt
  end.

(** [connectToDatabase]; the value returned is [db], which is
    [undefined] ([None]) as long as it was never assigned. *)
Definition connectToDatabase (d : Driver) : ST Vars (option string) :=
  try_catch
    (do v <- get;
     exec (if negb (client v) then
             exec call NewClient (construct_fault d);
             exec modify (set_client true);
             exec call Connect (connect_fault d);
             modify (set_db (Some "kepler_database"))
           else ret tt);
     do v <- get;
     ret (db v))
    (fun error => throw error).

(** [getDatabase]. *)
Definition getDatabase : ST Vars string :=
  do v <- get;
  match db v with
  | None => throw (Js.new_Error "Database not initialized. Call connectToDatabase first.")
  | Some h => ret h
  end.

(** [closeDatabase]. *)
Definition closeDatabase (d : Driver) : ST Vars unit :=
  do v <- get;
  if client v then call Close (close_fault d)
  else ret tt.

(** The operations of the module, each with what the driver answers
    during it, and the state a sequence of them leaves. *)
Inductive Op :=
| ConnectToDatabase (d : Driver)
| GetDatabase
| CloseDatabase (d : Driver).

Definition perform (v : Vars) (op : Op) : Vars :=
  match op with
  | ConnectToDatabase d => snd (connectToDatabase d v)
  | GetDatabase => snd (getDatabase v)
  | CloseDatabase d => snd (closeDatabase d v)
  end.

Definition after (ops : list Op) (v : Vars) : Vars := foldl perform v ops.

(** The number of [connect] calls among the calls received. *)
Definition connects (v : Vars) : nat :=
  length (filter (fun c => c = Connect) (calls v)).

End Database.

(** ** [SchedulerService]: the controls of the schedule *)

(** [node-cron], as the service uses it.  A task that was scheduled and
    not destroyed is live: it calls [executeSyncTask] each time its
    pattern matches. *)
Module Cron.

Record Task := {
  pattern : string;
  timezone : string;
}.

(** The live tasks, each under the handle [cron.schedule] returned for
    it; the number of handles given so far; and the handle the static
    field [syncTask] refers to, of which the [syncTask] flag of
    [Scheduler] is the truthiness. *)
Record Tasks := {
  live : list (nat * Task);
  given : nat;
  held : option nat;
}.

(** What the library answers: [cron.validate(pattern)] returns a
    boolean or throws, and [cron.schedule(pattern, ...)] may throw. *)
Record Lib := {
  validate : string -> Res bool;
  schedule_fault : string -> string -> option Js.Error;
}.

End Cron.

Module SchedulerControl.

Import Cron SchedulerService.

Definition State : Type := Sys * Tasks.

Definition set_syncTask (b : bool) (sc : Scheduler) : Scheduler :=
  {| syncTask := b; isRunning := isRunning sc; lastRun := lastRun sc; nextRun := nextRun sc |}.

(** [getStatus()]. *)
Record Status := {
  isSchedulerActive : bool;
  isSyncRunning : bool;
  st_lastRun : option Z;
  st_nextRun : option Z;
  st_timezone : string;
  cronPattern : string;
  uptime : Z;
}.

Section WithWorld.

Context (w : World) (lib : Lib).

(** [this.syncTask = cron.schedule(pattern, callback, { scheduled:
    true, timezone })]. *)
Definition schedule (pattern timezone : string) : ST State unit :=
  match schedule_fault lib pattern timezone with
  | Some e => throw e
  | None =>
      modify (fun '(s, c) =>
                (set_scheduler (set_syncTask true) s,
                 {| live := live c ++ [(given c, {| pattern := pattern; timezone := timezone |})];
                    given := S (given c);
                    held := Some (given c) |}))
  end.

(** [this.syncTask.destroy(); this.syncTask = null]. *)
Definition destroy : ST State unit :=
  modify (fun '(s, c) =>
            (set_scheduler (set_syncTask false) s,
             {| live := filter (fun task => Some task.1 ≠ held c) (live c);
                given := given c;
                held := None |})).

(** [startWeeklySync]. *)
Definition startWeeklySync : ST State unit :=
  do σ <- get;
  if syncTask (scheduler σ.1) then ret tt
  else
    exec schedule "0 2 * * 0" "Europe/Paris";
    lift (updateNextRunTime w).

(** [stopWeeklySync]. *)
Definition stopWeeklySync : ST State unit :=
  do σ <- get;
  if syncTask (scheduler σ.1) then destroy
  else ret tt.

(** [restartWeeklySync]. *)
Definition restartWeeklySync : ST State unit :=
  exec stopWeeklySync;
  startWeeklySync.

(** The methods kept for backward compatibility. *)
Definition startHourlySync : ST State unit := startWeeklySync.
Definition stopHourlySync : ST State unit := stopWeeklySync.
Definition restartHourlySync : ST State unit := restartWeeklySync.

(** [setCustomSchedule]. *)
Definition setCustomSchedule (cronPattern timezone : string) : ST State unit :=
  exec stopHourlySync;
  exec schedule cronPattern timezone;
  lift (updateNextRunTime w).

(** [getNextRunTime]. *)
Definition getNextRunTime : ST State (option Z) :=
  do σ <- get;
  ret (nextRun (scheduler σ.1)).

(** [getStatus]; [Date.now()] is read once, and a second time when
    [lastRun] is [null] or the epoch. *)
Definition getStatus : ST State Status :=
  do σ <- get;
  let sc := scheduler σ.1 in
  do uptime <-
    (if syncTask sc then
       do t <- lift (now w);
       match lastRun sc with
       | Some t0 =>
           if (t0 =? 0)%Z then do t' <- lift (now w); ret (t - t')%Z
           else ret (t - t0)%Z
       | None => do t' <- lift (now w); ret (t - t')%Z
       end
     else ret 0%Z);
  ret {| isSchedulerActive := syncTask sc;
         isSyncRunning := isRunning sc;
         st_lastRun := lastRun sc;
         st_nextRun := nextRun sc;
         st_timezone := "Europe/Paris";
         cronPattern := "0 2 * * 0";
         uptime := uptime |}.

(** [validateCronPattern]. *)
Definition validateCronPattern (pattern : string) : bool :=
  match validate lib pattern with
  | Ok b => b
  | Throw _ => false
  end.

End WithWorld.

(** The controls, each with what the environment answers during it, and
    the state a sequence of them leaves; [RunSyncNow] is a manual pass. *)
Inductive Control :=
| StartWeeklySync (w : World) (lib : Lib)
| StopWeeklySync
| RestartWeeklySync (w : World) (lib : Lib)
| SetCustomSchedule (w : World) (lib : Lib) (cronPattern timezone : string)
| RunSyncNow (w : World).

Definition perform (σ : State) (c : Control) : State :=
  match c with
  | StartWeeklySync w lib => snd (startWeeklySync w lib σ)
  | StopWeeklySync => snd (stopWeeklySync σ)
  | RestartWeeklySync w lib => snd (restartWeeklySync w lib σ)
  | SetCustomSchedule w lib cronPattern timezone =>
      snd (setCustomSchedule w lib cronPattern timezone σ)
  | RunSyncNow w => snd (lift (runSyncNow w) σ)
  end.

Definition after (controls : list Control) (σ : State) : State := foldl perform σ controls.

End SchedulerControl.

(** ** [NasaSyncService.getSyncLogs] *)

Module SyncLogs.

Definition createdAt_of (log : LogEntry) : Z :=
  match log with
  | LogStats _ createdAt => createdAt
  | LogError _ _ _ createdAt => createdAt
  end.

(** [.sort({ createdAt: -1 })]: the more recent document first.  The
    order MongoDB gives to documents of equal [createdAt] is not
    specified; the model fixes one. *)
Definition newer_first (a b : LogEntry) : Prop := (createdAt_of b <= createdAt_of a)%Z.

#[global] Instance newer_first_dec : RelDecision newer_first.
Proof. intros a b. unfold newer_first. apply _. Defined.

(** [.limit(n)]: [0] is no limit, and the driver sends a negative
    number as its absolute value. *)
Definition limited (limit : Z) (docs : list LogEntry) : list LogEntry :=
  if (limit =? 0)%Z then docs else take (Z.to_nat (Z.abs limit)) docs.

(** [getSyncLogs(limit = 10)]; [find_fault] is what the driver reports
    for the query. *)
Definition getSyncLogs (w : World) (find_fault : option Js.Error) (limit : option Z)
    : M (list LogEntry) :=
  try_catch
    (exec getDatabase w;
     do s <- match find_fault with
             | Some e => throw e
             | None => get
             end;
     ret (limited (default 10%Z limit) (merge_sort newer_first (sync_logs s))))
    (fun error => throw error).

End SyncLogs.

(** ** [routes/sync.js]: the other handlers *)

Module Routes.

Import Cron SchedulerControl SyncLogs.

(** [parseInt(s)] without a radix: leading white space is skipped, a
    sign is read, then the digits, which are hexadecimal after [0x] or
    [0X] and decimal otherwise; [None] is [NaN]. *)
Definition hex_value (c : ascii) : option N :=
  if Js.is_digit c then Some (Js.code c - 48)%N
  else if ((97 <=? Js.code c) && (Js.code c <=? 102))%N then Some (Js.code c - 87)%N
  else if ((65 <=? Js.code c) && (Js.code c <=? 70))%N then Some (Js.code c - 55)%N
  else None.

Fixpoint parse_hex (acc : option N) (s : string) : option N :=
  match s with
  | EmptyString => acc
  | String c r =>
      match hex_value c with
      | Some d => parse_hex (Some (16 * default 0 acc + d)%N) r
      | None => acc
      end
  end.

Definition parse_unsigned (s : string) : option N :=
  match s with
  | String "0" (String "x" r) | String "0" (String "X" r) => parse_hex None r
  | _ =>
      let '(digits, _) := Js.span Js.is_digit s in
      if decide (digits = "") then None else Some (Js.parseInt digits)
  end.

Definition parseInt (s : string) : option Z :=
  let '(_, s) := Js.span Js.is_space s in
  match s with
  | String "-" r => (fun n => (- Z.of_N n)%Z) <$> parse_unsigned r
  | String "+" r => Z.of_N <$> parse_unsigned r
  | _ => Z.of_N <$> parse_unsigned s
  end.

(** A JSON reply: the status code and the fields [error], [message],
    [data] and [timestamp] of the body.  The constant fields ([success],
    [example], [examples]) are left out, and [timestamp] is the time
    read, not its ISO rendering. *)
Record Reply (A : Type) := {
  statusCode : Z;
  error : option string;
  message : option string;
  data : option A;
  timestamp : option Z;
}.
Arguments statusCode {A} _.
Arguments error {A} _.
Arguments message {A} _.
Arguments data {A} _.
Arguments timestamp {A} _.

Definition ok {A} (message : option string) (data : A) (timestamp : Z) : Reply A :=
  {| statusCode := 200; error := None; message := message; data := Some data;
     timestamp := Some timestamp |}.

Definition failed {A} (statusCode : Z) (error message : string) : Reply A :=
  {| statusCode := statusCode; error := Some error; message := Some message; data := None;
     timestamp := None |}.

(** The body of [POST /api/sync/scheduler/configure]: its properties
    [cronPattern] and [timezone], strings when they are present. *)
Record ConfigureBody := {
  b_cronPattern : option string;
  b_timezone : option string;
}.

(** [POST /api/sync/scheduler/configure]. *)
Definition post_scheduler_configure (w : World) (lib : Lib) (body : ConfigureBody)
    : ST State (Reply (string * string * Status)) :=
  try_catch
    (let cronPattern := b_cronPattern body in
     let timezone := default "Europe/Paris" (b_timezone body) in
     if negb (Js.truthy_str cronPattern) then
       ret (failed 400 "Bad Request" "The cron pattern is required")
     else
       let cronPattern := default "" cronPattern in
       if negb (validateCronPattern lib cronPattern) then
         ret (failed 400 "Bad Request" "Invalid cron pattern")
       else
         exec setCustomSchedule w lib cronPattern timezone;
         do status <- getStatus w;
         do t <- lift (now w);
         ret (ok (Some "Scheduler configured successfully") (cronPattern, timezone, status) t))
    (fun _ => ret (failed 500 "Internal Server Error" "Error configuring the scheduler")).

(** [POST /api/sync/scheduler/stop]. *)
Definition post_scheduler_stop (w : World) : ST State (Reply Status) :=
  try_catch
    (exec stopHourlySync;
     do status <- getStatus w;
     do t <- lift (now w);
     ret (ok (Some "Synchronization scheduler stopped") status t))
    (fun _ => ret (failed 500 "Internal Server Error" "Error stopping the scheduler")).




(** The [data] of [GET /api/sync/stats]. *)
Record StatsData := {
  totalSyncs : nat;
  successfulSyncs : nat;
  failedSyncs : nat;
  lastSync : option LogEntry;
  totalNewKOIs : nat;
  totalConfirmed : nat;
  totalCandidates : nat;
  totalFalsePositive : nat;
  averageDuration : float;
}.

(** [log.error], [log.newKOIs || 0] and the like, on the two kinds of
    log document. *)
Definition has_error (log : LogEntry) : bool :=
  match log with
  | LogStats _ _ => false
  | LogError _ error _ _ => Js.truthy_str (Some error)
  end.

Definition counter (field : Stats -> nat) (log : LogEntry) : nat :=
  match log with
  | LogStats stats _ => field stats
  | LogError _ _ _ _ => 0
  end.

Definition duration_of (log : LogEntry) : Z :=
  match log with
  | LogStats stats _ => duration stats
  | LogError _ _ duration _ => duration
  end.

(** [logs.reduce((sum, log) => sum + f(log), 0)]. *)
Definition sum_nat (f : LogEntry -> nat) (logs : list LogEntry) : nat :=
  foldl (fun sum log => (sum + f log)%nat) 0%nat logs.
Definition sum_Z (f : LogEntry -> Z) (logs : list LogEntry) : Z :=
  foldl (fun sum log => (sum + f log)%Z) 0%Z logs.

(** The number that holds an integer. *)
Definition number (z : Z) : float :=
  if (z <? 0)%Z then (- PrimFloat.of_uint63 (Uint63.of_Z (- z)))%float
  else PrimFloat.of_uint63 (Uint63.of_Z z).

Definition statistics (logs : list LogEntry) : StatsData :=
  {| totalSyncs := length logs;
     successfulSyncs := length (filter (fun log => negb (has_error log) = true) logs);
     failedSyncs := length (filter (fun log => has_error log = true) logs);
     lastSync := head logs;
     totalNewKOIs := sum_nat (counter newKOIs) logs;
     totalConfirmed := sum_nat (counter confirmed) logs;
     totalCandidates := sum_nat (counter candidates) logs;
     totalFalsePositive := sum_nat (counter falsePositive) logs;
     averageDuration :=
       if (0 <? length logs)%nat
       then (number (sum_Z duration_of logs) / number (Z.of_nat (length logs)))%float
       else 0%float |}.

(** [GET /api/sync/stats]. *)
Definition get_stats (w : World) (find_fault : option Js.Error) : M (Reply StatsData) :=
  try_catch
    (do logs <- getSyncLogs w find_fault (Some 50%Z);
     do t <- now w;
     ret (ok None (statistics logs) t))
    (fun _ => ret (failed 500 "Internal Server Error" "Error calculating statistics")).

End Routes.

(** ** [ExoplanetClassificationService] *)

Module ExoplanetClassificationService.

Record Range := {
  min : float;
  max : float;
}.

Record Criteria := {
  radius : Range;
  temperature : Range;
  distance : Range;
}.

Record Classification := {
  name : string;
  type : string;
  description : string;
  criteria : Criteria;
  texture : string;
}.

Definition range (lo hi : float) : Range := {| min := lo; max := hi |}.

Set Warnings "-inexact-float".

Definition grassland : Classification :=
  {| name := "Grassland"; type := "terrestrial"; description := "Temperate grasslands";
     criteria := {| radius := range 0.8 1.5; temperature := range 250 320;
                    distance := range 0.8 1.2 |};
     texture := "Grassland" |}.
Definition jungle : Classification :=
  {| name := "Jungle"; type := "terrestrial"; description := "Tropical forests";
     criteria := {| radius := range 0.9 1.8; temperature := range 280 330;
                    distance := range 0.7 1.1 |};
     texture := "Jungle" |}.
Definition snowy : Classification :=
  {| name := "Snowy"; type := "terrestrial"; description := "Icy world";
     criteria := {| radius := range 0.5 2.0; temperature := range 150 250;
                    distance := range 1.5 5.0 |};
     texture := "Snowy" |}.
Definition tundra : Classification :=
  {| name := "Tundra"; type := "terrestrial"; description := "Cold climate";
     criteria := {| radius := range 0.7 1.3; temperature := range 200 270;
                    distance := range 1.2 2.5 |};
     texture := "Tundra" |}.
Definition arid : Classification :=
  {| name := "Arid"; type := "arid"; description := "Deserts";
     criteria := {| radius := range 0.6 1.4; temperature := range 300 400;
                    distance := range 0.4 0.8 |};
     texture := "Arid" |}.
Definition sandy : Classification :=
  {| name := "Sandy"; type := "arid"; description := "Sandy";
     criteria := {| radius := range 0.8 1.6; temperature := range 280 380;
                    distance := range 0.5 0.9 |};
     texture := "Sandy" |}.
Definition dusty : Classification :=
  {| name := "Dusty"; type := "arid"; description := "Dusty";
     criteria := {| radius := range 0.7 1.2; temperature := range 200 350;
                    distance := range 0.6 2.0 |};
     texture := "Dusty" |}.
Definition martian : Classification :=
  {| name := "Martian"; type := "extreme"; description := "Mars-like";
     criteria := {| radius := range 0.4 0.8; temperature := range 180 280;
                    distance := range 1.0 2.5 |};
     texture := "Martian" |}.
Definition barren : Classification :=
  {| name := "Barren"; type := "extreme"; description := "Barren";
     criteria := {| radius := range 0.3 1.0; temperature := range 100 500;
                    distance := range 0.1 10.0 |};
     texture := "Barren" |}.
Definition marshy : Classification :=
  {| name := "Marshy"; type := "extreme"; description := "Marshy";
     criteria := {| radius := range 1.0 2.2; temperature := range 260 310;
                    distance := range 0.8 1.3 |};
     texture := "Marshy" |}.
Definition gaseous : Classification :=
  {| name := "Gaseous"; type := "gas_giant"; description := "H₂/He Giants";
     criteria := {| radius := range 3.0 20.0; temperature := range 50 2000;
                    distance := range 0.1 30.0 |};
     texture := "Gaseous" |}.
Definition methane : Classification :=
  {| name := "Methane"; type := "gas_giant"; description := "Methane rich";
     criteria := {| radius := range 2.5 15.0; temperature := range 50 150;
                    distance := range 5.0 50.0 |};
     texture := "Methane" |}.

(** [CLASSIFICATIONS], in the order of [Object.entries]. *)
Definition CLASSIFICATIONS : list (string * Classification) :=
  [ ("grassland", grassland); ("jungle", jungle); ("snowy", snowy); ("tundra", tundra);
    ("arid", arid); ("sandy", sandy); ("dusty", dusty);
    ("martian", martian); ("barren", barren); ("marshy", marshy);
    ("gaseous", gaseous); ("methane", methane) ].

(** [Math.max] and [Math.min] of two numbers: [NaN] when either is
    [NaN], and [-0] below [+0]. *)
Definition is_nan (x : float) : bool := negb (PrimFloat.eqb x x).
Definition is_negative_zero (x : float) : bool :=
  match PrimFloat.classify x with
  | NZero => true
  | _ => false
  end.

Definition Math_max (a b : float) : float :=
  if is_nan a || is_nan b then nan
  else if PrimFloat.ltb a b then b
  else if PrimFloat.ltb b a then a
  else if is_negative_zero a then b else a.

Definition Math_min (a b : float) : float :=
  if is_nan a || is_nan b then nan
  else if PrimFloat.ltb a b then a
  else if PrimFloat.ltb b a then b
  else if is_negative_zero a then a else b.

(** [getParameterScore]. *)
Definition getParameterScore (value : float) (range : Range) : float :=
  if PrimFloat.leb (min range) value && PrimFloat.leb value (max range) then 1.0%float
  else if PrimFloat.ltb value (min range) then
    let deviation := ((min range - value) / min range)%float in
    Math_max 0 (1 - deviation * 2)%float
  else
    let deviation := ((value - max range) / max range)%float in
    Math_max 0 (1 - deviation * 2)%float.

(** [calculateScore]. *)
Definition calculateScore (radius temperature distance : float) (criteria : Criteria) : float :=
  let radiusScore := getParameterScore radius (ExoplanetClassificationService.radius criteria) in
  let tempScore :=
    getParameterScore temperature (ExoplanetClassificationService.temperature criteria) in
  let distanceScore :=
    getParameterScore distance (ExoplanetClassificationService.distance criteria) in
  Math_min (Math_min radiusScore tempScore) distanceScore.

(** The three measurements [classifyExoplanet] reads from a KOI object,
    [None] when the property is [null] or absent. *)
Record Exoplanet := {
  koi_prad : option float;
  koi_teq : option float;
  koi_sma : option float;
}.

(** What [classifyExoplanet] returns: [{ classification, ...entry,
    confidence, reason }]. *)
Record Classified := {
  classification : string;
  entry : Classification;
  confidence : float;
  reason : string;
}.

(** [scores.sort(compare)]: the sort is stable, an element goes after
    another when [compare] of the two is positive. *)
Fixpoint insert {A} (compare : A -> A -> float) (x : A) (sorted : list A) : list A :=
  match sorted with
  | [] => [x]
  | y :: rest =>
      if PrimFloat.ltb 0 (compare x y) then y :: insert compare x rest
      else x :: sorted
  end.

Definition sort {A} (compare : A -> A -> float) (xs : list A) : list A :=
  foldr (insert compare) [] xs.

Definition missing (x : option float) : bool :=
  match x with
  | Some x => negb (Js.truthy_num x)
  | None => true
  end.

Section WithNumberToString.

(** The decimal rendering of a number in a template literal. *)
Context (toString : float -> string).

Definition measured (radius temperature distance : float) : string :=
  "R=" +:+ toString radius +:+ "R⊕, T=" +:+ toString temperature +:+ "K, D="
  +:+ toString distance +:+ "AU".

(** The loop over [Object.entries(this.CLASSIFICATIONS)]. *)
Definition scored (radius temperature distance : float) : list Classified :=
  omap (fun '(key, classification) =>
          let score := calculateScore radius temperature distance (criteria classification) in
          if PrimFloat.ltb 0 score then
            Some {| classification := key; entry := classification; confidence := score;
                    reason := measured radius temperature distance |}
          else None)
       CLASSIFICATIONS.

(** [classifyExoplanet]. *)
Definition classifyExoplanet (exoplanet : Exoplanet) : Classified :=
  if missing (koi_prad exoplanet) || missing (koi_teq exoplanet) || missing (koi_sma exoplanet)
  then
    {| classification := "barren"; entry := barren; confidence := 0;
       reason := "Insufficient data" |}
  else
    let radius := default 0%float (koi_prad exoplanet) in
    let temperature := default 0%float (koi_teq exoplanet) in
    let distance := default 0%float (koi_sma exoplanet) in
    let scores :=
      sort (fun a b => (confidence b - confidence a)%float)
           (scored radius temperature distance) in
    match scores with
    | best :: _ => best
    | [] =>
        {| classification := "barren"; entry := barren; confidence := 0.1;
           reason := "No precise classification - " +:+ measured radius temperature distance |}
    end.

End WithNumberToString.

End ExoplanetClassificationService.

(** * Vocabulary of the statements *)

(** ** What the building blocks compute

    The requests, the reads and the writes of [NasaSyncService] as
    functions of the environment and of the store. *)

Module Summary.

Import Allocator NasaSyncService.

Section WithWorld.

Context (w : World).

(** The outcome of [fetchCompleteKOIData]. *)
Definition fetched (name : string) : Res KOI :=
  match nasa_complete w name with
  | Resolved status statusText data =>
      if (status =? 200)%Z then
        match data with
        | [] => Throw (Js.new_Error ("No data found for " +:+ name))
        | first :: _ => Ok first
        end
      else Throw (status_error status statusText)
  | Rejected e => Throw e
  end.

(** The outcome of [fetchKepOINamesFromNASA]. *)
Definition listed : Res (list Entry) :=
  match nasa_names w with
  | Resolved status statusText data =>
      if (status =? 200)%Z then Ok data
      else Throw (Js.new_Error ("Could not retrieve NASA kepoi_names: "
                                +:+ Js.message (status_error status statusText)))
  | Rejected e =>
      Throw (Js.new_Error ("Could not retrieve NASA kepoi_names: " +:+ Js.message e))
  end.

(** The outcome of [getExistingKepOINames] on a store. *)
Definition existing (docs : list KOI) : Res (gset string) :=
  if db_ready w then
    if db_fault w FindNames is Some e then Throw e else Ok (names_of docs)
  else Throw (Js.new_Error "Database not initialized. Call connectToDatabase first.").

(** What [findSimilarKOIs] and [findLastKeplerName] return on a store. *)
Definition similar_found (koiBase : string) (docs : list KOI) : list KOI :=
  if db_ready w then
    if db_fault w (FindSimilar koiBase) is Some _ then []
    else filter (fun koi => similar_to koiBase koi = true) docs
  else [].

Definition last_found (docs : list KOI) : option string :=
  if db_ready w then
    if db_fault w FindLast is Some _ then None
    else last_of (filter (fun koi => has_kepler_label koi = true) docs)
  else None.

(** The name [generateKeplerName] returns on a store. *)
Definition allocated (kepoi_name : string) (docs : list KOI) : string :=
  match caseA (similar_found (extractKOIBase kepoi_name) docs) with
  | Some name => name
  | None => caseB (last_found docs)
  end.

(** The effect of [saveKOIToMongoDB]. *)
Definition saved (koiData : KOI) (s : Sys) : Res unit * Sys :=
  if db_ready w then
    let doc := stamp koiData (clock w (ticks s)) in
    match db_fault w (InsertOneKOI doc) with
    | Some e => (Throw e, set_ticks S s)
    | None => (Ok tt, set_koi_objects (fun docs => docs ++ [doc]) (set_ticks S s))
    end
  else (Throw (Js.new_Error "Database not initialized. Call connectToDatabase first."), s).

(** The requests one call of the Gateway makes. *)
Definition requests (name : string) : list Event :=
  GetComplete name 30000 ::
  match fetched name with
  | Ok row => [PostInfer (inferData_of row name) 10000]
  | Throw _ => []
  end.

End WithWorld.

(** The POST requests of a trace. *)
Definition is_post (ev : Event) : bool :=
  if ev is PostInfer _ _ then true else false.
Definition posts (t : list Event) : list Event :=
  filter (fun ev => is_post ev = true) t.

(** Status and assigned name of a stored record. *)
Definition is_confirmed (koi : KOI) : Prop :=
  Js.toUpperCase <$> koi_disposition koi = Some "CONFIRMED".

Definition stored (docs : list KOI) (identity : string) : Prop :=
  ∃ koi, koi ∈ docs ∧ kepoi_name koi = Some identity.

End Summary.

Import Allocator NasaSyncService Summary.

(** ** The Gateway and the loop of a pass, as relations *)

(** What one call of the Gateway for [name] did, from the state [s]:
    the result [r] and the state [s'] it leaves. *)
Inductive Outcome (w : World) (name : string) (s : Sys) (r : InferResult) (s' : Sys) : Prop :=
| outcome_failed error :
    success r = false ->
    ir_error r = Some error ->
    koi_objects s' = koi_objects s ->
    Outcome w name s r s'
| outcome_other :
    success r = true ->
    action r = Some "prediction_not_supported" ->
    koi_objects s' = koi_objects s ->
    Outcome w name s r s'
| outcome_false_positive row statusText body date t :
    fetched w name = Ok row ->
    infer_api w (inferData_of row name) = Resolved 200 statusText (Some body) ->
    Js.toUpperCase <$> prediction body = Some "FALSE POSITIVE" ->
    success r = true ->
    action r = Some "saved_as_false_positive" ->
    koi_objects s' = koi_objects s ++
      [stamp (enrich row "FALSE POSITIVE" (kepler_name row) body
                     "Classified as false positive by AI"
                     (1 - Js.or_num (probability body) 0)%float date) t] ->
    Outcome w name s r s'
| outcome_confirmed row statusText body date t :
    fetched w name = Ok row ->
    infer_api w (inferData_of row name) = Resolved 200 statusText (Some body) ->
    Js.toUpperCase <$> prediction body = Some "CONFIRMED" ->
    success r = true ->
    action r = Some "saved_as_confirmed" ->
    ir_kepler_name r = Some (allocated w name (koi_objects s)) ->
    koi_objects s' = koi_objects s ++
      [stamp (enrich row "CONFIRMED" (Some (allocated w name (koi_objects s))) body
                     "Classified as confirmed by AI"
                     (Js.or_num (probability body) 0) date) t] ->
    Outcome w name s r s'.

(** A rejection that the Gateway reads as a timeout. *)
Definition timed_out (e : Js.Error) : Prop :=
  Js.code_of e = Some "ECONNABORTED" ∨ Js.includes (Js.message e) "timeout" = true.

(** The marks the Gateway leaves on a record it classified. *)
Definition classified_by_automation (doc : KOI) (label : string)
    (p : option float) (confidence : float) : Prop :=
  IS_AI doc = true
  ∧ confidence_score doc = Some confidence
  ∧ ∃ verdict, ai_prediction doc = Some verdict
               ∧ ai_label verdict = Some label
               ∧ ai_probability verdict = p
               ∧ ai_confidence_score verdict = confidence.

Definition disposition_of (entry : Entry) : option string :=
  Js.toUpperCase <$> e_koi_disposition entry.

Definition identity_of (entry : Entry) : string := default "" (e_kepoi_name entry).

Definition decided (entry : Entry) : Prop :=
  disposition_of entry = Some "CONFIRMED" ∨ disposition_of entry = Some "FALSE POSITIVE".

Definition processing_error (entry : Entry) (error : Js.Error) : ErrorDetail :=
  {| ed_kepoi_name := e_kepoi_name entry; ed_type := "processing_error";
     ed_error := Some (Js.message error); ed_status := None; ed_duration := None |}.

(** What the loop body did with one new entry: from the store and the
    statistics [(s, st)] to [(s', st')]. *)
Inductive Step (w : World) (entry : Entry) (s : Sys) (st : Stats) (s' : Sys) (st' : Stats) : Prop :=
| step_direct row t :
    decided entry ->
    fetched w (identity_of entry) = Ok row ->
    koi_objects s' = koi_objects s ++ [stamp row t] ->
    errors st' = errors st ->
    errorDetails st' = errorDetails st ->
    Step w entry s st s' st'
| step_direct_failed error :
    decided entry ->
    fetched w (identity_of entry) = Throw error
    ∨ (∃ row, fetched w (identity_of entry) = Ok row
              ∧ ∃ s1, fst (saved w row s1) = Throw error) ->
    koi_objects s' = koi_objects s ->
    st' = push_errorDetails (processing_error entry error) (incr_errors st) ->
    Step w entry s st s' st'
| step_candidate r :
    disposition_of entry = Some "CANDIDATE" ->
    sendCandidateToInferAPI w (identity_of entry) s = (Ok r, s') ->
    (if success r then errors st' = errors st ∧ errorDetails st' = errorDetails st
     else errors st' = S (errors st)
          ∧ ∃ detail, errorDetails st' = errorDetails st ++ [detail]
                      ∧ ed_kepoi_name detail = Some (identity_of entry)
                      ∧ ed_type detail = "infer_api_error"
                      ∧ ed_error detail = ir_error r) ->
    Step w entry s st s' st'
| step_unknown detail :
    ¬ decided entry ->
    disposition_of entry ≠ Some "CANDIDATE" ->
    s' = s ->
    st' = push_errorDetails detail (incr_errors st) ->
    ed_kepoi_name detail = Some (identity_of entry) ->
    ed_type detail = "unknown_disposition" ->
    Step w entry s st s' st'.

(** The loop over the new entries, as a chain of [Step]s. *)
Inductive Steps (w : World) : list Entry -> Sys -> Stats -> Sys -> Stats -> Prop :=
| steps_nil s st : Steps w [] s st s st
| steps_cons entry rest s st s1 st1 s' st' :
    Step w entry s st s1 st1 ->
    Steps w rest s1 st1 s' st' ->
    Steps w (entry :: rest) s st s' st'.

(** The statistics and the state a pass starts its loop with. *)
Definition opening_stats (w : World) (s : Sys) (remote new : list Entry) : Stats :=
  set_newKOIs (length new)
    (set_totalFromNASA (length remote) (initial_stats (clock w (S (ticks s))))).

Definition opening_state (s : Sys) : Sys :=
  set_trace (fun t => t ++ [GetNames 60000]) (set_ticks S (set_ticks S s)).

(** A document the loop body wrote for an entry: a copy of the remote
    row, or the row as the Gateway classified it. *)
Definition Written (w : World) (entry : Entry) (doc : KOI) : Prop :=
  ∃ row,
    fetched w (identity_of entry) = Ok row
    ∧ kepoi_name doc = kepoi_name row
    ∧ ((decided entry
        ∧ koi_disposition doc = koi_disposition row
        ∧ kepler_name doc = kepler_name row)
       ∨ (disposition_of entry = Some "CANDIDATE"
          ∧ koi_disposition doc = Some "FALSE POSITIVE"
          ∧ kepler_name doc = kepler_name row)
       ∨ (disposition_of entry = Some "CANDIDATE"
          ∧ koi_disposition doc = Some "CONFIRMED"
          ∧ is_Some (kepler_name doc))).

(** ** Assumptions on the remote catalogue, and the stores passes reach *)

(** The remote catalogue answers the query for one identity with rows
    of that identity. *)
Definition answers_by_name (w : World) : Prop :=
  ∀ name row, fetched w name = Ok row -> kepoi_name row = Some name.

(** The remote catalogue names exactly its Confirmed records, and its
    two queries give an entry the same status. *)
Definition consistent_remote (w : World) : Prop :=
  (∀ name row, fetched w name = Ok row ->
               (is_confirmed row <-> is_Some (kepler_name row)))
  ∧ (∀ remote entry row,
       listed w = Ok remote -> entry ∈ remote ->
       fetched w (identity_of entry) = Ok row ->
       Js.toUpperCase <$> koi_disposition row = disposition_of entry).

(** The stores that synchronization passes build from the empty store,
    each pass in an environment that satisfies [P]. *)
Inductive reachable_store (P : World -> Prop) : list KOI -> Prop :=
| reachable_empty : reachable_store P []
| reachable_pass w s r s' :
    P w ->
    reachable_store P (koi_objects s) ->
    synchronizeKOIData w s = (r, s') ->
    reachable_store P (koi_objects s').

(** Every Confirmed record is named, no two Confirmed records share a
    name, and no other record is named. *)
Definition names_invariant (docs : list KOI) : Prop :=
  (∀ koi, koi ∈ docs -> is_confirmed koi -> is_Some (kepler_name koi))
  ∧ (∀ i j a b, docs !! i = Some a -> docs !! j = Some b ->
                is_confirmed a -> is_confirmed b ->
                kepler_name a = kepler_name b -> i = j)
  ∧ (∀ koi, koi ∈ docs -> ¬ is_confirmed koi -> kepler_name koi = None).

(** ** The naming groups of the Allocator *)

(** The numeric label and the letter the Allocator reads from the
    assigned name of a record; a record without a name, or whose name
    shows no positive label, belongs to no group. *)
Definition label_of (koi : KOI) : option N :=
  match extractKeplerNumber (kepler_name koi) with
  | Some n => if (n =? 0)%N then None else Some n
  | None => None
  end.


(** The strings [\d*] matches whole. *)
Fixpoint all_digits (s : string) : bool :=
  match s with
  | EmptyString => true
  | String c r => Js.is_digit c && all_digits r
  end.



(** The label of an assigned name, as [findLastKeplerName] reads it. *)
Definition assigned_label (koi : KOI) : option N :=
  if has_kepler_label koi then extractKeplerNumber (kepler_name koi) else None.

(** [m] is the greatest label among the assigned names of the store, 0
    when it holds none. *)
Definition greatest_label (docs : list KOI) (m : N) : Prop :=
  (∀ koi n, koi ∈ docs -> assigned_label koi = Some n -> (n <= m)%N)
  ∧ (m = 0%N ∨ ∃ koi, koi ∈ docs ∧ assigned_label koi = Some m).

(** ** Where labels and group bases are taken from

    The engine is exact on labels that are safe integers and reads a
    group base as text when it is made of letters and digits. *)

(** The label read from the assigned name of a record, when there is
    one, is at most [Number.MAX_SAFE_INTEGER]. *)
Definition safe_label (koi : KOI) : bool :=
  match extractKeplerNumber (kepler_name koi) with
  | Some n => (n <=? Js.MAX_SAFE_INTEGER)%N
  | None => true
  end.

Definition safe_labels (docs : list KOI) : bool := forallb safe_label docs.

(** A string of ASCII letters and digits, as the base of a KOI name is. *)
Fixpoint alphanumeric (s : string) : bool :=
  match s with
  | EmptyString => true
  | String c r => (Js.is_letter c || Js.is_digit c) && alphanumeric r
  end.

(** ** Two statements of the specification that the code does not satisfy *)

(** A failed fetch of the full record of a decided entry fails the
    pass. *)
Definition fetch_failure_fatal : Prop :=
  ∀ w s statusText remote entry error,
    nasa_names w = Resolved 200 statusText remote ->
    db_ready w = true ->
    db_fault w FindNames = None ->
    entry ∈ newKepOIEntries remote (names_of (koi_objects s)) ->
    decided entry ->
    fst (fetchCompleteKOIData w (identity_of entry) s) = Throw error ->
    ∃ e s', synchronizeKOIData w s = (Throw e, s').

(** The names invariant holds in every reachable store, even when the
    remote catalogue is consistent. *)
Definition names_always_invariant : Prop :=
  ∀ docs, reachable_store consistent_remote docs -> names_invariant docs.

(** ** Sample environments *)

Module Sample.

Definition idle : Sys :=
  {| koi_objects := []; sync_logs := [];
     scheduler := {| syncTask := false; isRunning := false; lastRun := None; nextRun := None |};
     trace := []; ticks := 0 |}.

Definition with_store (docs : list KOI) : Sys := set_koi_objects (fun _ => docs) idle.

(** A catalogue row and its projection. *)
Definition row (name disposition : string) (assigned : option string) : KOI :=
  {| kepoi_name := Some name; koi_disposition := Some disposition; kepler_name := assigned;
     columns := ∅; IS_AI := false; explanation := None; confidence_score := None;
     ai_prediction := None; sync_source := None; sync_date := None; sync_version := None |}.

Definition project (koi : KOI) : Entry :=
  {| e_kepoi_name := kepoi_name koi; e_koi_disposition := koi_disposition koi |}.

Definition verdict (label : string) (p : option float) : InferResponse :=
  {| prediction := Some label; probability := p; r_explanation := None;
     base_value := None; contributions := None; feature_names := None |}.

Definition timeout : Js.Error :=
  {| Js.code_of := Some "ECONNABORTED"; Js.message := "timeout of 10000ms exceeded";
     Js.response := None |}.

(** A host whose local time is one hour ahead of UTC all year. *)
Definition one_hour_east : Z -> bool -> Z := fun _ _ => 3600000%Z.

(** An environment whose remote service answers both queries from one
    catalogue, except for the identities in [down], whose full record
    cannot be fetched; the store is ready and writes succeed. *)
Definition world (catalogue : list KOI) (down : list string)
    (classifier : InferData -> Http (option InferResponse)) : World :=
  {| nasa_names := Resolved 200 "OK" (project <$> catalogue);
     nasa_complete := fun name =>
       if bool_decide (name ∈ down) then Rejected timeout
       else Resolved 200 "OK" (filter (fun koi => kepoi_name koi = Some name) catalogue);
     infer_api := classifier;
     db_ready := true;
     db_fault := fun _ => None;
     clock := Z.of_nat;
     LocalTZA := one_hour_east |}.

Definition always (label : string) (p : option float) : InferData -> Http (option InferResponse) :=
  fun _ => Resolved 200 "OK" (Some (verdict label p)).

Definition unreachable : InferData -> Http (option InferResponse) :=
  fun _ => Rejected timeout.

(** A candidate listed before the Confirmed record that the remote
    catalogue names [Kepler-1 b]. *)
Definition catalogue : list KOI :=
  [ row "K00100.01" "CANDIDATE" None; row "K00001.01" "CONFIRMED" (Some "Kepler-1 b") ].

(** Two Confirmed records; the full record of the first cannot be
    fetched. *)
Definition decided_catalogue : list KOI :=
  [ row "K00001.01" "CONFIRMED" (Some "Kepler-1 b");
    row "K00002.01" "CONFIRMED" (Some "Kepler-2 b") ].

(** A store with one group of two names and one of a single name under
    the base [K00001], and a record of another base. *)
Definition named_store : list KOI :=
  [ row "K00001.01" "CONFIRMED" (Some "Kepler-5 b");
    row "K00001.02" "CONFIRMED" (Some "Kepler-7 b");
    row "K00001.03" "CONFIRMED" (Some "Kepler-7 c");
    row "K00009.01" "CONFIRMED" (Some "Kepler-40 b") ].

(** The process while a manually triggered pass is in flight. *)
Definition running : Sys := snd (SchedulerService.begin (world [] [] unreachable) idle).

(** The result of a Gateway call, or a placeholder had it thrown. *)
Definition result_of (r : Res InferResult * Sys) : InferResult :=
  match fst r with
  | Ok result => result
  | Throw e => failure "" None 0 (Js.message e) None
  end.

End Sample.
(** ** The books of a pass *)

(** The new entries the counters of a pass account for. *)
Definition handled (st : Stats) : nat :=
  confirmed st + falsePositive st + candidatesOtherPrediction st + errors st.

(** The details that report a failure of the Gateway. *)
Definition gateway_failures (st : Stats) : nat :=
  length (filter (fun detail => ed_type detail = "infer_api_error") (errorDetails st)).

(** The counters agree with each other and with the store, [base]
    being the number of documents the store held when the pass began. *)
Definition balanced (base : nat) (s : Sys) (st : Stats) : Prop :=
  candidatesSent st = candidatesClassifiedByAI st
  ∧ candidatesSent st
    = (candidatesSavedAsFalsePositive st + candidatesSavedAsConfirmed st
       + candidatesOtherPrediction st)%nat
  ∧ candidates st = (candidatesSent st + gateway_failures st)%nat
  ∧ errors st = length (errorDetails st)
  ∧ length (koi_objects s) = (base + confirmed st + falsePositive st)%nat.

(** The requests the loop of a pass makes for one new entry: the full
    record of a decided entry, the Gateway's requests for a candidate,
    none for an entry of unknown status. *)
Definition entry_requests (w : World) (entry : Entry) : list Event :=
  if bool_decide (disposition_of entry = Some "CONFIRMED")
     || bool_decide (disposition_of entry = Some "FALSE POSITIVE")
  then [GetComplete (identity_of entry) 30000]
  else if decide (disposition_of entry = Some "CANDIDATE")
       then requests w (identity_of entry)
       else [].

(** The requests of a whole pass. *)
Definition pass_requests (w : World) (docs : list KOI) : list Event :=
  GetNames 60000 ::
  match listed w, existing w docs with
  | Ok remote, Ok names => mjoin (entry_requests w <$> newKepOIEntries remote names)
  | _, _ => []
  end.

(** ** The connection to the database *)

(** Before [client] is assigned, [db] is not assigned either and
    [connect] was never called. *)
Definition unconnected (v : Database.Vars) : Prop :=
  Database.client v = false ∧ Database.db v = None ∧ Database.connects v = 0%nat.

(** ** The schedule *)

(** The local time of the host is at a constant offset from UTC: no
    change of daylight saving time. *)
Definition constant_zone (w : World) (offset : Z) : Prop :=
  ∀ t isUTC, LocalTZA w t isUTC = offset.

(** The static field [syncTask] refers to the one live task, or is
    [null] and no task is live. *)
Definition well_scheduled (σ : SchedulerControl.State) : Prop :=
  match Cron.held σ.2 with
  | Some h => syncTask (scheduler σ.1) = true ∧ ∃ task, Cron.live σ.2 = [(h, task)]
  | None => syncTask (scheduler σ.1) = false ∧ Cron.live σ.2 = []
  end.

(** ** Synchronization metadata *)

(** The marks [saveKOIToMongoDB] leaves on a document. *)
Definition stamped (doc : KOI) : Prop :=
  sync_source doc = Some "nasa_tap"
  ∧ sync_version doc = Some "1.0"
  ∧ is_Some (sync_date doc).

(** ** More sample environments *)

Module Scenario.

Import Sample.

(** The remote service does not answer the projection query. *)
Definition offline : World :=
  {| nasa_names := Rejected timeout;
     nasa_complete := fun _ => Rejected timeout;
     infer_api := unreachable;
     db_ready := true;
     db_fault := fun _ => None;
     clock := Z.of_nat;
     LocalTZA := one_hour_east |}.

(** The connection to the database was never initialised. *)
Definition disconnected : World :=
  {| nasa_names := Resolved 200 "OK" (project <$> decided_catalogue);
     nasa_complete := fun name =>
       Resolved 200 "OK" (filter (fun koi => kepoi_name koi = Some name) decided_catalogue);
     infer_api := unreachable;
     db_ready := false;
     db_fault := fun _ => None;
     clock := Z.of_nat;
     LocalTZA := one_hour_east |}.

Definition write_error : Js.Error := Js.new_Error "not primary".

(** The store accepts the records and refuses the log documents. *)
Definition unlogged : World :=
  {| nasa_names := Resolved 200 "OK" (project <$> decided_catalogue);
     nasa_complete := fun name =>
       Resolved 200 "OK" (filter (fun koi => kepoi_name koi = Some name) decided_catalogue);
     infer_api := unreachable;
     db_ready := true;
     db_fault := fun op => if op is InsertOneLog _ then Some write_error else None;
     clock := Z.of_nat;
     LocalTZA := one_hour_east |}.

(** The store can be read and refuses every record; the classifier
    confirms every candidate. *)
Definition read_only : World :=
  {| nasa_names := Resolved 200 "OK" (project <$> catalogue);
     nasa_complete := fun name =>
       Resolved 200 "OK" (filter (fun koi => kepoi_name koi = Some name) catalogue);
     infer_api := always "CONFIRMED" (Some 0.5%float);
     db_ready := true;
     db_fault := fun op => if op is InsertOneKOI _ then Some write_error else None;
     clock := Z.of_nat;
     LocalTZA := one_hour_east |}.

(** The statistics a pass returned, or empty ones had it thrown. *)
Definition stats_of (r : Res Stats * Sys) : Stats :=
  match fst r with
  | Ok stats => stats
  | Throw _ => initial_stats 0
  end.

(** A driver that accepts every call, and one whose [connect] rejects. *)
Definition driver_ok : Database.Driver :=
  {| Database.construct_fault := None; Database.connect_fault := None;
     Database.close_fault := None |}.

Definition refused : Js.Error := Js.new_Error "connect ECONNREFUSED".

Definition driver_down : Database.Driver :=
  {| Database.construct_fault := None; Database.connect_fault := Some refused;
     Database.close_fault := None |}.

(** A [node-cron] that accepts every pattern. *)
Definition cron_ok : Cron.Lib :=
  {| Cron.validate := fun _ => Ok true; Cron.schedule_fault := fun _ _ => None |}.

(** The process as it starts: nothing scheduled. *)
Definition unscheduled : SchedulerControl.State :=
  (idle, {| Cron.live := []; Cron.given := 0; Cron.held := None |}).

(** A log of three passes, the second of which failed. *)
Definition three_logs : Sys :=
  set_sync_logs
    (fun _ => [ LogStats (initial_stats 10) 20;
                LogError 30 "Could not retrieve NASA kepoi_names: timeout" 5 40;
                LogStats (initial_stats 50) 60 ])
    idle.

End Scenario.


(** * Properties *)


Ltac monad :=
  unfold bind, try_catch, try_finally, ret, throw, get, modify, emit, now, await,
    getDatabase, mongo, lift, update, read, local in *;
  cbv beta in *.

Section Blocks.

Context (w : World).

Lemma fetchCompleteKOIData_eq name s :
  fetchCompleteKOIData w name s
  = (fetched w name, set_trace (fun t => t ++ [GetComplete name 30000]) s).
Proof.
  unfold fetchCompleteKOIData, fetched. monad.
  destruct (nasa_complete w name) as [status statusText data|e]; simpl; [|done].
  destruct (status =? 200)%Z; simpl; [|done].
  by destruct data.
Qed.

Lemma fetchKepOINamesFromNASA_eq s :
  fetchKepOINamesFromNASA w s
  = (listed w, set_trace (fun t => t ++ [GetNames 60000]) s).
Proof.
  unfold fetchKepOINamesFromNASA, listed. monad.
  destruct (nasa_names w) as [status statusText data|e]; simpl; [|done].
  by destruct (status =? 200)%Z.
Qed.

Lemma generateKeplerName_eq name s :
  generateKeplerName w name s = (Ok (allocated w name (koi_objects s)), s).
Proof.
  unfold generateKeplerName, allocated, similar_found, last_found, findSimilarKOIs,
    findLastKeplerName. monad.
  destruct (db_ready w); simpl; [|done].
  destruct (db_fault w (FindSimilar _)); simpl.
  - by destruct (db_fault w FindLast).
  - destruct (caseA _); simpl; [done|].
    by destruct (db_fault w FindLast).
Qed.

Lemma saveKOIToMongoDB_eq koi s : saveKOIToMongoDB w koi s = saved w koi s.
Proof.
  unfold saveKOIToMongoDB, saved. monad.
  destruct (db_ready w); simpl; [|done].
  by destruct (db_fault w _).
Qed.

Lemma getExistingKepOINames_eq s :
  getExistingKepOINames w s = (existing w (koi_objects s), s).
Proof.
  unfold getExistingKepOINames, existing. monad.
  destruct (db_ready w); simpl; [|done].
  by destruct (db_fault w _).
Qed.

Lemma saveSyncStats_cases entry s :
  ∃ s', saveSyncStats w entry s = (Ok tt, s')
        ∧ koi_objects s' = koi_objects s ∧ scheduler s' = scheduler s
        ∧ trace s' = trace s
        ∧ (sync_logs s' = sync_logs s ∨ ∃ t, sync_logs s' = sync_logs s ++ [entry t]).
Proof.
  unfold saveSyncStats. monad.
  destruct (db_ready w); simpl; [|by eauto 10].
  destruct (db_fault w _); simpl; eauto 10.
Qed.

End Blocks.


(** Splits a goal about [sendCandidateToInferAPI w name s] along the
    paths of the function. *)
Ltac gateway_paths w name :=
  unfold sendCandidateToInferAPI;
  unfold bind at 1; unfold now at 1; unfold try_catch at 1; unfold bind at 1;
  rewrite fetchCompleteKOIData_eq;
  destruct (fetched w name) as [row'|err] eqn:Hfetched;
  [ unfold bind at 1, emit at 1, modify at 1; unfold bind at 1; unfold await;
    destruct (infer_api w (inferData_of row' name)) as [status' statusText' data'|err] eqn:Hpost;
    [ unfold ret at 1; unfold bind at 1, now at 1;
      destruct (status' =? 200)%Z eqn:Hstatus;
      [ apply Z.eqb_eq in Hstatus; subst status';
        destruct data' as [body'|];
        [ destruct (decide (Js.toUpperCase <$> (Some body' ≫= prediction)
                            = Some "FALSE POSITIVE")) as [Hfp|Hfp];
          [ unfold try_catch, bind, now; rewrite saveKOIToMongoDB_eq; unfold saved, ret;
            destruct (db_ready w) eqn:Hready;
            [ destruct (db_fault w (InsertOneKOI _)) eqn:Hfault | ]
          | destruct (decide (Js.toUpperCase <$> (Some body' ≫= prediction)
                              = Some "CONFIRMED")) as [Hc|Hc];
            [ unfold try_catch, bind; rewrite generateKeplerName_eq; unfold now;
              rewrite saveKOIToMongoDB_eq; unfold saved, ret;
              destruct (db_ready w) eqn:Hready;
              [ destruct (db_fault w (InsertOneKOI _)) eqn:Hfault | ]
            | unfold ret ] ]
        | unfold ret ]
      | unfold ret ]
    | unfold throw, bind, now, ret;
      destruct (bool_decide (Js.code_of err = Some "ECONNABORTED")
                || Js.includes (Js.message err) "timeout") eqn:Htimeout;
      [ | destruct (Js.response err) as [[status' statusText']|] eqn:Hresponse ] ]
  | unfold bind, now, ret;
    destruct (bool_decide (Js.code_of err = Some "ECONNABORTED")
              || Js.includes (Js.message err) "timeout") eqn:Htimeout;
    [ | destruct (Js.response err) as [[status' statusText']|] eqn:Hresponse ] ];
  cbn [fst snd].

(** Reconciles two readings of the same answer of the environment. *)
Ltac agree :=
  simplify_eq;
  repeat match goal with
         | H1 : ?x = _, H2 : ?x = _ |- _ => rewrite H1 in H2; simplify_eq
         end.

Section Gateway.

Context (w : World).

(** The Gateway returns; it never throws. *)
Lemma gateway_returns name s :
  ∃ r s', sendCandidateToInferAPI w name s = (Ok r, s').
Proof. gateway_paths w name; eauto. Qed.

(** It makes one GET and, when the row came back, one POST, configured
    with a timeout of 10000 ms. *)
Lemma gateway_requests name s r s' :
  sendCandidateToInferAPI w name s = (r, s') ->
  trace s' = trace s ++ requests w name.
Proof.
  unfold requests. gateway_paths w name; intros [= <- <-]; simpl;
    by rewrite <- ?app_assoc.
Qed.

Lemma gateway_frame name s r s' :
  sendCandidateToInferAPI w name s = (r, s') ->
  scheduler s' = scheduler s ∧ sync_logs s' = sync_logs s.
Proof. gateway_paths w name; by intros [= <- <-]. Qed.

Lemma gateway_outcome name s r s' :
  sendCandidateToInferAPI w name s = (Ok r, s') ->
  Outcome w name s r s'.
Proof.
  gateway_paths w name; intros [= <- <-];
    try (by eapply outcome_failed); try (by eapply outcome_other).
  - eapply outcome_false_positive; eauto; by rewrite app_nil_r || simpl.
  - eapply outcome_confirmed; eauto; by rewrite app_nil_r || simpl.
Qed.


Lemma fetched_row name statusText row rest :
  nasa_complete w name = Resolved 200 statusText (row :: rest) ->
  fetched w name = Ok row.
Proof. unfold fetched. by intros ->. Qed.

Lemma posts_requests name :
  posts (requests w name) = []
  ∨ ∃ row, fetched w name = Ok row
           ∧ posts (requests w name) = [PostInfer (inferData_of row name) 10000].
Proof. unfold requests. destruct (fetched w name); eauto. Qed.

End Gateway.

Lemma timed_out_test e :
  bool_decide (Js.code_of e = Some "ECONNABORTED") || Js.includes (Js.message e) "timeout"
  = true <-> timed_out e.
Proof.
  unfold timed_out. rewrite orb_true_iff, bool_decide_eq_true. tauto.
Qed.

(** C7. The Gateway never throws to its caller, whatever the remote
    catalogue, the classifier and the store do.  It sends the classifier
    at most one request, configured with a timeout of 10000 ms, and makes
    no second attempt.  When that request is rejected (a timeout, a
    response outside 2xx, no response at all) or answered with a status
    other than 200, the result has [success = false] and an [error] that
    tells which, and nothing is written to the store. *)
Theorem gateway_never_raises (w : World) (name : string) (s : Sys) :
  ∃ r s',
    sendCandidateToInferAPI w name s = (Ok r, s')
    ∧ trace s' = trace s ++ requests w name
    ∧ (length (posts (requests w name)) ≤ 1)%nat
    ∧ (∀ ev, ev ∈ posts (requests w name) -> ∃ body, ev = PostInfer body 10000)
    ∧ (∀ statusText row rest e,
         nasa_complete w name = Resolved 200 statusText (row :: rest) ->
         infer_api w (inferData_of row name) = Rejected e ->
         success r = false
         ∧ koi_objects s' = koi_objects s
         ∧ (timed_out e -> ir_error r = Some "Timeout 10s exceeded")
         ∧ (¬ timed_out e -> ∀ status text, Js.response e = Some (status, text) ->
            ir_status r = Some status
            ∧ ir_error r = Some ("HTTP " +:+ pretty status +:+ ": " +:+ text))
         ∧ (¬ timed_out e -> Js.response e = None ->
            ir_error r = Some ("Connection error: " +:+ Js.message e)))
    ∧ (∀ statusText row rest status text data,
         nasa_complete w name = Resolved 200 statusText (row :: rest) ->
         infer_api w (inferData_of row name) = Resolved status text data ->
         status ≠ 200%Z ->
         success r = false
         ∧ koi_objects s' = koi_objects s
         ∧ ir_status r = Some status
         ∧ ir_error r = Some ("HTTP " +:+ pretty status +:+ " - non-200 response")).
Proof.
  destruct (gateway_returns w name s) as (r & s' & Hrun).
  exists r, s'. split; [done|].
  split; [by eapply gateway_requests|].
  split; [destruct (posts_requests w name) as [->|(? & _ & ->)]; simpl; lia|].
  split.
  { intros ev. destruct (posts_requests w name) as [->|(? & _ & ->)].
    - by intros ?%elem_of_nil.
    - intros ->%list_elem_of_singleton. eauto. }
  split.
  - intros text0 row0 rest0 e0 Hrow%fetched_row Hrejected.
    revert Hrun. gateway_paths w name; intros [= <- <-]; agree; simpl.
    + apply timed_out_test in Htimeout. repeat split; intros; done.
    + apply not_true_iff_false in Htimeout. rewrite timed_out_test in Htimeout.
      repeat split; intros; simplify_eq; done.
    + apply not_true_iff_false in Htimeout. rewrite timed_out_test in Htimeout.
      repeat split; intros; simplify_eq; done.
  - intros text0 row0 rest0 status0 text1 data0 Hrow%fetched_row Hanswer Hne.
    revert Hrun. gateway_paths w name; intros [= <- <-]; agree; done.
Qed.


Section Verdicts.

Context (w : World) (name : string) (s : Sys).
Context (statusText : string) (row : KOI) (rest : list KOI).
Context (text : string) (body : InferResponse) (label : string).

Hypothesis remote_row : nasa_complete w name = Resolved 200 statusText (row :: rest).
Hypothesis answered : infer_api w (inferData_of row name) = Resolved 200 text (Some body).
Hypothesis labelled : prediction body = Some label.
Hypothesis store_ready : db_ready w = true.
Hypothesis store_writes : ∀ doc, db_fault w (InsertOneKOI doc) = None.

Lemma gateway_false_positive :
  Js.toUpperCase label = "FALSE POSITIVE" ->
  ∃ r s' doc,
    sendCandidateToInferAPI w name s = (Ok r, s')
    ∧ success r = true
    ∧ action r = Some "saved_as_false_positive"
    ∧ koi_objects s' = koi_objects s ++ [doc]
    ∧ kepoi_name doc = kepoi_name row
    ∧ koi_disposition doc = Some "FALSE POSITIVE"
    ∧ kepler_name doc = kepler_name row
    ∧ classified_by_automation doc label (probability body)
        (1 - Js.or_num (probability body) 0)%float.
Proof.
  intros Hlabel. apply fetched_row in remote_row.
  gateway_paths w name; agree; simpl in *; rewrite ?labelled in *; simpl in *;
    try congruence.
  do 3 eexists. split; [done|]. unfold classified_by_automation. simpl.
  repeat split; eauto.
Qed.

Lemma gateway_confirmed :
  Js.toUpperCase label = "CONFIRMED" ->
  ∃ r s' doc,
    sendCandidateToInferAPI w name s = (Ok r, s')
    ∧ success r = true
    ∧ action r = Some "saved_as_confirmed"
    ∧ koi_objects s' = koi_objects s ++ [doc]
    ∧ kepoi_name doc = kepoi_name row
    ∧ koi_disposition doc = Some "CONFIRMED"
    ∧ kepler_name doc = Some (allocated w name (koi_objects s))
    ∧ ir_kepler_name r = kepler_name doc
    ∧ classified_by_automation doc label (probability body)
        (Js.or_num (probability body) 0).
Proof.
  intros Hlabel. apply fetched_row in remote_row.
  gateway_paths w name; agree; simpl in *; rewrite ?labelled in *; simpl in *;
    try congruence.
  do 3 eexists. split; [done|]. unfold classified_by_automation. simpl.
  repeat split; eauto.
Qed.

End Verdicts.

Lemma or_num_probability p :
  Js.truthy_num p = true ∨ p = 0%float -> Js.or_num (Some p) 0 = p.
Proof. unfold Js.or_num. by intros [->| ->]. Qed.

(** C6. When the classifier answers 200 with a label and a probability
    [p] (a non-zero number, or zero) and the store accepts the write:
    a label that upper-cases to [FALSE POSITIVE] is saved as a false
    positive with the confidence [1 - p], a label that upper-cases to
    [CONFIRMED] is saved as confirmed with the confidence [p]; either way
    the record persisted has [IS_AI = true] and an [ai_prediction] that
    holds the label, the probability and the confidence. *)
Theorem gateway_verdict (w : World) (name : string) (s : Sys)
    (statusText : string) (row : KOI) (rest : list KOI)
    (text : string) (body : InferResponse) (label : string) (p : float) :
  nasa_complete w name = Resolved 200 statusText (row :: rest) ->
  infer_api w (inferData_of row name) = Resolved 200 text (Some body) ->
  prediction body = Some label ->
  probability body = Some p ->
  Js.truthy_num p = true ∨ p = 0%float ->
  db_ready w = true ->
  (∀ doc, db_fault w (InsertOneKOI doc) = None) ->
  (Js.toUpperCase label = "FALSE POSITIVE" ->
   ∃ r s' doc,
     sendCandidateToInferAPI w name s = (Ok r, s')
     ∧ success r = true
     ∧ action r = Some "saved_as_false_positive"
     ∧ koi_objects s' = koi_objects s ++ [doc]
     ∧ koi_disposition doc = Some "FALSE POSITIVE"
     ∧ classified_by_automation doc label (Some p) (1 - p)%float)
  ∧ (Js.toUpperCase label = "CONFIRMED" ->
     ∃ r s' doc,
       sendCandidateToInferAPI w name s = (Ok r, s')
       ∧ success r = true
       ∧ action r = Some "saved_as_confirmed"
       ∧ koi_objects s' = koi_objects s ++ [doc]
       ∧ koi_disposition doc = Some "CONFIRMED"
       ∧ classified_by_automation doc label (Some p) p).
Proof.
  intros Hrow Hanswer Hlabel Hp Hnum Hready Hwrites. split; intros Hverdict.
  - destruct (gateway_false_positive w name s _ _ _ _ _ _ Hrow Hanswer Hlabel Hready
                Hwrites Hverdict) as (r & s' & doc & ? & ? & ? & ? & ? & ? & ? & Hmarks).
    rewrite Hp, (or_num_probability p Hnum) in Hmarks. by exists r, s', doc.
  - destruct (gateway_confirmed w name s _ _ _ _ _ _ Hrow Hanswer Hlabel Hready
                Hwrites Hverdict) as (r & s' & doc & ? & ? & ? & ? & ? & ? & ? & ? & Hmarks).
    rewrite Hp, (or_num_probability p Hnum) in Hmarks. by exists r, s', doc.
Qed.

(** C10. When the classifier answers 200 with a label and no
    probability, the Gateway computes with 0: a false positive is saved
    with the confidence 1, a confirmed record with the confidence 0. *)
Theorem gateway_missing_probability (w : World) (name : string) (s : Sys)
    (statusText : string) (row : KOI) (rest : list KOI)
    (text : string) (body : InferResponse) (label : string) :
  nasa_complete w name = Resolved 200 statusText (row :: rest) ->
  infer_api w (inferData_of row name) = Resolved 200 text (Some body) ->
  prediction body = Some label ->
  probability body = None ->
  db_ready w = true ->
  (∀ doc, db_fault w (InsertOneKOI doc) = None) ->
  (Js.toUpperCase label = "FALSE POSITIVE" ->
   ∃ r s' doc,
     sendCandidateToInferAPI w name s = (Ok r, s')
     ∧ action r = Some "saved_as_false_positive"
     ∧ koi_objects s' = koi_objects s ++ [doc]
     ∧ koi_disposition doc = Some "FALSE POSITIVE"
     ∧ confidence_score doc = Some 1%float
     ∧ classified_by_automation doc label None 1%float)
  ∧ (Js.toUpperCase label = "CONFIRMED" ->
     ∃ r s' doc,
       sendCandidateToInferAPI w name s = (Ok r, s')
       ∧ action r = Some "saved_as_confirmed"
       ∧ koi_objects s' = koi_objects s ++ [doc]
       ∧ koi_disposition doc = Some "CONFIRMED"
       ∧ confidence_score doc = Some 0%float
       ∧ classified_by_automation doc label None 0%float).
Proof.
  intros Hrow Hanswer Hlabel Hp Hready Hwrites. split; intros Hverdict.
  - destruct (gateway_false_positive w name s _ _ _ _ _ _ Hrow Hanswer Hlabel Hready
                Hwrites Hverdict) as (r & s' & doc & ? & ? & ? & ? & ? & ? & ? & Hmarks).
    rewrite Hp in Hmarks. change (1 - Js.or_num None 0)%float with 1%float in Hmarks.
    pose proof Hmarks as (? & ? & ?). by exists r, s', doc.
  - destruct (gateway_confirmed w name s _ _ _ _ _ _ Hrow Hanswer Hlabel Hready
                Hwrites Hverdict) as (r & s' & doc & ? & ? & ? & ? & ? & ? & ? & ? & Hmarks).
    rewrite Hp in Hmarks. change (Js.or_num None 0) with 0%float in Hmarks.
    pose proof Hmarks as (? & ? & ?). by exists r, s', doc.
Qed.


Section Orchestrator.

Context (w : World).

Lemma count_inferResult_cases name r s st :
  ∃ st', count_inferResult name r (s, st) = (Ok tt, (s, st'))
         ∧ candidates st' = candidates st
         ∧ if success r then errors st' = errors st ∧ errorDetails st' = errorDetails st
           else errors st' = S (errors st)
                ∧ ∃ detail, errorDetails st' = errorDetails st ++ [detail]
                            ∧ ed_kepoi_name detail = Some name
                            ∧ ed_type detail = "infer_api_error"
                            ∧ ed_error detail = ir_error r.
Proof.
  unfold count_inferResult. destruct (success r); monad; simpl.
  - repeat case_match; simpl; eauto.
  - eexists. split; [reflexivity|]. simpl. eauto 10.
Qed.

Lemma process_entry_step entry s st :
  ∃ s' st', process_entry w entry (s, st) = (Ok tt, (s', st'))
            ∧ Step w entry s st s' st'.
Proof.
  unfold process_entry. fold (disposition_of entry) (identity_of entry).
  destruct (bool_decide (disposition_of entry = Some "CONFIRMED")
            || bool_decide (disposition_of entry = Some "FALSE POSITIVE")) eqn:Hdecided.
  - assert (decided entry) as Hd.
    { apply orb_true_iff in Hdecided as [?%bool_decide_eq_true| ?%bool_decide_eq_true];
        [by left|by right]. }
    unfold try_catch at 1, bind at 1, lift at 1. rewrite fetchCompleteKOIData_eq.
    destruct (fetched w (identity_of entry)) as [row|error] eqn:Hrow.
    + unfold bind at 1, lift at 1. rewrite saveKOIToMongoDB_eq.
      destruct (saved w row _) as [[[]|error] s1] eqn:Hsaved.
      * revert Hsaved. unfold saved.
        destruct (db_ready w); [|done]. destruct (db_fault w _); [done|].
        intros [= <-]. destruct (decide _); monad; simpl;
          do 2 eexists; (split; [reflexivity|]);
          (eapply step_direct; [exact Hd|exact Hrow|reflexivity..]).
      * assert (koi_objects s1 = koi_objects s) as Hsame.
        { revert Hsaved. unfold saved.
          destruct (db_ready w); [|by intros [= _ <-]].
          destruct (db_fault w _); by intros [= _ <-]. }
        monad; simpl. do 2 eexists. split; [reflexivity|].
        eapply step_direct_failed; [done| |done..].
        right. exists row. split; [exact Hrow|]. eexists. by rewrite Hsaved.
    + monad; simpl. do 2 eexists. split; [reflexivity|].
      eapply step_direct_failed; eauto.
  - apply orb_false_iff in Hdecided as [Hc%bool_decide_eq_false Hf%bool_decide_eq_false].
    destruct (decide (disposition_of entry = Some "CANDIDATE")) as [Hcand|Hcand].
    + unfold try_catch at 1, bind at 1, update at 1, modify at 1.
      unfold bind at 1, lift at 1.
      destruct (gateway_returns w (identity_of entry) s) as (r & s' & Hsend).
      rewrite Hsend.
      destruct (count_inferResult_cases (identity_of entry) r s' (incr_candidates st))
        as (st' & -> & _ & Hcount).
      do 2 eexists. split; [reflexivity|].
      eapply step_candidate; [exact Hcand|exact Hsend|exact Hcount].
    + monad; simpl. do 2 eexists. split; [reflexivity|].
      eapply step_unknown; try done. unfold decided. tauto.
Qed.

End Orchestrator.


Section Pass.

Context (w : World).

Lemma for_of_app {Σ A} (l1 l2 : list A) (body : A -> ST Σ unit) σ :
  for_of (l1 ++ l2) body σ
  = match for_of l1 body σ with
    | (Ok _, σ') => for_of l2 body σ'
    | (Throw e, σ') => (Throw e, σ')
    end.
Proof.
  revert σ. induction l1 as [|x l1 IH]; intros σ; simpl; [done|].
  unfold bind. destruct (body x σ) as [[[]|e] σ1]; [apply IH|done].
Qed.

Lemma loop_steps entries s st :
  ∃ s' st', for_of entries (process_entry w) (s, st) = (Ok tt, (s', st'))
            ∧ Steps w entries s st s' st'.
Proof.
  revert s st. induction entries as [|entry rest IH]; intros s st; simpl.
  - exists s, st. split; [done|constructor].
  - destruct (process_entry_step w entry s st) as (s1 & st1 & Hrun & Hstep).
    destruct (IH s1 st1) as (s' & st' & Hrest & Hsteps).
    exists s', st'. split; [|by econstructor].
    unfold bind. by rewrite Hrun.
Qed.

Lemma synchronizeKOIData_eq s :
  synchronizeKOIData w s
  = match listed w with
    | Throw e => (Throw e, set_ticks S (opening_state s))
    | Ok remote =>
        match existing w (koi_objects s) with
        | Throw e => (Throw e, set_ticks S (opening_state s))
        | Ok names =>
            let new := newKepOIEntries remote names in
            let '(_, (s1, st1)) :=
              for_of new (process_entry w) (opening_state s, opening_stats w s remote new) in
            (Ok (set_duration (clock w (ticks s1) - clock w (ticks s)) st1), set_ticks S s1)
        end
    end.
Proof.
  unfold synchronizeKOIData.
  unfold bind at 1, now at 1. unfold bind at 1, now at 1.
  unfold local, try_catch at 1. unfold bind at 1, lift at 1.
  rewrite fetchKepOINamesFromNASA_eq.
  destruct (listed w) as [remote|e]; [|by monad].
  unfold bind at 1, update at 1, modify at 1. unfold bind at 1, lift at 1.
  rewrite getExistingKepOINames_eq.
  change (koi_objects (set_trace _ _)) with (koi_objects s).
  destruct (existing w (koi_objects s)) as [names|e]; [|by monad].
  unfold bind at 1, update at 1, modify at 1.
  cbv zeta.
  set (new := newKepOIEntries remote names).
  destruct (decide (length new = 0%nat)) as [Hnone|Hsome].
  - apply length_zero_iff_nil in Hnone. rewrite Hnone. by monad.
  - unfold bind at 1.
    destruct (loop_steps new (opening_state s) (opening_stats w s remote new))
      as (s1 & st1 & Hloop & _).
    rewrite Hloop.
    change (for_of new (process_entry w) _)
      with (for_of new (process_entry w) (opening_state s, opening_stats w s remote new)).
    rewrite Hloop. by monad.
Qed.

End Pass.


Section Loop.

Context (w : World).

Lemma step_store entry s st s' st' :
  Step w entry s st s' st' ->
  koi_objects s' = koi_objects s
  ∨ ∃ doc, koi_objects s' = koi_objects s ++ [doc] ∧ Written w entry doc.
Proof.
  intros [row t Hd Hrow Hstore _ _|error Hd _ Hstore _|r Hcand Hsend _|detail _ _ -> _ _ _].
  - right. eexists. split; [done|]. exists row. simpl. eauto 10.
  - by left.
  - destruct (gateway_outcome w _ _ _ _ Hsend)
      as [error _ _ Hstore|_ _ Hstore|row statusText body date t Hrow _ _ _ _ Hstore
         |row statusText body date t Hrow _ _ _ _ _ Hstore].
    + by left.
    + by left.
    + right. eexists. split; [done|]. exists row. simpl. eauto 10.
    + right. eexists. split; [done|]. exists row. simpl. eauto 10.
  - by left.
Qed.

Lemma steps_store entries s st s' st' :
  Steps w entries s st s' st' ->
  ∃ added, koi_objects s' = koi_objects s ++ added
           ∧ Forall (fun doc => ∃ entry, entry ∈ entries ∧ Written w entry doc) added.
Proof.
  induction 1 as [s st|entry rest s st s1 st1 s' st' Hstep _ (added & Hadded & Hall)].
  - exists []. by rewrite app_nil_r.
  - assert (Forall (fun doc => ∃ e, e ∈ entry :: rest ∧ Written w e doc) added) as Hall'.
    { eapply Forall_impl; [done|]. intros doc (e & ? & ?). exists e. by rewrite elem_of_cons; eauto. }
    destruct (step_store _ _ _ _ _ Hstep) as [Hsame|(doc & Hdoc & Hwritten)].
    + exists added. by rewrite Hadded, Hsame.
    + exists (doc :: added). rewrite Hadded, Hdoc, <- app_assoc. split; [done|].
      constructor; [|done]. exists entry. split; [left|done].
Qed.

End Loop.

(** ** The Dataset Differ *)

Lemma names_of_stored docs identity :
  Js.truthy_str (Some identity) = true ->
  identity ∈ names_of docs <-> stored docs identity.
Proof.
  intros Htruthy. unfold names_of, stored.
  rewrite elem_of_list_to_set, list_elem_of_omap. split.
  - intros (koi & Hin & Hname). exists koi. split; [done|].
    by destruct (Js.truthy_str (kepoi_name koi)).
  - intros (koi & Hin & Hname). exists koi. split; [done|].
    by rewrite Hname, Htruthy.
Qed.

Lemma truthy_identity entry :
  Js.truthy_str (e_kepoi_name entry) = true ->
  e_kepoi_name entry = Some (identity_of entry).
Proof. unfold identity_of. by destruct (e_kepoi_name entry). Qed.

Lemma differ_elem_set remote (local : gset string) entry :
  entry ∈ newKepOIEntries remote local
  <-> entry ∈ remote
      ∧ Js.truthy_str (e_kepoi_name entry) = true
      ∧ identity_of entry ∉ local.
Proof.
  unfold newKepOIEntries. rewrite list_elem_of_filter, andb_true_iff, negb_true_iff.
  rewrite bool_decide_eq_false. fold (identity_of entry). tauto.
Qed.

Lemma differ_elem remote docs entry :
  entry ∈ newKepOIEntries remote (names_of docs)
  <-> entry ∈ remote
      ∧ Js.truthy_str (e_kepoi_name entry) = true
      ∧ ¬ stored docs (identity_of entry).
Proof.
  rewrite differ_elem_set. split; intros (Hin & Htruthy & Hnew); repeat split; try done.
  - rewrite <- names_of_stored; [done|]. by rewrite <- truthy_identity.
  - rewrite names_of_stored; [done|]. by rewrite <- truthy_identity.
Qed.

Lemma listed_ok w statusText remote :
  nasa_names w = Resolved 200 statusText remote -> listed w = Ok remote.
Proof. unfold listed. by intros ->. Qed.

Lemma existing_ok w docs :
  db_ready w = true -> db_fault w FindNames = None ->
  existing w docs = Ok (names_of docs).
Proof. unfold existing. by intros -> ->. Qed.

Lemma existing_names w docs names : existing w docs = Ok names -> names = names_of docs.
Proof.
  unfold existing. destruct (db_ready w); [|done].
  destruct (db_fault w FindNames); [done|]. by intros [= <-].
Qed.

(** A pass returns its statistics as soon as the projection and the
    stored identities could be read; its loop is a chain of steps over
    the new entries. *)
Lemma pass_returns w s remote :
  listed w = Ok remote ->
  existing w (koi_objects s) = Ok (names_of (koi_objects s)) ->
  let new := newKepOIEntries remote (names_of (koi_objects s)) in
  ∃ s1 st1,
    for_of new (process_entry w) (opening_state s, opening_stats w s remote new)
    = (Ok tt, (s1, st1))
    ∧ Steps w new (opening_state s) (opening_stats w s remote new) s1 st1
    ∧ synchronizeKOIData w s
      = (Ok (set_duration (clock w (ticks s1) - clock w (ticks s)) st1), set_ticks S s1).
Proof.
  intros Hlisted Hexisting new.
  destruct (loop_steps w new (opening_state s) (opening_stats w s remote new))
    as (s1 & st1 & Hloop & Hsteps).
  exists s1, st1. split; [done|]. split; [done|].
  rewrite synchronizeKOIData_eq, Hlisted, Hexisting. cbv zeta.
  fold new. by rewrite Hloop.
Qed.

(** Whatever a pass returns, it only appended to the store what its
    steps wrote for new entries. *)
Lemma pass_store w s r s' :
  synchronizeKOIData w s = (r, s') ->
  ∃ added,
    koi_objects s' = koi_objects s ++ added
    ∧ Forall (fun doc => ∃ remote entry,
                listed w = Ok remote
                ∧ entry ∈ newKepOIEntries remote (names_of (koi_objects s))
                ∧ Written w entry doc) added.
Proof.
  rewrite synchronizeKOIData_eq.
  destruct (listed w) as [remote|e] eqn:Hlisted.
  2:{ intros [= _ <-]. exists []. by rewrite app_nil_r. }
  destruct (existing w (koi_objects s)) as [names|e] eqn:Hexisting.
  2:{ intros [= _ <-]. exists []. by rewrite app_nil_r. }
  apply existing_names in Hexisting as ->. cbv zeta.
  destruct (loop_steps w (newKepOIEntries remote (names_of (koi_objects s)))
              (opening_state s)
              (opening_stats w s remote (newKepOIEntries remote (names_of (koi_objects s)))))
    as (s1 & st1 & Hloop & Hsteps).
  rewrite Hloop. intros [= _ <-].
  destruct (steps_store w _ _ _ _ _ Hsteps) as (added & Hadded & Hall).
  exists added. split; [done|].
  eapply Forall_impl; [done|]. intros doc (entry & ? & ?). by exists remote, entry.
Qed.

(** A pass throws only what the fetch of the projection or the read of
    the stored identities threw, and then it made its one request and
    wrote nothing. *)
Lemma synchronizeKOIData_throws w s e s' :
  synchronizeKOIData w s = (Throw e, s') ->
  (listed w = Throw e ∨ ∃ remote, listed w = Ok remote ∧ existing w (koi_objects s) = Throw e)
  ∧ koi_objects s' = koi_objects s
  ∧ trace s' = trace s ++ [GetNames 60000].
Proof.
  rewrite synchronizeKOIData_eq.
  destruct (listed w) as [remote|e'] eqn:Hlisted.
  2:{ intros [= -> <-]. split; [by left|done]. }
  destruct (existing w (koi_objects s)) as [names|e'] eqn:Hexisting.
  2:{ intros [= -> <-]. split; [right; by exists remote|done]. }
  cbv zeta. by destruct (for_of _ _ _) as [? [? ?]].
Qed.

Lemma stored_app docs added identity :
  stored docs identity -> stored (docs ++ added) identity.
Proof. intros (koi & ? & ?). exists koi. split; [|done]. apply elem_of_app. by left. Qed.

(** C3. For every remote list and every set of stored identities, the
    Differ returns exactly the remote entries that carry an identity
    absent from the set, in the order of the remote list.  The set a
    pass uses holds the identities of the stored records; so once a
    pass has persisted every record it found new, the next pass over the
    same remote list finds no new record and leaves the store as it
    is. *)
Theorem differ_new_records (remote : list Entry) (local : gset string) :
  (∀ entry,
     entry ∈ newKepOIEntries remote local
     <-> entry ∈ remote
         ∧ Js.truthy_str (e_kepoi_name entry) = true
         ∧ identity_of entry ∉ local)
  ∧ newKepOIEntries remote local `sublist_of` remote
  ∧ (∀ w1 w2 s stats1 s1 text1 text2,
       local = names_of (koi_objects s) ->
       (∀ identity, Js.truthy_str (Some identity) = true ->
                    (identity ∈ local <-> stored (koi_objects s) identity))
       ∧ (nasa_names w1 = Resolved 200 text1 remote ->
          synchronizeKOIData w1 s = (Ok stats1, s1) ->
          (∀ entry, entry ∈ newKepOIEntries remote local ->
                    stored (koi_objects s1) (identity_of entry)) ->
          nasa_names w2 = Resolved 200 text2 remote ->
          db_ready w2 = true ->
          db_fault w2 FindNames = None ->
          ∃ stats2 s2,
            synchronizeKOIData w2 s1 = (Ok stats2, s2)
            ∧ newKOIs stats2 = 0%nat
            ∧ koi_objects s2 = koi_objects s1)).
Proof.
  split; [apply differ_elem_set|]. split; [apply sublist_filter|].
  intros w1 w2 s stats1 s1 text1 text2 ->.
  split; [intros identity Htruthy; by apply names_of_stored|].
  intros _ Hfirst Hpersisted Hlisted%listed_ok Hready Hfind.
  destruct (pass_store _ _ _ _ Hfirst) as (added & Hadded & _).
  assert (newKepOIEntries remote (names_of (koi_objects s1)) = []) as Hnone.
  { apply elem_of_nil_inv. intros entry (Hin & Htruthy & Hnew)%differ_elem.
    apply Hnew.
    destruct (decide (identity_of entry ∈ names_of (koi_objects s))) as [Hold|Hold].
    - rewrite Hadded. apply stored_app. apply names_of_stored; [|done].
      by rewrite <- truthy_identity.
    - by apply Hpersisted, differ_elem_set. }
  rewrite synchronizeKOIData_eq, Hlisted, (existing_ok _ _ Hready Hfind). cbv zeta.
  rewrite Hnone. simpl. eauto.
Qed.

(** ** Failures of one record *)

Section Isolation.

Context (w : World).

Lemma step_details entry s st s' st' :
  Step w entry s st s' st' ->
  (errors st <= errors st')%nat ∧ errorDetails st `prefix_of` errorDetails st'.
Proof.
  intros [row t _ _ _ -> ->|error _ _ _ ->|r _ _ Hcount|detail _ _ _ -> _ _].
  - done.
  - simpl. split; [lia|by apply prefix_app_r].
  - destruct (success r).
    + by destruct Hcount as [-> ->].
    + destruct Hcount as (-> & detail & -> & _). split; [lia|by apply prefix_app_r].
  - simpl. split; [lia|by apply prefix_app_r].
Qed.

Lemma steps_details entries s st s' st' :
  Steps w entries s st s' st' ->
  (errors st <= errors st')%nat ∧ errorDetails st `prefix_of` errorDetails st'.
Proof.
  induction 1 as [|entry rest s st s1 st1 s' st' Hstep _ [IHe IHd]]; [done|].
  destruct (step_details _ _ _ _ _ Hstep) as [He Hd].
  split; [lia|by etrans].
Qed.

(** The pass around one of its new entries: the steps before it, its
    own step, the steps after it, and the statistics returned. *)
Lemma pass_around s remote before entry after :
  listed w = Ok remote ->
  existing w (koi_objects s) = Ok (names_of (koi_objects s)) ->
  newKepOIEntries remote (names_of (koi_objects s)) = before ++ entry :: after ->
  ∃ s1 st1 s2 st2 s3 st3,
    for_of before (process_entry w)
           (opening_state s, opening_stats w s remote (before ++ entry :: after))
    = (Ok tt, (s1, st1))
    ∧ Steps w before (opening_state s)
            (opening_stats w s remote (before ++ entry :: after)) s1 st1
    ∧ process_entry w entry (s1, st1) = (Ok tt, (s2, st2))
    ∧ Step w entry s1 st1 s2 st2
    ∧ for_of after (process_entry w) (s2, st2) = (Ok tt, (s3, st3))
    ∧ Steps w after s2 st2 s3 st3
    ∧ synchronizeKOIData w s
      = (Ok (set_duration (clock w (ticks s3) - clock w (ticks s)) st3), set_ticks S s3).
Proof.
  intros Hlisted Hexisting Hnew.
  destruct (loop_steps w before (opening_state s)
              (opening_stats w s remote (before ++ entry :: after)))
    as (s1 & st1 & Hbefore & Hsteps1).
  destruct (process_entry_step w entry s1 st1) as (s2 & st2 & Hentry & Hstep).
  destruct (loop_steps w after s2 st2) as (s3 & st3 & Hafter & Hsteps3).
  exists s1, st1, s2, st2, s3, st3. repeat split; try done.
  rewrite synchronizeKOIData_eq, Hlisted, Hexisting. cbv zeta. rewrite Hnew.
  rewrite for_of_app, Hbefore. simpl. unfold bind. by rewrite Hentry, Hafter.
Qed.

Lemma decided_not_candidate entry :
  decided entry -> disposition_of entry ≠ Some "CANDIDATE".
Proof. by intros [-> | ->]. Qed.

Lemma fetch_outcome name s : fst (fetchCompleteKOIData w name s) = fetched w name.
Proof. by rewrite fetchCompleteKOIData_eq. Qed.

End Isolation.

(** C9 (amended). When the fetch of the full record of a decided entry
    (remote status Confirmed or FalsePositive) fails during a pass, the
    failure stays with that entry: nothing is persisted for it, one
    [processing_error] detail with its identity and the message of the
    error is appended and the error counter goes up by one, the loop
    goes on with the entries that follow, and the pass returns its
    statistics instead of throwing.  Only the two fetches of the Differ
    fail a pass: whenever a pass throws, in whatever environment and
    state, it throws the error of the fetch of the projection or of the
    read of the stored identities, and it has written nothing. *)
Theorem fetch_failure_confined (w : World) (s : Sys) (statusText : string)
    (remote before after : list Entry) (entry : Entry) (error : Js.Error) :
  nasa_names w = Resolved 200 statusText remote ->
  db_ready w = true ->
  db_fault w FindNames = None ->
  newKepOIEntries remote (names_of (koi_objects s)) = before ++ entry :: after ->
  decided entry ->
  fst (fetchCompleteKOIData w (identity_of entry) s) = Throw error ->
  (∃ s1 st1 s2 st2 s3 st3 stats s',
    for_of before (process_entry w)
           (opening_state s, opening_stats w s remote (before ++ entry :: after))
    = (Ok tt, (s1, st1))
    ∧ process_entry w entry (s1, st1) = (Ok tt, (s2, st2))
    ∧ koi_objects s2 = koi_objects s1
    ∧ errors st2 = S (errors st1)
    ∧ errorDetails st2 = errorDetails st1 ++ [processing_error entry error]
    ∧ for_of after (process_entry w) (s2, st2) = (Ok tt, (s3, st3))
    ∧ synchronizeKOIData w s = (Ok stats, s')
    ∧ koi_objects s' = koi_objects s3
    ∧ (1 <= errors stats)%nat
    ∧ processing_error entry error ∈ errorDetails stats)
  ∧ (∀ w0 s0 e s0',
       synchronizeKOIData w0 s0 = (Throw e, s0') ->
       (fst (fetchKepOINamesFromNASA w0 s0) = Throw e
        ∨ fst (getExistingKepOINames w0 (snd (fetchKepOINamesFromNASA w0 s0))) = Throw e)
       ∧ koi_objects s0' = koi_objects s0).
Proof.
  intros Hlisted%listed_ok Hready Hfind Hnew Hdecided Hfetch.
  split.
  2:{ intros w0 s0 e s0' Hthrows.
      destruct (synchronizeKOIData_throws _ _ _ _ Hthrows) as ([He|(? & _ & He)] & Hstore & _).
      - split; [left|done]. by rewrite fetchKepOINamesFromNASA_eq.
      - split; [right|done]. by rewrite getExistingKepOINames_eq, fetchKepOINamesFromNASA_eq. }
  rewrite fetch_outcome in Hfetch.
  destruct (pass_around w s remote before entry after Hlisted
              (existing_ok _ _ Hready Hfind) Hnew)
    as (s1 & st1 & s2 & st2 & s3 & st3 & Hbefore & _ & Hentry & Hstep & Hafter & Hsteps & Hpass).
  exists s1, st1, s2, st2, s3, st3. do 2 eexists.
  split; [done|]. split; [done|].
  assert (koi_objects s2 = koi_objects s1
          ∧ st2 = push_errorDetails (processing_error entry error) (incr_errors st1))
    as [Hstore ->].
  { destruct Hstep as [row t _ Hrow _ _ _|error' _ Hwhy Hstore ->|r Hcand _ _|detail Hnot _ _ _ _ _].
    - congruence.
    - split; [done|]. destruct Hwhy as [Hwhy|(row & Hrow & _)]; congruence.
    - by apply decided_not_candidate in Hdecided.
    - done. }
  split; [done|]. split; [done|]. split; [done|]. split; [done|].
  split; [exact Hpass|]. split; [done|].
  destruct (steps_details w _ _ _ _ _ Hsteps) as [Herrors Hdetails]. simpl in *.
  split; [lia|].
  eapply elem_of_prefix; [|done]. apply elem_of_app. right. by left.
Qed.

Section Retry.

Context (w : World).

Lemma written_identity entry doc :
  answers_by_name w -> Written w entry doc -> kepoi_name doc = Some (identity_of entry).
Proof. intros Hby (row & Hrow & -> & _). by apply Hby. Qed.

Lemma steps_stored entries s st s' st' identity :
  answers_by_name w ->
  Steps w entries s st s' st' ->
  stored (koi_objects s') identity ->
  stored (koi_objects s) identity ∨ ∃ entry, entry ∈ entries ∧ identity_of entry = identity.
Proof.
  intros Hby Hsteps (koi & Hin & Hname).
  destruct (steps_store w _ _ _ _ _ Hsteps) as (added & Hadded & Hall).
  rewrite Hadded in Hin. apply elem_of_app in Hin as [Hin|Hin].
  - left. by exists koi.
  - right. rewrite Forall_forall in Hall. destruct (Hall _ Hin) as (entry & ? & Hwritten).
    exists entry. split; [done|].
    apply (written_identity _ _ Hby) in Hwritten. congruence.
Qed.

(** The details a chain of steps appends name entries of the chain. *)
Lemma steps_detail_names entries s st s' st' :
  Steps w entries s st s' st' ->
  ∃ details,
    errorDetails st' = errorDetails st ++ details
    ∧ Forall (fun detail => ∃ entry, entry ∈ entries
                            ∧ (ed_kepoi_name detail = e_kepoi_name entry
                               ∨ ed_kepoi_name detail = Some (identity_of entry)))
             details.
Proof.
  induction 1 as [s st|entry rest s st s1 st1 s' st' Hstep _ (details & Hdetails & Hall)].
  - exists []. by rewrite app_nil_r.
  - assert (Forall (fun detail => ∃ e, e ∈ entry :: rest
                     ∧ (ed_kepoi_name detail = e_kepoi_name e
                        ∨ ed_kepoi_name detail = Some (identity_of e))) details) as Hall'.
    { eapply Forall_impl; [done|]. intros d (e & ? & ?). exists e. split; [by right|done]. }
    assert (errorDetails st1 = errorDetails st
            ∨ ∃ detail, errorDetails st1 = errorDetails st ++ [detail]
                        ∧ (ed_kepoi_name detail = e_kepoi_name entry
                           ∨ ed_kepoi_name detail = Some (identity_of entry))) as [Hsame|Hone].
    { destruct Hstep as [row t _ _ _ _ ?|error _ _ _ ->|r _ _ Hcount|detail _ _ _ -> ? _].
      - by left.
      - right. eexists. split; [done|]. by left.
      - destruct (success r); [left; apply Hcount|].
        destruct Hcount as (_ & detail & ? & ? & _). right. eauto.
      - right. eexists. split; [done|]. by right. }
    + exists details. by rewrite Hdetails, Hsame.
    + destruct Hone as (detail & Hone & Hname).
      exists (detail :: details). rewrite Hdetails, Hone, <- app_assoc. split; [done|].
      constructor; [|done]. exists entry. split; [by left|done].
Qed.

End Retry.

Lemma names_of_new remote names entry :
  entry ∈ newKepOIEntries remote names ->
  e_kepoi_name entry = Some (identity_of entry).
Proof.
  unfold newKepOIEntries. rewrite list_elem_of_filter, andb_true_iff.
  intros [[Htruthy _] _]. by apply truthy_identity.
Qed.

Lemma new_identities_NoDup remote names :
  NoDup (e_kepoi_name <$> remote) ->
  NoDup (e_kepoi_name <$> newKepOIEntries remote names).
Proof.
  intros Hnodup. eapply sublist_NoDup; [done|].
  apply fmap_sublist, sublist_filter.
Qed.

(** Among new entries with distinct identities, the one in the middle
    shares its identity with none before and none after it. *)
Lemma identity_elsewhere remote names before entry after other :
  NoDup (e_kepoi_name <$> remote) ->
  newKepOIEntries remote names = before ++ entry :: after ->
  other ∈ before ++ after ->
  e_kepoi_name other ≠ e_kepoi_name entry
  ∧ identity_of other ≠ identity_of entry.
Proof.
  intros Hnodup%(new_identities_NoDup _ names) Hnew Hother.
  assert (e_kepoi_name other = Some (identity_of other)) as Hname.
  { apply (names_of_new remote names). rewrite Hnew.
    apply elem_of_app in Hother as [?|?]; apply elem_of_app; [by left|right; by right]. }
  assert (e_kepoi_name entry = Some (identity_of entry)) as Hname'.
  { apply (names_of_new remote names). rewrite Hnew. apply elem_of_app. right. by left. }
  assert (e_kepoi_name other ≠ e_kepoi_name entry) as Hne.
  { rewrite Hnew, fmap_app, fmap_cons in Hnodup.
    apply NoDup_app in Hnodup as (_ & Hbefore & [Hafter _]%NoDup_cons).
    intros Heq. apply elem_of_app in Hother as [Hin|Hin].
    - apply (Hbefore (e_kepoi_name other)); [by apply list_elem_of_fmap_2|].
      rewrite Heq. by left.
    - apply Hafter. rewrite <- Heq. by apply list_elem_of_fmap_2. }
  split; [done|]. congruence.
Qed.

(** C8. A candidate whose Gateway call comes back failed during a pass
    is not persisted; the loop appends exactly one error detail, which
    carries its identity and the reason, and counts one more error; it
    goes on with the entries that follow and the pass returns its
    statistics.  When the identities of the remote list are distinct
    and the catalogue answers by name, the record is absent from the
    store the pass leaves, its detail is the only one of the pass that
    names it, and the next pass over the same remote list finds the
    entry new again and calls the Gateway for it. *)
Theorem gateway_failure_isolated (w : World) (s : Sys) (statusText : string)
    (remote before after : list Entry) (entry : Entry)
    (s1 : Sys) (st1 : Stats) (r : InferResult) (s2 : Sys) :
  nasa_names w = Resolved 200 statusText remote ->
  db_ready w = true ->
  db_fault w FindNames = None ->
  NoDup (e_kepoi_name <$> remote) ->
  answers_by_name w ->
  newKepOIEntries remote (names_of (koi_objects s)) = before ++ entry :: after ->
  disposition_of entry = Some "CANDIDATE" ->
  for_of before (process_entry w)
         (opening_state s, opening_stats w s remote (before ++ entry :: after))
  = (Ok tt, (s1, st1)) ->
  sendCandidateToInferAPI w (identity_of entry) s1 = (Ok r, s2) ->
  success r = false ->
  ∃ st2 detail s3 st3 stats s',
    process_entry w entry (s1, st1) = (Ok tt, (s2, st2))
    ∧ koi_objects s2 = koi_objects s1
    ∧ errors st2 = S (errors st1)
    ∧ errorDetails st2 = errorDetails st1 ++ [detail]
    ∧ ed_kepoi_name detail = Some (identity_of entry)
    ∧ ed_error detail = ir_error r
    ∧ for_of after (process_entry w) (s2, st2) = (Ok tt, (s3, st3))
    ∧ synchronizeKOIData w s = (Ok stats, s')
    ∧ filter (fun d => ed_kepoi_name d = Some (identity_of entry)) (errorDetails stats)
      = [detail]
    ∧ ¬ stored (koi_objects s') (identity_of entry)
    ∧ ∀ w2 text2,
        nasa_names w2 = Resolved 200 text2 remote ->
        db_ready w2 = true ->
        db_fault w2 FindNames = None ->
        ∃ before2 after2 sa sta r2 sb stb stats2 s'',
          newKepOIEntries remote (names_of (koi_objects s')) = before2 ++ entry :: after2
          ∧ for_of before2 (process_entry w2)
                   (opening_state s', opening_stats w2 s' remote (before2 ++ entry :: after2))
            = (Ok tt, (sa, sta))
          ∧ sendCandidateToInferAPI w2 (identity_of entry) sa = (Ok r2, sb)
          ∧ process_entry w2 entry (sa, sta) = (Ok tt, (sb, stb))
          ∧ synchronizeKOIData w2 s' = (Ok stats2, s'').
Proof.
  intros Hlisted%listed_ok Hready Hfind Hnodup Hby Hnew Hcand Hbefore Hsend Hfailed.
  destruct (pass_around w s remote before entry after Hlisted
              (existing_ok _ _ Hready Hfind) Hnew)
    as (s1' & st1' & s2' & st2 & s3 & st3 & Hbefore' & Hsteps1 & Hentry & Hstep
        & Hafter & Hsteps3 & Hpass).
  rewrite Hbefore in Hbefore'. injection Hbefore' as <- <-.
  assert (s2' = s2
          ∧ errors st2 = S (errors st1)
          ∧ ∃ detail, errorDetails st2 = errorDetails st1 ++ [detail]
                      ∧ ed_kepoi_name detail = Some (identity_of entry)
                      ∧ ed_error detail = ir_error r)
    as (-> & Herrors & detail & Hdetails & Hname & Hreason).
  { destruct Hstep as [row t Hd _ _ _ _|error Hd _ _ _|r' _ Hsend' Hcount|detail Hnot Hnc _ _ _ _].
    - by apply decided_not_candidate in Hd.
    - by apply decided_not_candidate in Hd.
    - rewrite Hsend in Hsend'. injection Hsend' as <- <-.
      rewrite Hfailed in Hcount. destruct Hcount as (? & detail & ? & ? & _ & ?). eauto 10.
    - done. }
  assert (koi_objects s2 = koi_objects s1) as Hstore.
  { destruct (gateway_outcome w _ _ _ _ Hsend)
      as [error _ _ Hsame|Hok _ _|? ? ? ? ? _ _ _ Hok _ _|? ? ? ? ? _ _ _ Hok _ _ _];
      [done|congruence..]. }
  assert (entry ∈ newKepOIEntries remote (names_of (koi_objects s))) as Hin.
  { rewrite Hnew. apply elem_of_app. right. by left. }
  assert (¬ stored (koi_objects s3) (identity_of entry)) as Habsent.
  { intros Hstored.
    destruct (steps_stored w _ _ _ _ _ _ Hby Hsteps3 Hstored) as [Hstored2|(other & Hother & Hid)].
    2:{ eapply (identity_elsewhere remote _ before entry after other); try done.
        apply elem_of_app. by right. }
    unfold stored in Hstored2. rewrite Hstore in Hstored2.
    destruct (steps_stored w _ _ _ _ _ _ Hby Hsteps1 Hstored2) as [Hstored0|(other & Hother & Hid)].
    2:{ eapply (identity_elsewhere remote _ before entry after other); try done.
        apply elem_of_app. by left. }
    apply differ_elem in Hin as (_ & _ & Hfresh). by apply Hfresh. }
  exists st2, detail, s3, st3. do 2 eexists.
  split; [done|]. split; [done|]. split; [done|]. split; [done|]. split; [done|].
  split; [done|]. split; [done|]. split; [exact Hpass|].
  split.
  { destruct (steps_detail_names w _ _ _ _ _ Hsteps1) as (d1 & Hd1 & Hall1).
    destruct (steps_detail_names w _ _ _ _ _ Hsteps3) as (d3 & Hd3 & Hall3).
    simpl in *. rewrite Hd3, Hdetails, Hd1, !filter_app.
    assert (∀ part details,
              part ⊆ before ++ after ->
              Forall (fun d => ∃ e, e ∈ part
                                ∧ (ed_kepoi_name d = e_kepoi_name e
                                   ∨ ed_kepoi_name d = Some (identity_of e))) details ->
              filter (fun d => ed_kepoi_name d = Some (identity_of entry)) details = [])
      as Hnone.
    { intros part details Hpart Hall. apply elem_of_nil_inv. intros d [Hd Hind]%list_elem_of_filter.
      rewrite Forall_forall in Hall. destruct (Hall _ Hind) as (other & Hother & Hwho).
      destruct (identity_elsewhere remote _ before entry after other Hnodup Hnew
                  (Hpart _ Hother)) as [Hne1 Hne2].
      rewrite (names_of_new _ _ _ Hin) in Hne1. destruct Hwho; congruence. }
    rewrite (Hnone before d1), (Hnone after d3); try done.
    - rewrite filter_cons_True by done. done.
    - intros x ?. apply elem_of_app. by right.
    - intros x ?. apply elem_of_app. by left. }
  split; [done|].
  intros w2 text2 Hlisted2%listed_ok Hready2 Hfind2.
  assert (entry ∈ newKepOIEntries remote (names_of (koi_objects (set_ticks S s3)))) as Hagain.
  { apply differ_elem. apply differ_elem in Hin as (? & ? & _). done. }
  apply list_elem_of_split in Hagain as (before2 & after2 & Hnew2).
  destruct (pass_around w2 (set_ticks S s3) remote before2 entry after2 Hlisted2
              (existing_ok _ _ Hready2 Hfind2) Hnew2)
    as (sa & sta & sb & stb & sc & stc & Hbefore2 & _ & Hentry2 & Hstep2 & _ & _ & Hpass2).
  exists before2, after2, sa, sta.
  destruct Hstep2 as [row t Hd _ _ _ _|error Hd _ _ _|r2 _ Hsend2 _|d Hnot Hnc _ _ _ _];
    [by apply decided_not_candidate in Hd..| |done].
  exists r2, sb, stb. do 2 eexists. done.
Qed.

(** ** Names and status in the store *)

Lemma written_named w remote entry doc :
  consistent_remote w ->
  listed w = Ok remote ->
  entry ∈ remote ->
  Written w entry doc ->
  is_confirmed doc <-> is_Some (kepler_name doc).
Proof.
  intros [Hnamed Hsame] Hlisted Hin (row & Hrow & _ & Hcases).
  specialize (Hnamed _ _ Hrow). specialize (Hsame _ _ _ Hlisted Hin Hrow).
  unfold is_confirmed in *.
  destruct Hcases as [(_ & -> & ->)|[(Hcand & -> & ->)|(_ & -> & Hname)]].
  - done.
  - rewrite Hsame, Hcand in Hnamed. simpl. rewrite <- Hnamed. done.
  - done.
Qed.

(** C2 (amended). In every store that synchronization passes build
    from the empty store, as long as the remote catalogue names exactly
    its Confirmed records and gives an entry the same status in both
    queries, a stored record has an assigned name if and only if its
    status is Confirmed.  (Nothing makes the assigned names distinct.) *)
Theorem names_follow_status (docs : list KOI) :
  reachable_store consistent_remote docs ->
  ∀ koi, koi ∈ docs -> (is_confirmed koi <-> is_Some (kepler_name koi)).
Proof.
  induction 1 as [|w s r s' Hw _ IH Hpass]; intros koi Hin.
  - by apply elem_of_nil in Hin.
  - destruct (pass_store _ _ _ _ Hpass) as (added & Hadded & Hall).
    rewrite Hadded in Hin. apply elem_of_app in Hin as [Hin|Hin]; [by apply IH|].
    rewrite Forall_forall in Hall.
    destruct (Hall _ Hin) as (remote & entry & Hlisted & Hnew & Hwritten).
    eapply written_named; try done.
    unfold newKepOIEntries in Hnew. by apply list_elem_of_filter in Hnew as [_ ?].
Qed.

(** ** The Identifier Allocator *)



Lemma getNextAvailableLetter_first : getNextAvailableLetter [] = "b"%char.
Proof. reflexivity. Qed.

Lemma group_step_none g koi : label_of koi = None -> group_step g koi = g.
Proof.
  unfold label_of, group_step, extractKeplerNumber.
  destruct (Js.truthy_str (kepler_name koi)); simpl; [|done].
  destruct (search match_number_here _); simpl; [|done].
  by destruct (Js.parseInt _ =? 0)%N.
Qed.












Lemma unnamed_no_label koi : Js.truthy_str (kepler_name koi) = false -> label_of koi = None.
Proof. unfold label_of, extractKeplerNumber. by intros ->. Qed.

Lemma caseA_unnamed found :
  (∀ koi, koi ∈ found -> label_of koi = None) -> caseA found = None.
Proof.
  intros Hnone.
  assert (group_all found = []) as Hgroups.
  { unfold group_all. induction found as [|koi found IH] using rev_ind; [done|].
    rewrite foldl_app. simpl. rewrite IH.
    - apply group_step_none, Hnone, elem_of_app. right. by left.
    - intros k Hk. apply Hnone, elem_of_app. by left. }
  unfold caseA. rewrite Hgroups. by destruct (0 <? length found)%nat.
Qed.

Lemma number_truthy name n :
  extractKeplerNumber name = Some n -> Js.truthy_str name = true.
Proof. unfold extractKeplerNumber. by destruct (Js.truthy_str name). Qed.

(** The loop of [findLastKeplerName]: the greatest label read, and a
    name that carries it. *)
Lemma last_step_spec results :
  ∃ m last,
    foldl last_step (0%N, None) results = (m, last)
    ∧ (∀ koi n, koi ∈ results -> extractKeplerNumber (kepler_name koi) = Some n -> (n <= m)%N)
    ∧ (m = 0%N -> last = None)
    ∧ (m ≠ 0%N -> ∃ koi, koi ∈ results ∧ last = kepler_name koi
                         ∧ extractKeplerNumber (kepler_name koi) = Some m).
Proof.
  induction results as [|koi results (m & last & Hfold & Hmax & Hzero & Hsome)] using rev_ind.
  - exists 0%N, None. split; [done|]. split; [by intros ? ? ?%elem_of_nil|]. done.
  - rewrite foldl_app, Hfold. simpl.
    destruct (extractKeplerNumber (kepler_name koi)) as [number|] eqn:Hnumber.
    + destruct (negb (number =? 0)%N && (m <? number)%N) eqn:Hupdate.
      * apply andb_true_iff in Hupdate as [Hnz%negb_true_iff%N.eqb_neq Hlt%N.ltb_lt].
        exists number, (kepler_name koi). split; [done|]. split; [|split; [done|]].
        -- intros k n [Hk|Hk%list_elem_of_singleton]%elem_of_app Hn.
           ++ specialize (Hmax _ _ Hk Hn). lia.
           ++ subst k. assert (n = number) by congruence. lia.
        -- intros _. exists koi. split; [|done]. apply elem_of_app. right. by left.
      * exists m, last. split; [done|]. split; [|split; [done|]].
        -- intros k n [Hk|Hk%list_elem_of_singleton]%elem_of_app Hn; [by eapply Hmax|].
           subst k. assert (n = number) as -> by congruence.
           apply andb_false_iff in Hupdate as [Hz%negb_false_iff%N.eqb_eq|Hge%N.ltb_ge]; lia.
        -- intros Hm. destruct (Hsome Hm) as (k & Hk & ? & ?). exists k.
           split; [|done]. apply elem_of_app. by left.
    + exists m, last. split; [done|]. split; [|split; [done|]].
      * intros k n [Hk|Hk%list_elem_of_singleton]%elem_of_app Hn; [by eapply Hmax|].
        subst k. congruence.
      * intros Hm. destruct (Hsome Hm) as (k & Hk & ? & ?). exists k.
        split; [|done]. apply elem_of_app. by left.
Qed.

Lemma caseB_spec docs :
  ∃ m, greatest_label docs m
       ∧ caseB (last_of (filter (fun koi => has_kepler_label koi = true) docs))
         = kepler (m + 1) "b".
Proof.
  set (results := filter (fun koi => has_kepler_label koi = true) docs).
  destruct (last_step_spec results) as (m & last & Hfold & Hmax & Hzero & Hsome).
  assert (last_of results = last) as ->.
  { unfold last_of. case_decide as Hlen; [|by rewrite Hfold].
    apply length_zero_iff_nil in Hlen. rewrite Hlen in Hfold. by injection Hfold as <- <-. }
  exists m. split; [split|].
  - intros koi n Hin Hlabel. unfold assigned_label in Hlabel.
    destruct (has_kepler_label koi) eqn:Hhas; [|done].
    eapply Hmax; [|done]. by apply list_elem_of_filter.
  - destruct (decide (m = 0%N)) as [->|Hm]; [by left|right].
    destruct (Hsome Hm) as (koi & [Hhas Hin]%list_elem_of_filter & _ & Hnumber).
    exists koi. split; [done|]. unfold assigned_label. by rewrite Hhas.
  - unfold caseB. destruct (decide (m = 0%N)) as [->|Hm].
    + by rewrite (Hzero eq_refl).
    + destruct (Hsome Hm) as (koi & _ & -> & Hnumber).
      by rewrite (number_truthy _ _ Hnumber), Hnumber.
Qed.


(** *** Names of the form [Kepler-<label> <letter>]

    The Allocator reads back the label and the letter of every name it
    composes. *)

Lemma pretty_N_char_digit x :
  (x < 10)%N ->
  Js.is_digit (pretty_N_char x) = true ∧ (Js.code (pretty_N_char x) - 48 = x)%N.
Proof.
  intros Hx.
  assert (x = 0 ∨ x = 1 ∨ x = 2 ∨ x = 3 ∨ x = 4 ∨ x = 5 ∨ x = 6 ∨ x = 7 ∨ x = 8 ∨ x = 9)%N
    as Hcases by lia.
  repeat destruct Hcases as [->|Hcases]; try subst x; done.
Qed.

Lemma pretty_N_go_digits x s :
  all_digits s = true ->
  all_digits (pretty_N_go x s) = true
  ∧ Js.parse_digits 0 (pretty_N_go x s) = Js.parse_digits x s.
Proof.
  revert s. induction (N.lt_wf_0 x) as [x _ IH]; intros s Hs.
  assert (x = 0 ∨ 0 < x)%N as [->|Hpos] by lia; [by rewrite pretty_N_go_0|].
  rewrite pretty_N_go_step by done.
  destruct (pretty_N_char_digit (x `mod` 10)) as [Hdigit Hcode]; [by apply N.mod_lt|].
  destruct (IH (x `div` 10)%N (N.div_lt x 10 Hpos eq_refl)
              (String (pretty_N_char (x `mod` 10)) s)) as [Hall Hparse].
  { simpl. by rewrite Hdigit, Hs. }
  split; [done|]. rewrite Hparse. simpl. rewrite Hcode. f_equal.
  rewrite (N.div_mod x 10) at 3 by done. lia.
Qed.

Lemma pretty_N_go_nonempty x s : s ≠ "" -> pretty_N_go x s ≠ "".
Proof.
  revert s. induction (N.lt_wf_0 x) as [x _ IH]; intros s Hs.
  assert (x = 0 ∨ 0 < x)%N as [->|Hpos] by lia; [by rewrite pretty_N_go_0|].
  rewrite pretty_N_go_step by done. apply IH; [by apply N.div_lt|done].
Qed.

Lemma pretty_digits (n : N) :
  all_digits (pretty n) = true ∧ pretty n ≠ "" ∧ Js.parseInt (pretty n) = n.
Proof.
  unfold pretty, pretty_N. case_decide as Hn; [by subst n|].
  destruct (pretty_N_go_digits n "" eq_refl) as [Hall Hparse].
  split; [done|]. split; [|done].
  rewrite pretty_N_go_step by lia. by apply pretty_N_go_nonempty.
Qed.

Lemma span_digits digits rest :
  all_digits digits = true ->
  (if rest is String c _ then Js.is_digit c else false) = false ->
  Js.span Js.is_digit (digits +:+ rest) = (digits, rest).
Proof.
  intros Hall Hrest. induction digits as [|c digits IH].
  - change ("" +:+ rest) with rest.
    destruct rest as [|c rest]; [done|]. cbn [Js.span]. by rewrite Hrest.
  - change (String c digits +:+ rest) with (String c (digits +:+ rest)).
    cbn [Js.span all_digits] in *.
    apply andb_true_iff in Hall as [-> Hall]. by rewrite IH.
Qed.

Lemma search_here {A} (here : string -> option A) s x :
  here s = Some x -> search here s = Some x.
Proof. intros Hhere. destruct s; cbn [search]; by rewrite Hhere. Qed.


(** The labels read from a store of safe labels. *)
Lemma safe_labels_number docs koi n :
  safe_labels docs = true -> koi ∈ docs ->
  extractKeplerNumber (kepler_name koi) = Some n -> (n <= Js.MAX_SAFE_INTEGER)%N.
Proof.
  unfold safe_labels. rewrite forallb_forall. intros Hsafe Hin Hn.
  apply list_elem_of_In in Hin. specialize (Hsafe _ Hin). unfold safe_label in Hsafe.
  rewrite Hn in Hsafe. by apply N.leb_le.
Qed.


Lemma safe_labels_assigned docs koi n :
  safe_labels docs = true -> koi ∈ docs -> assigned_label koi = Some n ->
  (n <= Js.MAX_SAFE_INTEGER)%N.
Proof.
  intros Hsafe Hin. unfold assigned_label.
  destruct (has_kepler_label koi); [|done]. by apply (safe_labels_number docs).
Qed.


(** C5. For an identity whose group base is made of letters and digits
    and a store whose labels are safe integers: when no record that
    shares the group base of the new identity has an assigned name, the
    Allocator returns the greatest label among the assigned names of the
    whole store plus one (one when the store holds no assigned name),
    with the letter [b].  The greatest label is a safe integer, so the
    sum is exact and the name shows it digit for digit. *)
Theorem allocate_new_group (w : World) (kepoi_name : string) (s : Sys) :
  alphanumeric (extractKOIBase kepoi_name) = true ->
  safe_labels (koi_objects s) = true ->
  db_ready w = true ->
  db_fault w FindLast = None ->
  (∀ koi, koi ∈ koi_objects s ->
          similar_to (extractKOIBase kepoi_name) koi = true ->
          Js.truthy_str (kepler_name koi) = false) ->
  ∃ m, greatest_label (koi_objects s) m
       ∧ generateKeplerName w kepoi_name s = (Ok (kepler (m + 1) "b"), s)
       ∧ (m <= Js.MAX_SAFE_INTEGER)%N.
Proof.
  intros Hbase Hsafe Hready Hlast Hunnamed.
  destruct (caseB_spec (koi_objects s)) as (m & Hgreatest & HcaseB).
  exists m. split; [done|].
  split.
  2:{ destruct Hgreatest as [_ [->|(koi & Hin & Hkoi)]]; [done|].
      by eapply safe_labels_assigned. }
  rewrite generateKeplerName_eq. unfold allocated, similar_found, last_found.
  rewrite Hready, Hlast, HcaseB.
  assert (∀ found, found ⊆ filter (fun koi => similar_to (extractKOIBase kepoi_name) koi = true)
                                  (koi_objects s) -> caseA found = None) as Hnone.
  { intros found Hsub. apply caseA_unnamed. intros koi [? ?]%Hsub%list_elem_of_filter.
    by apply unnamed_no_label, Hunnamed. }
  destruct (db_fault w (FindSimilar _)).
  - by rewrite (Hnone []); [|intros ? ?%elem_of_nil].
  - by rewrite Hnone.
Qed.

(** ** The single-flight guard *)

Import SchedulerService.

Section Guard.

Context (w : World).

Lemma finish_releases s r s' :
  finish w s = (r, s') -> isRunning (scheduler s') = false.
Proof.
  unfold finish, try_finally. destruct (pass w s) as [r0 s0]. by intros [= _ <-].
Qed.

Lemma begin_raises s : isRunning (scheduler (snd (begin w s))) = true.
Proof. done. Qed.

Lemma runSyncNow_running s :
  isRunning (scheduler s) = true -> runSyncNow w s = (Throw conflict, s).
Proof. unfold runSyncNow. monad. by intros ->. Qed.

Lemma executeSyncTask_running s :
  isRunning (scheduler s) = true -> executeSyncTask w s = (Ok None, s).
Proof. unfold executeSyncTask. monad. by intros ->. Qed.

Lemma runSyncNow_idle s :
  isRunning (scheduler s) = false -> runSyncNow w s = finish w (snd (begin w s)).
Proof.
  intros Hidle. unfold runSyncNow, executeSyncTask, bind at 1, get at 1.
  rewrite Hidle. unfold bind at 1, get at 1. rewrite Hidle.
  unfold bind at 1. by destruct (begin w s) as [[[]|e] s1] eqn:Hbegin.
Qed.

Lemma post_run_running s :
  isRunning (scheduler s) = true ->
  ∃ reply, Route.post_run w s = (Ok reply, s)
           ∧ Route.statusCode reply = 409%Z
           ∧ Route.reply_error reply = Some "Conflict"
           ∧ Route.reply_message reply = "A synchronization is already in progress".
Proof.
  intros Hrunning. unfold Route.post_run, try_catch, bind.
  rewrite (runSyncNow_running _ Hrunning). by eexists.
Qed.

End Guard.

Lemma enter_running w c s :
  isRunning (scheduler s) = true ->
  enter w c s = (match c with Manual => Rejected conflict | Cron => Skipped end, s).
Proof. unfold enter. intros ->. by destruct c. Qed.

(** At most one pass is in flight, and the flag says whether one is. *)
Lemma in_flight c :
  reachable c -> c.2 = if isRunning (scheduler c.1) then 1%nat else 0%nat.
Proof.
  induction 1 as [s Hidle|c c' _ IH Hstep]; simpl; [by rewrite Hidle|].
  destruct Hstep as [w trigger s n o s' Henter|w s n r s' Hfinish]; simpl in *.
  - unfold enter in Henter. destruct (isRunning (scheduler s)) eqn:Hrunning.
    + destruct trigger; injection Henter as <- <-; by rewrite Hrunning.
    + injection Henter as <- <-. by rewrite IH.
  - rewrite (finish_releases _ _ _ _ Hfinish).
    destruct (isRunning (scheduler s)); lia.
Qed.

(** C1. In every configuration the scheduler can reach, at most one
    pass is in flight.  While one is, [runSyncNow] throws the error
    [A synchronization is already in progress], which the route answers
    with 409 Conflict; the call leaves the whole process state as it
    was, so no pass is queued and no pass record is written (the
    periodic trigger, which goes through the same flag, is skipped);
    and when the pass in flight finishes, whether it returns or throws,
    the flag is back to [false].  From an idle state [runSyncNow] is the
    whole pass, and it ends with the flag at [false]. *)
Theorem single_flight (c : Config) :
  reachable c ->
  c.2 = (if isRunning (scheduler c.1) then 1%nat else 0%nat)
  ∧ (isRunning (scheduler c.1) = true ->
     ∀ w,
       runSyncNow w c.1 = (Throw conflict, c.1)
       ∧ enter w Manual c.1 = (Rejected conflict, c.1)
       ∧ executeSyncTask w c.1 = (Ok None, c.1)
       ∧ (∃ reply, Route.post_run w c.1 = (Ok reply, c.1)
                   ∧ Route.statusCode reply = 409%Z
                   ∧ Route.reply_error reply = Some "Conflict")
       ∧ ∀ r s', finish w c.1 = (r, s') ->
                 isRunning (scheduler s') = false ∧ reachable (s', 0%nat))
  ∧ (isRunning (scheduler c.1) = false ->
     ∀ w, runSyncNow w c.1 = finish w (snd (begin w c.1))
          ∧ isRunning (scheduler (snd (runSyncNow w c.1))) = false).
Proof.
  intros Hreach. split; [by apply in_flight|]. split.
  - intros Hrunning w. split; [by apply runSyncNow_running|].
    split; [by apply (enter_running w Manual)|].
    split; [by apply executeSyncTask_running|]. split.
    + destruct (post_run_running w _ Hrunning) as (reply & ? & ? & ? & _). eauto.
    + intros r s' Hfinish. split; [by eapply finish_releases|].
      eapply reachable_step; [exact Hreach|].
      destruct c as [s n]. pose proof (in_flight _ Hreach) as Hn. simpl in *.
      rewrite Hrunning in Hn. subst n. by eapply step_finish.
  - intros Hidle w. rewrite (runSyncNow_idle _ _ Hidle). split; [done|].
    destruct (finish w (snd (begin w c.1))) as [r s'] eqn:Hfinish.
    by eapply finish_releases.
Qed.
(** * Further properties *)

(** ** The books of a pass *)

Section Books.

Context (w : World).

Lemma count_inferResult_failed name r s st :
  success r = false ->
  ∃ detail,
    count_inferResult name r (s, st)
    = (Ok tt, (s, push_errorDetails detail (incr_errors st)))
    ∧ ed_type detail = "infer_api_error".
Proof. intros Hr. unfold count_inferResult. rewrite Hr. by eexists. Qed.

Lemma count_inferResult_false_positive name r s st :
  success r = true ->
  action r = Some "saved_as_false_positive" ->
  count_inferResult name r (s, st)
  = (Ok tt, (s, incr_falsePositive
                  (incr_candidatesSavedAsFalsePositive
                     (incr_candidatesClassifiedByAI (incr_candidatesSent st))))).
Proof. intros Hr Ha. unfold count_inferResult. rewrite Hr, Ha. reflexivity. Qed.

Lemma count_inferResult_confirmed name r s st :
  success r = true ->
  action r = Some "saved_as_confirmed" ->
  count_inferResult name r (s, st)
  = (Ok tt, (s, incr_confirmed
                  (incr_candidatesSavedAsConfirmed
                     (incr_candidatesClassifiedByAI (incr_candidatesSent st))))).
Proof. intros Hr Ha. unfold count_inferResult. rewrite Hr, Ha. reflexivity. Qed.

Lemma count_inferResult_other name r s st :
  success r = true ->
  action r = Some "prediction_not_supported" ->
  count_inferResult name r (s, st)
  = (Ok tt, (s, incr_candidatesOtherPrediction
                  (incr_candidatesClassifiedByAI (incr_candidatesSent st)))).
Proof. intros Hr Ha. unfold count_inferResult. rewrite Hr, Ha. reflexivity. Qed.

Lemma gateway_failures_push detail st :
  gateway_failures (push_errorDetails detail st)
  = (gateway_failures st + if decide (ed_type detail = "infer_api_error") then 1 else 0)%nat.
Proof.
  unfold gateway_failures. cbn [errorDetails push_errorDetails].
  rewrite filter_app, length_app. f_equal.
  rewrite filter_cons, filter_nil. by case_decide.
Qed.

Ltac books Hb Hstore :=
  unfold balanced, handled in *;
  destruct Hb as (Hb1 & Hb2 & Hb3 & Hb4 & Hb5);
  rewrite ?Hstore;
  rewrite ?gateway_failures_push;
  repeat case_decide; cbn [ed_type] in *; try congruence; try discriminate;
  unfold gateway_failures in *;
  cbn [candidates candidatesSent candidatesClassifiedByAI candidatesSavedAsFalsePositive
       candidatesSavedAsConfirmed candidatesOtherPrediction confirmed falsePositive
       errors errorDetails totalFromNASA newKOIs
       incr_candidates incr_candidatesSent incr_candidatesClassifiedByAI
       incr_candidatesSavedAsFalsePositive incr_candidatesSavedAsConfirmed
       incr_candidatesOtherPrediction incr_confirmed incr_falsePositive incr_errors
       push_errorDetails] in *;
  rewrite ?length_app; cbn [length];
  repeat split; try lia; try done.

Lemma candidate_books name s st base :
  balanced base s st ->
  ∃ r s' st',
    sendCandidateToInferAPI w name s = (Ok r, s')
    ∧ count_inferResult name r (s', incr_candidates st) = (Ok tt, (s', st'))
    ∧ balanced base s' st'
    ∧ handled st' = S (handled st)
    ∧ candidates st' = S (candidates st)
    ∧ totalFromNASA st' = totalFromNASA st
    ∧ newKOIs st' = newKOIs st.
Proof.
  intros Hb.
  destruct (gateway_returns w name s) as (r & s' & Hsend).
  exists r, s'.
  destruct (gateway_outcome w _ _ _ _ Hsend)
    as [error Hr _ Hstore|Hr Ha Hstore
       |row statusText body date t _ _ _ Hr Ha Hstore
       |row statusText body date t _ _ _ Hr Ha _ Hstore].
  - destruct (count_inferResult_failed name r s' (incr_candidates st) Hr)
      as (detail & Hcount & Htype).
    eexists. split; [done|]. split; [exact Hcount|].
    books Hb Hstore.
  - eexists. split; [done|]. split; [by apply count_inferResult_other|].
    books Hb Hstore.
  - eexists. split; [done|]. split; [by apply count_inferResult_false_positive|].
    books Hb Hstore.
  - eexists. split; [done|]. split; [by apply count_inferResult_confirmed|].
    books Hb Hstore.
Qed.

Lemma saved_effect row s :
  ∃ r s', saved w row s = (r, s')
          ∧ trace s' = trace s
          ∧ sync_logs s' = sync_logs s
          ∧ scheduler s' = scheduler s
          ∧ match r with
            | Ok _ => ∃ doc, koi_objects s' = koi_objects s ++ [doc]
            | Throw _ => koi_objects s' = koi_objects s
            end.
Proof.
  unfold saved. destruct (db_ready w); [|by eauto 10].
  destruct (db_fault w _); do 2 eexists; (split; [reflexivity|]); repeat split; eauto.
Qed.

Lemma process_entry_books entry s st base :
  balanced base s st ->
  ∃ s' st',
    process_entry w entry (s, st) = (Ok tt, (s', st'))
    ∧ balanced base s' st'
    ∧ handled st' = S (handled st)
    ∧ candidates st'
      = (candidates st
         + if decide (disposition_of entry = Some "CANDIDATE") then 1 else 0)%nat
    ∧ totalFromNASA st' = totalFromNASA st
    ∧ newKOIs st' = newKOIs st
    ∧ trace s' = trace s ++ entry_requests w entry
    ∧ sync_logs s' = sync_logs s
    ∧ scheduler s' = scheduler s.
Proof.
  intros Hb.
  unfold process_entry, entry_requests.
  fold (disposition_of entry) (identity_of entry).
  destruct (bool_decide (disposition_of entry = Some "CONFIRMED")
            || bool_decide (disposition_of entry = Some "FALSE POSITIVE")) eqn:Hdecided.
  - assert (disposition_of entry ≠ Some "CANDIDATE") as Hcand.
    { apply orb_true_iff in Hdecided as [->%bool_decide_eq_true| ->%bool_decide_eq_true]; done. }
    unfold try_catch at 1, bind at 1, lift at 1. rewrite fetchCompleteKOIData_eq.
    destruct (fetched w (identity_of entry)) as [row|error] eqn:Hrow.
    + unfold bind at 1, lift at 1. rewrite saveKOIToMongoDB_eq.
      destruct (saved_effect row
                  (set_trace (fun t => t ++ [GetComplete (identity_of entry) 30000]) s))
        as (r & s1 & -> & Htrace & Hlogs & Hsched & Hstore).
      destruct r as [[]|error].
      * destruct Hstore as (doc & Hstore). cbn [koi_objects set_trace] in Hstore.
        destruct (decide (disposition_of entry = Some "CONFIRMED")); monad;
          do 2 eexists; (split; [reflexivity|]); rewrite Htrace, Hlogs, Hsched;
          books Hb Hstore.
      * cbn [koi_objects set_trace] in Hstore.
        monad. do 2 eexists. split; [reflexivity|]. rewrite Htrace, Hlogs, Hsched.
        books Hb Hstore.
    + monad. do 2 eexists. split; [reflexivity|].
      books Hb Hrow.
  - destruct (decide (disposition_of entry = Some "CANDIDATE")) as [Hcand|Hcand].
    + unfold try_catch at 1, bind at 1, update at 1, modify at 1.
      unfold bind at 1, lift at 1.
      destruct (candidate_books (identity_of entry) s st base Hb)
        as (r & s' & st' & Hsend & Hcount & Hb' & ? & ? & ? & ?).
      rewrite Hsend, Hcount. exists s', st'. split; [done|].
      rewrite (gateway_requests w _ _ _ _ Hsend).
      destruct (gateway_frame w _ _ _ _ Hsend) as [-> ->].
      split; [exact Hb'|]. cbn beta iota. repeat split; try done; lia.
    + monad. do 2 eexists. split; [reflexivity|]. rewrite app_nil_r.
      books Hb Hcand.
Qed.

Lemma entry_requests_length entry : (length (entry_requests w entry) <= 2)%nat.
Proof.
  unfold entry_requests, requests.
  destruct (_ || _); [simpl; lia|].
  case_decide; [|simpl; lia].
  destruct (fetched w _); simpl; lia.
Qed.

Lemma requests_bound entries :
  (length (mjoin (entry_requests w <$> entries)) <= 2 * length entries)%nat.
Proof.
  induction entries as [|entry rest IH]; [simpl; lia|].
  rewrite fmap_cons.
  change (mjoin (entry_requests w entry :: (entry_requests w <$> rest)))
    with (entry_requests w entry ++ mjoin (entry_requests w <$> rest)).
  rewrite length_app. cbn [length].
  pose proof (entry_requests_length entry). lia.
Qed.

Lemma loop_books entries s st base :
  balanced base s st ->
  ∃ s' st',
    for_of entries (process_entry w) (s, st) = (Ok tt, (s', st'))
    ∧ balanced base s' st'
    ∧ handled st' = (handled st + length entries)%nat
    ∧ candidates st'
      = (candidates st
         + length (filter (fun entry => disposition_of entry = Some "CANDIDATE") entries))%nat
    ∧ totalFromNASA st' = totalFromNASA st
    ∧ newKOIs st' = newKOIs st
    ∧ trace s' = trace s ++ mjoin (entry_requests w <$> entries)
    ∧ sync_logs s' = sync_logs s
    ∧ scheduler s' = scheduler s.
Proof.
  revert s st. induction entries as [|entry rest IH]; intros s st Hb.
  - exists s, st. simpl. rewrite app_nil_r.
    split; [done|]. split; [exact Hb|]. repeat split; try done; lia.
  - destruct (process_entry_books entry s st base Hb)
      as (s1 & st1 & Hrun & Hb1 & Hh & Hc & Ht & Hn & Htrace & Hlogs & Hsched).
    destruct (IH s1 st1 Hb1)
      as (s' & st' & Hrest & Hb' & Hh' & Hc' & Ht' & Hn' & Htrace' & Hlogs' & Hsched').
    exists s', st'. split; [cbn [for_of]; unfold bind; by rewrite Hrun|].
    split; [done|].
    rewrite filter_cons, fmap_cons.
    change (mjoin (entry_requests w entry :: (entry_requests w <$> rest)))
      with (entry_requests w entry ++ mjoin (entry_requests w <$> rest)).
    cbn [length].
    rewrite Htrace', Htrace, Hlogs', Hsched', <- app_assoc.
    destruct (decide (disposition_of entry = Some "CANDIDATE")); cbn [length] in *;
      repeat split; try done; lia.
Qed.

Lemma opening_balanced s remote new :
  balanced (length (koi_objects s)) (opening_state s) (opening_stats w s remote new).
Proof. unfold balanced, gateway_failures. cbn. repeat split; lia. Qed.

(** What a pass that got through the Differ leaves. *)
Lemma pass_books_run s remote :
  listed w = Ok remote ->
  existing w (koi_objects s) = Ok (names_of (koi_objects s)) ->
  let new := newKepOIEntries remote (names_of (koi_objects s)) in
  ∃ stats s',
    synchronizeKOIData w s = (Ok stats, s')
    ∧ balanced (length (koi_objects s)) s' stats
    ∧ handled stats = length new
    ∧ candidates stats
      = length (filter (fun entry => disposition_of entry = Some "CANDIDATE") new)
    ∧ totalFromNASA stats = length remote
    ∧ newKOIs stats = length new
    ∧ trace s' = trace s ++ GetNames 60000 :: mjoin (entry_requests w <$> new)
    ∧ sync_logs s' = sync_logs s
    ∧ scheduler s' = scheduler s.
Proof.
  intros Hlisted Hexisting new.
  rewrite synchronizeKOIData_eq, Hlisted, Hexisting. cbv zeta. fold new.
  destruct (loop_books new (opening_state s) (opening_stats w s remote new)
              (length (koi_objects s)) (opening_balanced s remote new))
    as (s1 & st1 & Hloop & Hb & Hh & Hc & Ht & Hn & Htrace & Hlogs & Hsched).
  rewrite Hloop. do 2 eexists. split; [reflexivity|].
  unfold balanced, handled, gateway_failures in *.
  cbn in *. rewrite Htrace, <- app_assoc. repeat split; try done; lia.
Qed.

End Books.

(** X1. The statistics a pass returns account for every new entry
    exactly once: the Confirmed records, the FalsePositive records, the
    candidates with another prediction and the errors add up to the
    number of new entries.  Every candidate sent with success was
    classified, as FalsePositive, as Confirmed or with another
    prediction; a candidate is either sent with success or reported by
    one [infer_api_error] detail; and there are as many details as
    errors. *)
Theorem pass_books (w : World) (s : Sys) (stats : Stats) (s' : Sys) :
  synchronizeKOIData w s = (Ok stats, s') ->
  ∃ remote,
    listed w = Ok remote
    ∧ totalFromNASA stats = length remote
    ∧ newKOIs stats = length (newKepOIEntries remote (names_of (koi_objects s)))
    ∧ (confirmed stats + falsePositive stats + candidatesOtherPrediction stats
       + errors stats = newKOIs stats)%nat
    ∧ candidates stats
      = length (filter (fun entry => disposition_of entry = Some "CANDIDATE")
                       (newKepOIEntries remote (names_of (koi_objects s))))
    ∧ candidatesSent stats = candidatesClassifiedByAI stats
    ∧ candidatesSent stats
      = (candidatesSavedAsFalsePositive stats + candidatesSavedAsConfirmed stats
         + candidatesOtherPrediction stats)%nat
    ∧ candidates stats = (candidatesSent stats + gateway_failures stats)%nat
    ∧ errors stats = length (errorDetails stats).
Proof.
  intros Hpass.
  destruct (listed w) as [remote|e] eqn:Hlisted.
  2:{ rewrite synchronizeKOIData_eq, Hlisted in Hpass. discriminate Hpass. }
  destruct (existing w (koi_objects s)) as [names|e] eqn:Hexisting.
  2:{ rewrite synchronizeKOIData_eq, Hlisted, Hexisting in Hpass. discriminate Hpass. }
  pose proof (existing_names _ _ _ Hexisting) as ->.
  destruct (pass_books_run w s remote Hlisted Hexisting)
    as (stats' & s'' & Hrun & Hb & Hh & Hc & Ht & Hn & _).
  rewrite Hrun in Hpass. injection Hpass as -> ->.
  exists remote. destruct Hb as (? & ? & ? & ? & _). unfold handled in Hh.
  repeat split; try done; lia.
Qed.

(** X2. A pass only appends to the store, and what it appends is what
    its statistics count: the documents added are as many as the
    Confirmed and FalsePositive records of the statistics when the pass
    returns, and none when it throws.  It writes no log and leaves the
    scheduler's fields alone. *)
Theorem pass_appends_what_it_counts (w : World) (s : Sys) :
  let r := fst (synchronizeKOIData w s) in
  let s' := snd (synchronizeKOIData w s) in
  (∃ added,
     koi_objects s' = koi_objects s ++ added
     ∧ length added = match r with
                      | Ok stats => (confirmed stats + falsePositive stats)%nat
                      | Throw _ => 0%nat
                      end)
  ∧ sync_logs s' = sync_logs s
  ∧ scheduler s' = scheduler s.
Proof.
  intros r s'. subst r s'.
  destruct (pass_store w s _ _ (surjective_pairing _)) as (added & Hadded & _).
  destruct (listed w) as [remote|e] eqn:Hlisted.
  2:{ rewrite synchronizeKOIData_eq, Hlisted. cbn. split; [|done].
      exists []. by rewrite app_nil_r. }
  destruct (existing w (koi_objects s)) as [names|e] eqn:Hexisting.
  2:{ rewrite synchronizeKOIData_eq, Hlisted, Hexisting. cbn. split; [|done].
      exists []. by rewrite app_nil_r. }
  pose proof (existing_names _ _ _ Hexisting) as ->.
  destruct (pass_books_run w s remote Hlisted Hexisting)
    as (stats & s' & Hrun & Hb & _ & _ & _ & _ & _ & Hlogs & Hsched).
  rewrite Hrun in *. cbn [fst snd] in *. split; [|done].
  exists added. split; [done|].
  destruct Hb as (_ & _ & _ & _ & Hlen). rewrite Hadded, length_app in Hlen. lia.
Qed.

(** X3. The requests of a pass: the projection query, with a timeout
    of 60000 ms, then for each new entry, in the order of the remote
    list, the full record of a decided entry (30000 ms), the full record
    and at most one POST (10000 ms) for a candidate, and nothing for an
    entry of unknown status.  A pass that returns has made at most
    [1 + 2 * newKOIs] requests; one that throws made the first only. *)
Theorem pass_request_trace (w : World) (s : Sys) :
  let r := fst (synchronizeKOIData w s) in
  let s' := snd (synchronizeKOIData w s) in
  trace s' = trace s ++ pass_requests w (koi_objects s)
  ∧ match r with
    | Ok stats => (length (pass_requests w (koi_objects s)) <= 1 + 2 * newKOIs stats)%nat
    | Throw _ => pass_requests w (koi_objects s) = [GetNames 60000]
    end.
Proof.
  intros r s'. subst r s'. unfold pass_requests.
  destruct (listed w) as [remote|e] eqn:Hlisted.
  2:{ rewrite synchronizeKOIData_eq, Hlisted. cbn. done. }
  destruct (existing w (koi_objects s)) as [names|e] eqn:Hexisting.
  2:{ rewrite synchronizeKOIData_eq, Hlisted, Hexisting. cbn. done. }
  pose proof (existing_names _ _ _ Hexisting) as ->.
  destruct (pass_books_run w s remote Hlisted Hexisting)
    as (stats & s' & Hrun & _ & _ & _ & _ & Hn & Htrace & _).
  rewrite Hrun. cbn [fst snd]. split; [done|].
  rewrite Hn. cbn [length].
  pose proof (requests_bound w (newKepOIEntries remote (names_of (koi_objects s)))). lia.
Qed.

(** ** Passes that fail, passes that cannot be logged *)

Section Failures.

Context (w : World).

Lemma synchronizeKOIData_frame s :
  sync_logs (snd (synchronizeKOIData w s)) = sync_logs s
  ∧ scheduler (snd (synchronizeKOIData w s)) = scheduler s.
Proof.
  destruct (listed w) as [remote|e] eqn:Hlisted.
  2:{ by rewrite synchronizeKOIData_eq, Hlisted. }
  destruct (existing w (koi_objects s)) as [names|e] eqn:Hexisting.
  2:{ by rewrite synchronizeKOIData_eq, Hlisted, Hexisting. }
  pose proof (existing_names _ _ _ Hexisting) as ->.
  destruct (pass_books_run w s remote Hlisted Hexisting)
    as (stats & s' & Hrun & _ & _ & _ & _ & _ & _ & Hlogs & Hsched).
  by rewrite Hrun.
Qed.

(** The state in which the [catch] block of [executeSyncTask] leaves a
    pass that threw, before the [finally] block. *)
Lemma pass_throws s e s2 :
  synchronizeKOIData w s = (Throw e, s2) ->
  ∃ s3,
    pass w s = (Throw e, s3)
    ∧ koi_objects s3 = koi_objects s
    ∧ scheduler s3 = scheduler s
    ∧ trace s3 = trace s ++ [GetNames 60000]
    ∧ (sync_logs s3 = sync_logs s
       ∨ ∃ t, sync_logs s3
              = sync_logs s
                ++ [LogError (default 0%Z (lastRun (scheduler s))) (Js.message e)
                             (clock w (ticks s2) - default 0%Z (lastRun (scheduler s))) t]).
Proof.
  intros Hsync.
  destruct (synchronizeKOIData_throws _ _ _ _ Hsync) as (_ & Hstore & Htrace).
  pose proof (synchronizeKOIData_frame s) as [Hlogs Hsched]. rewrite Hsync in Hlogs, Hsched.
  cbn [snd] in Hlogs, Hsched.
  unfold pass, try_catch at 1, bind at 1. rewrite Hsync.
  unfold bind at 1, get at 1. unfold bind at 1, now at 1.
  unfold bind at 1, try_catch at 1.
  rewrite Hsched.
  destruct (saveSyncStats_cases w
              (LogError (default 0%Z (lastRun (scheduler s))) (Js.message e)
                        (clock w (ticks s2) - default 0%Z (lastRun (scheduler s))))
              (set_ticks S s2))
    as (s3 & -> & Hstore3 & Hsched3 & Htrace3 & Hlogs3).
  exists s3. split; [done|].
  rewrite Hstore3, Hsched3, Htrace3. cbn [koi_objects scheduler trace set_ticks].
  split; [done|]. split; [done|]. split; [done|].
  cbn [sync_logs set_ticks] in Hlogs3. rewrite Hlogs in Hlogs3. exact Hlogs3.
Qed.

End Failures.

(** X4. When the pass that [runSyncNow] starts throws (the remote
    list could not be fetched, or the stored identities could not be
    read), [runSyncNow] throws the same error after the one request of
    the pass; the store is as it was, the flag is back to [false],
    [lastRun] is the time the pass began and [nextRun] is not touched;
    the log gains at most one document, which carries the message of
    the error; and the route answers 500 Internal Server Error, unless
    the message contains [already in progress]. *)
Theorem failed_pass_reported (w : World) (s : Sys) (e : Js.Error) :
  isRunning (scheduler s) = false ->
  fst (synchronizeKOIData w (snd (begin w s))) = Throw e ->
  ∃ s',
    runSyncNow w s = (Throw e, s')
    ∧ koi_objects s' = koi_objects s
    ∧ trace s' = trace s ++ [GetNames 60000]
    ∧ isRunning (scheduler s') = false
    ∧ lastRun (scheduler s') = Some (clock w (ticks s))
    ∧ nextRun (scheduler s') = nextRun (scheduler s)
    ∧ (sync_logs s' = sync_logs s
       ∨ ∃ d t, sync_logs s'
                = sync_logs s ++ [LogError (clock w (ticks s)) (Js.message e) d t])
    ∧ ∃ reply,
        Route.post_run w s = (Ok reply, s')
        ∧ Route.reply_data reply = None
        ∧ if Js.includes (Js.message e) "already in progress"
          then Route.statusCode reply = 409%Z
          else Route.statusCode reply = 500%Z
               ∧ Route.reply_error reply = Some "Internal Server Error"
               ∧ Route.reply_message reply = "Error during synchronization".
Proof.
  intros Hidle Hthrows.
  destruct (synchronizeKOIData w (snd (begin w s))) as [r s2] eqn:Hsync.
  cbn [fst] in Hthrows. subst r.
  destruct (pass_throws w _ _ _ Hsync) as (s3 & Hpass & Hstore & Hsched & Htrace & Hlogs).
  assert (runSyncNow w s = (Throw e, release s3)) as Hrun.
  { rewrite (runSyncNow_idle _ _ Hidle). unfold finish, try_finally. by rewrite Hpass. }
  exists (release s3). split; [done|].
  unfold release. cbn [koi_objects trace scheduler sync_logs set_scheduler
                        isRunning lastRun nextRun set_isRunning].
  rewrite Hstore, Htrace, Hsched.
  split; [done|]. split; [done|]. split; [done|]. split; [done|]. split; [done|].
  split.
  - destruct Hlogs as [Hlogs|(t & Hlogs)]; [by left|right].
    rewrite Hlogs. by do 2 eexists.
  - unfold Route.post_run, try_catch, bind. rewrite Hrun.
    eexists. split; [reflexivity|]. cbn. split; [done|].
    by destruct (Js.includes (Js.message e) "already in progress").
Qed.

(** X5. As long as the connection to the database is not initialised,
    every pass fails: it queries the remote list, then throws (the error
    of the remote query when that failed, [Database not initialized.
    Call connectToDatabase first.] otherwise); nothing is stored and,
    the log being out of reach too, nothing is logged. *)
Theorem pass_without_database (w : World) (s : Sys) :
  db_ready w = false ->
  isRunning (scheduler s) = false ->
  ∃ e s',
    runSyncNow w s = (Throw e, s')
    ∧ match listed w with
      | Ok _ => e = Js.new_Error "Database not initialized. Call connectToDatabase first."
      | Throw e' => e = e'
      end
    ∧ koi_objects s' = koi_objects s
    ∧ sync_logs s' = sync_logs s
    ∧ trace s' = trace s ++ [GetNames 60000]
    ∧ isRunning (scheduler s') = false.
Proof.
  intros Hready Hidle.
  set (e := match listed w with
            | Ok _ => Js.new_Error "Database not initialized. Call connectToDatabase first."
            | Throw e' => e'
            end).
  assert (∃ s2, synchronizeKOIData w (snd (begin w s)) = (Throw e, s2)) as (s2 & Hsync).
  { rewrite synchronizeKOIData_eq. subst e. unfold existing. rewrite Hready.
    destruct (listed w); by eexists. }
  exists e.
  unfold runSyncNow, executeSyncTask, bind at 1, get at 1. rewrite Hidle.
  unfold bind at 1, get at 1. rewrite Hidle.
  unfold bind at 1. destruct (begin w s) as [[[]|?] s1] eqn:Hbegin; [|done].
  cbn [snd] in Hsync.
  assert (koi_objects s1 = koi_objects s ∧ sync_logs s1 = sync_logs s ∧ trace s1 = trace s)
    as (Hstore1 & Hlogs1 & Htrace1).
  { revert Hbegin. unfold begin. monad. by intros [= <-]. }
  destruct (synchronizeKOIData_throws _ _ _ _ Hsync) as (_ & Hstore & Htrace).
  pose proof (synchronizeKOIData_frame w s1) as [Hlogs Hsched]. rewrite Hsync in Hlogs, Hsched.
  cbn [snd] in Hlogs, Hsched.
  unfold finish, try_finally, pass, try_catch at 1, bind at 1. rewrite Hsync.
  unfold bind at 1, get at 1. unfold bind at 1, now at 1.
  unfold bind at 1, try_catch at 1, saveSyncStats, try_catch, bind, getDatabase.
  rewrite Hready. unfold throw, ret, release.
  eexists. split; [reflexivity|].
  cbn [koi_objects sync_logs trace scheduler set_scheduler set_ticks isRunning set_isRunning].
  subst e. rewrite Hstore, Hstore1, Hlogs, Hlogs1, Htrace, Htrace1.
  split; [by destruct (listed w)|done].
Qed.
Section Logging.

Context (w : World).

Lemma saveSyncStats_eq entry s :
  saveSyncStats w entry s
  = (Ok tt,
     if db_ready w then
       match db_fault w (InsertOneLog (entry (clock w (ticks s)))) with
       | Some _ => set_ticks S s
       | None => set_sync_logs (fun logs => logs ++ [entry (clock w (ticks s))]) (set_ticks S s)
       end
     else s).
Proof.
  unfold saveSyncStats. monad.
  destruct (db_ready w); simpl; [|done]. by destruct (db_fault w _).
Qed.

End Logging.

(** X6. [saveSyncStats] never throws, so a pass that returned is never
    turned into a failure by its log: [runSyncNow] returns the
    statistics of the pass and the route answers 200 with them, whether
    the log document could be written or not.  The log gains the
    statistics when the insertion succeeds and nothing when it fails;
    the flag is back to [false]; and [nextRun] is recomputed, to [null]
    when no task is scheduled. *)
Theorem pass_outlives_its_log (w : World) (s : Sys) (stats : Stats) :
  isRunning (scheduler s) = false ->
  fst (synchronizeKOIData w (snd (begin w s))) = Ok stats ->
  ∃ s' t,
    runSyncNow w s = (Ok (Some stats), s')
    ∧ koi_objects s' = koi_objects (snd (synchronizeKOIData w (snd (begin w s))))
    ∧ sync_logs s'
      = (if db_fault w (InsertOneLog (LogStats stats t)) is Some _ then sync_logs s
         else sync_logs s ++ [LogStats stats t])
    ∧ isRunning (scheduler s') = false
    ∧ (syncTask (scheduler s) = false -> nextRun (scheduler s') = None)
    ∧ ∃ reply,
        Route.post_run w s = (Ok reply, s')
        ∧ Route.statusCode reply = 200%Z
        ∧ Route.reply_data reply = Some (Some stats).
Proof.
  intros Hidle Hreturns.
  destruct (synchronizeKOIData w (snd (begin w s))) as [r s2] eqn:Hsync.
  cbn [fst snd] in *. subst r.
  pose proof (synchronizeKOIData_frame w (snd (begin w s))) as [Hlogs Hsched].
  rewrite Hsync in Hlogs, Hsched. cbn [snd] in Hlogs, Hsched.
  assert (db_ready w = true) as Hready.
  { destruct (db_ready w) eqn:Hready; [done|].
    rewrite synchronizeKOIData_eq in Hsync. unfold existing in Hsync. rewrite Hready in Hsync.
    by destruct (listed w). }
  assert (sync_logs (snd (begin w s)) = sync_logs s
          ∧ syncTask (scheduler (snd (begin w s))) = syncTask (scheduler s)) as [Hlogs1 Htask1].
  { done. }
  set (t := clock w (ticks s2)).
  assert (∃ s', runSyncNow w s = (Ok (Some stats), s')
                ∧ koi_objects s' = koi_objects s2
                ∧ sync_logs s'
                  = (if db_fault w (InsertOneLog (LogStats stats t)) is Some _ then sync_logs s
                     else sync_logs s ++ [LogStats stats t])
                ∧ isRunning (scheduler s') = false
                ∧ (syncTask (scheduler s) = false -> nextRun (scheduler s') = None))
    as (s' & Hrun & Hstore & Hlog & Hflag & Hnext).
  { rewrite (runSyncNow_idle _ _ Hidle).
    unfold finish, try_finally, pass, try_catch at 1, bind at 1. rewrite Hsync.
    unfold bind at 1. rewrite saveSyncStats_eq, Hready. fold t.
    unfold bind at 1, updateNextRunTime, bind at 1, get at 1.
    destruct (db_fault w (InsertOneLog (LogStats stats t)));
      cbn [scheduler set_ticks set_sync_logs]; rewrite Hsched, Htask1;
      destruct (syncTask (scheduler s)); monad;
      (eexists; split; [reflexivity|]);
      cbn [koi_objects sync_logs scheduler release set_scheduler set_ticks set_sync_logs
           isRunning nextRun set_isRunning set_nextRun];
      rewrite ?Hlogs, ?Hlogs1; done. }
  exists s', t. split; [done|]. split; [done|]. split; [done|]. split; [done|].
  split; [done|].
  unfold Route.post_run, try_catch, bind. rewrite Hrun. by eexists.
Qed.
(** ** The Gateway when the record or the store fails *)

(** X23. When the full record of a candidate cannot be fetched, the
    Gateway sends nothing to the classifier and returns a failure, the
    store untouched.  The error is worded as for the classifier's own
    failures: [Timeout 10s exceeded] when the fetch timed out (although
    its timeout is 30000 ms), [HTTP <status>: <text>] when the remote
    service answered outside 2xx, [Connection error: <message>]
    otherwise, as when the remote service has no row for the identity. *)
Theorem gateway_reports_fetch_failure (w : World) (name : string) (s : Sys) (e : Js.Error) :
  fetched w name = Throw e ->
  ∃ r s',
    sendCandidateToInferAPI w name s = (Ok r, s')
    ∧ success r = false
    ∧ koi_objects s' = koi_objects s
    ∧ trace s' = trace s ++ [GetComplete name 30000]
    ∧ (timed_out e -> ir_error r = Some "Timeout 10s exceeded" ∧ ir_status r = None)
    ∧ (¬ timed_out e -> ∀ status text, Js.response e = Some (status, text) ->
       ir_status r = Some status
       ∧ ir_error r = Some ("HTTP " +:+ pretty status +:+ ": " +:+ text))
    ∧ (¬ timed_out e -> Js.response e = None ->
       ir_status r = None
       ∧ ir_error r = Some ("Connection error: " +:+ Js.message e)).
Proof.
  intros Hfetch.
  destruct (gateway_returns w name s) as (r & s' & Hrun).
  exists r, s'. split; [done|].
  pose proof (gateway_requests w _ _ _ _ Hrun) as Htrace.
  unfold requests in Htrace. rewrite Hfetch in Htrace.
  revert Hrun. gateway_paths w name; intros [= <- <-]; agree; simpl;
    (split; [done|]); (split; [done|]); (split; [done|]).
  - apply timed_out_test in Htimeout. repeat split; intros; done.
  - apply not_true_iff_false in Htimeout. rewrite timed_out_test in Htimeout.
    repeat split; intros; simplify_eq; done.
  - apply not_true_iff_false in Htimeout. rewrite timed_out_test in Htimeout.
    repeat split; intros; simplify_eq; done.
Qed.

(** X24. A verdict that cannot be saved is a failure of the Gateway:
    when the classifier answers 200 with the label FALSE POSITIVE or
    CONFIRMED and the insertion of the classified record fails, the
    Gateway returns [success = false] with the status 200 and the error
    [Save error: <message>] (respectively [Save error (CONFIRMED):
    <message>]), and the store is as it was. *)
Theorem gateway_reports_save_failure
    (w : World) (name : string) (s : Sys) (row : KOI) (statusText : string)
    (body : InferResponse) :
  fetched w name = Ok row ->
  infer_api w (inferData_of row name) = Resolved 200 statusText (Some body) ->
  (db_ready w = false ∨ ∀ doc, is_Some (db_fault w (InsertOneKOI doc))) ->
  ∃ r s',
    sendCandidateToInferAPI w name s = (Ok r, s')
    ∧ koi_objects s' = koi_objects s
    ∧ (Js.toUpperCase <$> prediction body = Some "FALSE POSITIVE" ->
       success r = false ∧ ir_status r = Some 200%Z
       ∧ ∃ message, ir_error r = Some ("Save error: " +:+ message))
    ∧ (Js.toUpperCase <$> prediction body = Some "CONFIRMED" ->
       success r = false ∧ ir_status r = Some 200%Z
       ∧ ∃ message, ir_error r = Some ("Save error (CONFIRMED): " +:+ message)).
Proof.
  intros Hrow Hanswer Hstore.
  assert (∀ doc, db_ready w = true -> db_fault w (InsertOneKOI doc) = None -> False) as Hno.
  { intros doc Hready Hnone. destruct Hstore as [Hdown|Hfaults]; [congruence|].
    destruct (Hfaults doc) as [? ?]. congruence. }
  destruct (gateway_returns w name s) as (r & s' & Hrun).
  exists r, s'. split; [done|].
  revert Hrun. gateway_paths w name; intros [= <- <-]; agree;
    try (exfalso; by eapply Hno); simpl in *;
    (split; [done|]); split; intros Hlabel; try congruence; eauto.
Qed.

Lemma INFER_FIELDS_NoDup : NoDup (INFER_FIELDS ++ ["kepoi_name"]).
Proof.
  assert (bool_decide (NoDup (INFER_FIELDS ++ ["kepoi_name"])) = true) as Hdec
    by (vm_compute; reflexivity).
  by apply bool_decide_eq_true in Hdec.
Qed.

Lemma omap_fields_keys (columns : gmap string Js.Val) (fields : list string) :
  (omap (fun field => (fun v => (field, v)) <$> columns !! field) fields).*1
  `sublist_of` fields.
Proof.
  induction fields as [|field fields IH]; [done|]. cbn [omap list_omap].
  destruct (columns !! field); cbn; by constructor.
Qed.

(** X25. The body the Gateway posts holds only what the classifier
    needs: the fields of [INFER_FIELDS] that the record owns, each with
    the value the record has for it, in the order of [INFER_FIELDS],
    followed by [kepoi_name], the identity asked for.  No field occurs
    twice and the body has at most 19 fields. *)
Theorem infer_body_fields (row : KOI) (name : string) :
  let body := inferData_of row name in
  (∀ field value,
     (field, value) ∈ body
     <-> (field ∈ INFER_FIELDS ∧ columns row !! field = Some value)
         ∨ (field = "kepoi_name" ∧ value = Js.Str name))
  ∧ body.*1 `sublist_of` INFER_FIELDS ++ ["kepoi_name"]
  ∧ NoDup body.*1
  ∧ (length body <= 19)%nat
  ∧ last body = Some ("kepoi_name", Js.Str name).
Proof.
  cbv zeta. unfold inferData_of.
  assert ((omap (fun field => (fun v => (field, v)) <$> columns row !! field) INFER_FIELDS
           ++ [("kepoi_name", Js.Str name)]).*1
          `sublist_of` INFER_FIELDS ++ ["kepoi_name"]) as Hsub.
  { rewrite fmap_app. apply sublist_app; [apply omap_fields_keys|done]. }
  split; [|split; [done|split; [|split]]].
  - intros field value. rewrite elem_of_app, list_elem_of_omap, list_elem_of_singleton.
    split.
    + intros [(f & Hf & Hv)|[= -> ->]]; [left|by right].
      destruct (columns row !! f) as [v|] eqn:Hlookup; [|done].
      injection Hv as <- <-. done.
    + intros [[Hf Hv]|[-> ->]]; [left|by right].
      exists field. split; [done|]. by rewrite Hv.
  - eapply sublist_NoDup; [apply INFER_FIELDS_NoDup|exact Hsub].
  - apply sublist_length in Hsub. rewrite length_fmap in Hsub.
    etrans; [exact Hsub|]. by vm_compute. 
  - by rewrite last_snoc.
Qed.

Section Stamps.

Context (w : World).

Lemma stamp_stamped doc t : stamped (stamp doc t).
Proof. unfold stamped, stamp. cbn. eauto. Qed.

Lemma step_stamped entry s st s' st' :
  Step w entry s st s' st' ->
  ∃ added, koi_objects s' = koi_objects s ++ added ∧ Forall stamped added.
Proof.
  intros [row t _ _ Hstore _ _|error _ _ Hstore _|r _ Hsend _|detail _ _ -> _ _ _].
  - exists [stamp row t]. split; [done|]. repeat constructor; apply stamp_stamped.
  - exists []. by rewrite app_nil_r.
  - destruct (gateway_outcome w _ _ _ _ Hsend)
      as [error _ _ Hstore|_ _ Hstore|row statusText body date t _ _ _ _ _ Hstore
         |row statusText body date t _ _ _ _ _ _ Hstore].
    + exists []. by rewrite app_nil_r.
    + exists []. by rewrite app_nil_r.
    + eexists [_]. split; [done|]. repeat constructor; apply stamp_stamped.
    + eexists [_]. split; [done|]. repeat constructor; apply stamp_stamped.
  - exists []. by rewrite app_nil_r.
Qed.

Lemma steps_stamped entries s st s' st' :
  Steps w entries s st s' st' ->
  ∃ added, koi_objects s' = koi_objects s ++ added ∧ Forall stamped added.
Proof.
  induction 1 as [s st|entry rest s st s1 st1 s' st' Hstep _ (added & Hadded & Hall)].
  - exists []. by rewrite app_nil_r.
  - destruct (step_stamped _ _ _ _ _ Hstep) as (first & Hfirst & Hall1).
    exists (first ++ added). rewrite Hadded, Hfirst, <- app_assoc. split; [done|].
    by apply Forall_app.
Qed.

End Stamps.

(** X26. Every document a pass writes to the store carries the
    synchronization metadata: [sync_source] is [nasa_tap],
    [sync_version] is [1.0] and [sync_date] is set; this holds for the
    records copied from the remote catalogue and for the candidates the
    classifier decided alike. *)
Theorem stored_records_are_stamped (w : World) (s : Sys) :
  ∃ added,
    koi_objects (snd (synchronizeKOIData w s)) = koi_objects s ++ added
    ∧ Forall stamped added.
Proof.
  rewrite synchronizeKOIData_eq.
  destruct (listed w) as [remote|e] eqn:Hlisted.
  2:{ exists []. by rewrite app_nil_r. }
  destruct (existing w (koi_objects s)) as [names|e] eqn:Hexisting.
  2:{ exists []. by rewrite app_nil_r. }
  cbv zeta.
  destruct (loop_steps w (newKepOIEntries remote names) (opening_state s)
              (opening_stats w s remote (newKepOIEntries remote names)))
    as (s1 & st1 & Hloop & Hsteps).
  rewrite Hloop. by apply steps_stamped in Hsteps.
Qed.
(** ** Names the Allocator composes *)

Lemma letter_classes l :
  Js.is_letter l = true ->
  Js.is_space l = false ∧ Js.is_digit l = false.
Proof.
  unfold Js.is_letter, Js.is_space, Js.is_digit, Js.is_lower, Js.is_upper.
  intros [[H1%N.leb_le H2%N.leb_le]%andb_true_iff|[H1%N.leb_le H2%N.leb_le]%andb_true_iff]%orb_true_iff.
  all: split; [apply orb_false_iff; split; [apply andb_false_iff; right; apply N.leb_gt; lia
                                           |apply N.eqb_neq; lia]
              |apply andb_false_iff; right; apply N.leb_gt; lia].
Qed.

Lemma kepler_read (n : N) (l : ascii) :
  Js.is_letter l = true ->
  match_number_here (kepler n l) = Some (pretty n)
  ∧ extractKeplerNumber (Some (kepler n l)) = Some n
  ∧ extractKeplerLetter (Some (kepler n l)) = Some (Js.lower_char l).
Proof.
  intros Hl. destruct (letter_classes l Hl) as [Hspace Hdigit].
  destruct (pretty_digits n) as (Hall & Hnonempty & Hparse).
  assert (Js.span Js.is_digit (pretty n +:+ " " +:+ String l "")
          = (pretty n, " " +:+ String l "")) as Hspan by (by apply span_digits).
  assert (Js.strip_prefix_ci "Kepler-" (kepler n l)
          = Some (pretty n +:+ " " +:+ String l "")) as Hprefix by reflexivity.
  assert (match_number_here (kepler n l) = Some (pretty n)) as Hnumber.
  { unfold match_number_here. rewrite Hprefix, Hspan. by case_decide. }
  assert (match_letter_here (kepler n l) = Some l) as Hletter.
  { unfold match_letter_here. rewrite Hprefix, Hspan.
    change (" " +:+ String l "") with (String " " (String l "")).
    cbn [Js.span]. change (Js.is_space " ") with true. cbn iota.
    rewrite Hspace. cbn iota. rewrite Hl.
    rewrite bool_decide_eq_false_2 by done. done. }
  split; [done|]. split.
  - unfold extractKeplerNumber.
    change (Js.truthy_str (Some (kepler n l))) with true. cbn [negb].
    change (default "" (Some (kepler n l))) with (kepler n l).
    by rewrite (search_here _ _ _ Hnumber), Hparse.
  - unfold extractKeplerLetter.
    change (Js.truthy_str (Some (kepler n l))) with true. cbn [negb].
    change (default "" (Some (kepler n l))) with (kepler n l).
    by rewrite (search_here _ _ _ Hletter).
Qed.

(** X7. The name the Allocator composes from a label that is a safe
    integer and a letter is read back by its own parsers:
    [extractKeplerNumber] returns the label and [extractKeplerLetter]
    the letter, in lower case. *)
Theorem kepler_name_round_trip (n : N) (l : ascii) :
  (n <= Js.MAX_SAFE_INTEGER)%N ->
  Js.is_letter l = true ->
  extractKeplerNumber (Some (kepler n l)) = Some n
  ∧ extractKeplerLetter (Some (kepler n l)) = Some (Js.lower_char l).
Proof. intros _ Hl. by destruct (kepler_read n l Hl) as (_ & ? & ?). Qed.







(** X9. [generateKeplerName] always returns a name and leaves the
    process state as it was: its two queries swallow their errors, so
    its fallback on the time stamp is never used.  When the store
    cannot be read (the connection is not initialised, or both queries
    fail) the name is [Kepler-1 b], whatever the identity and whatever
    the store holds. *)
Theorem allocator_without_store (w : World) (kepoi_name : string) (s : Sys) :
  ∃ name,
    generateKeplerName w kepoi_name s = (Ok name, s)
    ∧ (db_ready w = false
       ∨ (is_Some (db_fault w (FindSimilar (extractKOIBase kepoi_name)))
          ∧ is_Some (db_fault w FindLast)) ->
       name = "Kepler-1 b").
Proof.
  rewrite generateKeplerName_eq. eexists. split; [done|].
  unfold allocated, similar_found, last_found.
  intros [->|[[e1 ->] [e2 ->]]]; [done|].
  by destruct (db_ready w).
Qed.

Lemma before_char_base base rest :
  alphanumeric base = true ->
  Js.before_char "." (base +:+ "." +:+ rest) = base.
Proof.
  induction base as [|c base IH]; intros Hbase.
  - reflexivity.
  - cbn [alphanumeric] in Hbase. apply andb_true_iff in Hbase as [Hc Hbase].
    change (String c base +:+ "." +:+ rest) with (String c (base +:+ "." +:+ rest)).
    cbn [Js.before_char].
    assert (Ascii.eqb c "." = false) as ->.
    { apply Ascii.eqb_neq. intros ->. done. }
    by rewrite IH.
Qed.

Lemma strip_prefix_ci_base base base' rest :
  Js.toLowerCase base' = Js.toLowerCase base ->
  Js.strip_prefix_ci (base +:+ ".") (base' +:+ "." +:+ rest) = Some rest.
Proof.
  revert base'. induction base as [|c base IH]; intros [|c' base'] Hsame; try done.
  injection Hsame as Hc Hsame.
  change (String c base +:+ ".") with (String c (base +:+ ".")).
  change (String c' base' +:+ "." +:+ rest) with (String c' (base' +:+ "." +:+ rest)).
  cbn [Js.strip_prefix_ci]. rewrite Hc, Ascii.eqb_refl. by apply IH.
Qed.

(** X10. The group base and the query for similar records agree: for
    a base made of letters and digits, [extractKOIBase] returns the
    base of every identity [<base>.<suffix>], and the query of
    [findSimilarKOIs] for that base selects every record whose identity
    is the base, in upper or lower case, followed by a dot. *)
Theorem same_base_is_similar (base base' suffix other : string) (koi : KOI) :
  alphanumeric base = true ->
  base ≠ "" ->
  Js.toLowerCase base' = Js.toLowerCase base ->
  kepoi_name koi = Some (base' +:+ "." +:+ other) ->
  extractKOIBase (base +:+ "." +:+ suffix) = base
  ∧ similar_to (extractKOIBase (base +:+ "." +:+ suffix)) koi = true.
Proof.
  intros Hbase Hnonempty Hsame Hname.
  assert (extractKOIBase (base +:+ "." +:+ suffix) = base) as ->.
  { unfold extractKOIBase. destruct base as [|c base]; [done|].
    change (Js.truthy_str (Some (String c base +:+ "." +:+ suffix))) with true.
    cbn [negb]. by apply before_char_base. }
  split; [done|]. unfold similar_to. rewrite Hname.
  by rewrite strip_prefix_ci_base.
Qed.
(** ** The connection to the database *)

Section Connection.

Import Database.

Ltac db_monad :=
  unfold connectToDatabase, getDatabase, closeDatabase, call, connects;
  unfold bind, try_catch, ret, throw, get, modify; cbn.

(** Once [client] is assigned, no operation constructs or connects a
    client, or assigns [db]. *)
Lemma perform_assigned v op :
  client v = true ->
  client (perform v op) = true
  ∧ db (perform v op) = db v
  ∧ connects (perform v op) = connects v.
Proof.
  intros Hclient. destruct op as [d| |d]; cbn [perform].
  - db_monad. rewrite Hclient. cbn. split; [exact Hclient|]. split; reflexivity.
  - db_monad. destruct (db v) eqn:Hdb; cbn; (split; [exact Hclient|split; [exact Hdb|reflexivity]]).
  - db_monad. rewrite Hclient. cbn.
    destruct (close_fault d); cbn; rewrite filter_app, length_app; cbn;
      rewrite decide_False by done; cbn; (split; [done|split; [done|lia]]).
Qed.

Lemma after_assigned ops v :
  client v = true ->
  client (after ops v) = true
  ∧ db (after ops v) = db v
  ∧ connects (after ops v) = connects v.
Proof.
  revert v. induction ops as [|op ops IH]; intros v Hclient; [done|].
  cbn [after foldl]. destruct (perform_assigned v op Hclient) as (H1 & H2 & H3).
  destruct (IH _ H1) as (? & ? & ?). unfold after in *. split; [done|]. split; congruence.
Qed.

Lemma perform_unconnected v op :
  unconnected v ->
  unconnected (perform v op)
  ∨ (client (perform v op) = true
     ∧ connects (perform v op) = 1%nat
     ∧ (db (perform v op) = None ∨ db (perform v op) = Some "kepler_database")).
Proof.
  intros (Hclient & Hdb & Hconnects). destruct op as [d| |d]; cbn [perform].
  - unfold connects in *. db_monad. rewrite Hclient. cbn.
    destruct (construct_fault d); cbn.
    + left. unfold unconnected, connects. cbn. rewrite filter_app, length_app, Hconnects. cbn.
      by rewrite decide_False.
    + right. destruct (connect_fault d); cbn;
        rewrite <- app_assoc, filter_app, length_app, Hconnects; cbn;
        rewrite decide_False, decide_True by done; eauto.
  - left. db_monad. rewrite Hdb. by cbn.
  - left. db_monad. rewrite Hclient. by cbn.
Qed.

End Connection.

(** X11. Whatever sequence of [connectToDatabase], [getDatabase] and
    [closeDatabase] calls the module receives, and whatever the driver
    answers, [client.connect()] is called at most once in the life of
    the process; and [db], when assigned, is the handle of
    [kepler_database] of a client that was constructed. *)
Theorem connects_at_most_once (ops : list Database.Op) :
  let v := Database.after ops Database.initial in
  (Database.connects v <= 1)%nat
  ∧ (is_Some (Database.db v) ->
     Database.client v = true ∧ Database.db v = Some "kepler_database").
Proof.
  cbv zeta.
  assert (∀ v, unconnected v ->
               unconnected (Database.after ops v)
               ∨ (Database.client (Database.after ops v) = true
                  ∧ Database.connects (Database.after ops v) = 1%nat
                  ∧ (Database.db (Database.after ops v) = None
                     ∨ Database.db (Database.after ops v) = Some "kepler_database")))
    as Hinv.
  { induction ops as [|op ops IH]; intros v Hunconnected; [by left|].
    change (Database.after (op :: ops) v) with (Database.after ops (Database.perform v op)).
    destruct (perform_unconnected v op Hunconnected) as [Hunconnected'|(Hclient & Hconnects & Hdb)].
    - by apply IH.
    - right. destruct (after_assigned ops _ Hclient) as (-> & -> & ->). done. }
  destruct (Hinv Database.initial) as [(Hclient & Hdb & Hconnects)|(Hclient & Hconnects & Hdb)].
  - done.
  - rewrite Hconnects, Hdb. split; [lia|]. by intros [? [=]].
  - rewrite Hconnects. split; [lia|]. intros [h Hh]. split; [done|].
    destruct Hdb as [Hdb|Hdb]; congruence.
Qed.

(** X12. A connection that failed is never attempted again.  When
    [client.connect()] rejects during the first [connectToDatabase],
    that call throws the error; from then on, whatever operations
    follow and whatever the driver would answer, [connectToDatabase]
    resolves to [undefined] without calling the driver, and
    [getDatabase] throws [Database not initialized. Call
    connectToDatabase first.]. *)
Theorem failed_connection_is_final
    (d : Database.Driver) (e : Js.Error) (v : Database.Vars) (ops : list Database.Op) :
  Database.client v = false ->
  Database.db v = None ->
  Database.construct_fault d = None ->
  Database.connect_fault d = Some e ->
  let v' := Database.after ops (snd (Database.connectToDatabase d v)) in
  fst (Database.connectToDatabase d v) = Throw e
  ∧ (∀ d', Database.connectToDatabase d' v' = (Ok None, v'))
  ∧ Database.getDatabase v'
    = (Throw (Js.new_Error "Database not initialized. Call connectToDatabase first."), v')
  ∧ Database.connects v' = S (Database.connects v).
Proof.
  intros Hclient Hdb Hconstruct Hconnect v'.
  assert (fst (Database.connectToDatabase d v) = Throw e
          ∧ Database.client (snd (Database.connectToDatabase d v)) = true
          ∧ Database.db (snd (Database.connectToDatabase d v)) = None
          ∧ Database.connects (snd (Database.connectToDatabase d v))
            = S (Database.connects v)) as (Hthrows & Hclient1 & Hdb1 & Hconnects1).
  { unfold Database.connectToDatabase, Database.call, Database.connects.
    unfold bind, try_catch, ret, throw, get, modify. cbn.
    rewrite Hclient, Hconstruct, Hconnect. cbn.
    rewrite <- app_assoc, filter_app, length_app. cbn.
    rewrite decide_False, decide_True by done. cbn. repeat split; try done. lia. }
  destruct (after_assigned ops _ Hclient1) as (Hclient' & Hdb' & Hconnects').
  fold v' in Hclient', Hdb', Hconnects'.
  split; [done|]. split; [|split].
  - intros d'. unfold Database.connectToDatabase.
    unfold bind, try_catch, ret, throw, get, modify. cbn.
    rewrite Hclient'. cbn. by rewrite Hdb', Hdb1.
  - unfold Database.getDatabase, bind, get, throw. by rewrite Hdb', Hdb1.
  - by rewrite Hconnects', Hconnects1.
Qed.

(** X13. [closeDatabase] closes the client and forgets nothing: once
    a connection succeeded, whatever operations follow (closing
    included), [db] keeps its handle, [getDatabase] returns it instead
    of throwing, and [connectToDatabase] returns it without connecting
    again. *)
Theorem handle_survives_close
    (v : Database.Vars) (h : string) (ops : list Database.Op) :
  Database.client v = true ->
  Database.db v = Some h ->
  let v' := Database.after ops v in
  Database.getDatabase v' = (Ok h, v')
  ∧ (∀ d, Database.connectToDatabase d v' = (Ok (Some h), v'))
  ∧ Database.connects v' = Database.connects v.
Proof.
  intros Hclient Hdb v'.
  destruct (after_assigned ops _ Hclient) as (Hclient' & Hdb' & Hconnects').
  fold v' in Hclient', Hdb', Hconnects'.
  split; [|split; [|done]].
  - unfold Database.getDatabase, bind, get, ret. by rewrite Hdb', Hdb.
  - intros d. unfold Database.connectToDatabase.
    unfold bind, try_catch, ret, throw, get, modify. cbn.
    rewrite Hclient'. cbn. by rewrite Hdb', Hdb.
Qed.
(** ** The next run *)

(** The arithmetic of lines 124 to 133 on a local time value. *)
Lemma nextSunday_first (now : Z) :
  let next := Calendar.nextSunday now in
  Calendar.getDay next = 0%Z
  ∧ Calendar.TimeWithinDay next = (2 * Calendar.msPerHour)%Z
  ∧ (now < next <= now + 7 * Calendar.msPerDay)%Z
  ∧ ∀ t, (now < t)%Z ->
         Calendar.getDay t = 0%Z ->
         Calendar.TimeWithinDay t = (2 * Calendar.msPerHour)%Z ->
         (next <= t)%Z.
Proof.
  cbv zeta.
  unfold Calendar.nextSunday, Calendar.setHours, Calendar.addDate, Calendar.getDay,
    Calendar.getHours, Calendar.Day, Calendar.TimeWithinDay, Calendar.msPerDay,
    Calendar.msPerHour.
  set (d := (now / 86400000)%Z). set (m := (now mod 86400000)%Z).
  assert (now = d * 86400000 + m)%Z as Hnow
    by (subst d m; rewrite Z.mul_comm; apply Z.div_mod; lia).
  assert (0 <= m < 86400000)%Z as Hm by (subst m; apply Z.mod_pos_bound; lia).
  clearbody d m.
  assert (∀ k, ((k * 86400000 + m) / 86400000 = k)%Z) as Hday.
  { intros k. rewrite Z.div_add_l by lia. rewrite Z.div_small by lia. lia. }
  assert ((now / 3600000) mod 24 = m / 3600000)%Z as Hhours.
  { rewrite Hnow. replace (d * 86400000 + m)%Z with (m + (d * 24) * 3600000)%Z by lia.
    rewrite Z.div_add by lia. rewrite Z.add_mod, Z.mod_mul by lia.
    rewrite Z.add_0_r, Z.mod_mod by lia. apply Z.mod_small.
    split; [apply Z.div_pos; lia|]. apply Z.div_lt_upper_bound; lia. }
  rewrite Hhours.
  set (wd := ((d + 4) mod 7)%Z).
  assert (0 <= wd < 7)%Z as Hwd by (subst wd; apply Z.mod_pos_bound; lia).
  assert (∃ q, d + 4 = 7 * q + wd)%Z as [q Hq].
  { exists ((d + 4) / 7)%Z. subst wd. apply Z.div_mod. lia. }
  clearbody wd.
  set (k := ((7 - wd) mod 7)%Z).
  assert (k = if (wd =? 0)%Z then 0 else 7 - wd)%Z as Hk.
  { subst k. destruct (wd =? 0)%Z eqn:H0.
    - apply Z.eqb_eq in H0. rewrite H0. reflexivity.
    - apply Z.eqb_neq in H0. apply Z.mod_small. lia. }
  clearbody k.
  set (days := if (k =? 0)%Z && (2 <=? m / 3600000)%Z then 7%Z else k).
  assert ((if (k =? 0)%Z && (2 <=? m / 3600000)%Z
           then (d + 7) * 86400000 + m else (d + k) * 86400000 + m)
          = (d + days) * 86400000 + m)%Z as ->.
  { subst days. by destruct (_ && _). }
  rewrite Hday.
  assert ((d + days + 4) mod 7 = 0)%Z as Hsunday.
  { subst days. destruct ((k =? 0)%Z && (2 <=? m / 3600000)%Z) eqn:Hc.
    - apply andb_true_iff in Hc as [Hk0%Z.eqb_eq _]. rewrite Hk0 in Hk.
      destruct (wd =? 0)%Z eqn:H0; [|lia]. apply Z.eqb_eq in H0.
      replace (d + 7 + 4)%Z with (0 + (q + 1) * 7)%Z by lia.
      by rewrite Z.mod_add by lia.
    - destruct (wd =? 0)%Z eqn:H0.
      + apply Z.eqb_eq in H0. replace (d + k + 4)%Z with (0 + q * 7)%Z by lia.
        by rewrite Z.mod_add by lia.
      + replace (d + k + 4)%Z with (0 + (q + 1) * 7)%Z by lia.
        by rewrite Z.mod_add by lia. }
  assert (((d + days) * 86400000 + 2 * 3600000) / 86400000 = d + days)%Z as Hnextday.
  { rewrite Z.div_add_l by lia. rewrite Z.div_small by lia. lia. }
  assert (2 <= m / 3600000 <-> 7200000 <= m)%Z as Hlate.
  { split; intros H.
    - pose proof (Z.mul_div_le m 3600000). lia.
    - apply Z.div_le_lower_bound; lia. }
  split; [by rewrite Hnextday|]. split.
  { rewrite Z.add_comm, Z.mod_add by lia. by apply Z.mod_small. }
  split.
  { subst days. destruct ((k =? 0)%Z && (2 <=? m / 3600000)%Z) eqn:Hc.
    { apply andb_true_iff in Hc as [_ Hh%Z.leb_le]. apply Hlate in Hh. clear Hk. lia. }
    apply andb_false_iff in Hc as [Hk0%Z.eqb_neq|Hh%Z.leb_gt].
    { destruct (wd =? 0)%Z eqn:H0; [lia|apply Z.eqb_neq in H0; lia]. }
    assert (m < 7200000)%Z by (apply Z.nle_gt; intros ?; apply Hlate in H; lia).
    destruct (wd =? 0)%Z eqn:H0; [lia|apply Z.eqb_neq in H0; lia]. }
  intros t Ht Htday Httime.
  set (dt := (t / 86400000)%Z) in *.
  assert (t = dt * 86400000 + 7200000)%Z as Htv.
  { subst dt. rewrite (Z.div_mod t 86400000) at 1 by lia. lia. }
  assert (∃ qt, dt + 4 = 7 * qt)%Z as [qt Hqt].
  { exists ((dt + 4) / 7)%Z. pose proof (Z.div_mod (dt + 4) 7). lia. }
  clearbody dt.
  subst days. destruct ((k =? 0)%Z && (2 <=? m / 3600000)%Z) eqn:Hc.
  - apply andb_true_iff in Hc as [Hk0%Z.eqb_eq Hh%Z.leb_le]. apply Hlate in Hh.
    rewrite Hk0 in Hk. destruct (wd =? 0)%Z eqn:H0; [|lia]. apply Z.eqb_eq in H0.
    assert (q < qt)%Z by nia. nia.
  - apply andb_false_iff in Hc as [Hk0%Z.eqb_neq|Hh%Z.leb_gt].
    + destruct (wd =? 0)%Z eqn:H0; [lia|]. apply Z.eqb_neq in H0.
      assert (q < qt)%Z by nia. nia.
    + assert (m < 7200000)%Z by (apply Z.nle_gt; intros ?; apply Hlate in H; lia).
      destruct (wd =? 0)%Z eqn:H0.
      * apply Z.eqb_eq in H0. assert (q <= qt)%Z by nia. nia.
      * apply Z.eqb_neq in H0. assert (q < qt)%Z by nia. nia.
Qed.

(** In a time zone whose offset from UTC is constant, the date
    [updateNextRunTime] stores is the one lines 124 to 133 compute on
    the local time, taken back to UTC. *)
Lemma nextRunTime_constant_zone (w : World) (offset now : Z) :
  constant_zone w offset ->
  Calendar.nextRunTime w now = (Calendar.nextSunday (now + offset) - offset)%Z.
Proof.
  intros Hzone. unfold Calendar.nextRunTime, Calendar.nextSunday, Calendar.LocalTime, Calendar.UTC.
  rewrite !Hzone. cbv zeta.
  destruct (_ && _); rewrite ?Hzone; by rewrite Z.sub_add.
Qed.

(** X20. The date [updateNextRunTime] computes is the first Sunday,
    2:00:00.000 local time, strictly after the present: it falls on a
    Sunday at 2:00, it is later than now and at most seven days later,
    and no Sunday 2:00 lies between now and it. *)
Theorem next_run_is_next_sunday (now : Z) :
  let next := Calendar.nextSunday now in
  Calendar.getDay next = 0%Z
  ∧ Calendar.TimeWithinDay next = (2 * Calendar.msPerHour)%Z
  ∧ (now < next <= now + 7 * Calendar.msPerDay)%Z
  ∧ ∀ t, (now < t)%Z ->
         Calendar.getDay t = 0%Z ->
         Calendar.TimeWithinDay t = (2 * Calendar.msPerHour)%Z ->
         (next <= t)%Z.
Proof. apply nextSunday_first. Qed.
(** ** The controls of the schedule *)

Section Controls.

Import Cron SchedulerControl.

Lemma updateNextRunTime_syncTask w s :
  ∃ s', updateNextRunTime w s = (Ok tt, s')
        ∧ syncTask (scheduler s') = syncTask (scheduler s)
        ∧ isRunning (scheduler s') = isRunning (scheduler s)
        ∧ (nextRun (scheduler s')
           = if syncTask (scheduler s) then Some (Calendar.nextRunTime w (clock w (ticks s)))
             else None).
Proof.
  unfold updateNextRunTime. monad.
  destruct (syncTask (scheduler s)) eqn:Htask; eexists; (split; [reflexivity|]); by cbn.
Qed.

Lemma pass_syncTask w s :
  syncTask (scheduler (snd (pass w s))) = syncTask (scheduler s).
Proof.
  destruct (synchronizeKOIData w s) as [[stats|e] s2] eqn:Hsync.
  - pose proof (synchronizeKOIData_frame w s) as [_ Hsched]. rewrite Hsync in Hsched.
    cbn [snd] in Hsched.
    unfold pass, try_catch at 1, bind at 1. rewrite Hsync.
    unfold bind at 1. rewrite saveSyncStats_eq. unfold bind at 1.
    match goal with
    | |- context [updateNextRunTime w ?s0] =>
        destruct (updateNextRunTime_syncTask w s0) as (s' & -> & Htask & _);
        assert (syncTask (scheduler s0) = syncTask (scheduler s)) as Hs0
    end.
    { destruct (db_ready w); [destruct (db_fault w _)|]; cbn; by rewrite Hsched. }
    cbn. by rewrite Htask.
  - destruct (pass_throws w _ _ _ Hsync) as (s3 & -> & _ & Hsched & _). cbn. by rewrite Hsched.
Qed.

Lemma runSyncNow_syncTask w s :
  syncTask (scheduler (snd (runSyncNow w s))) = syncTask (scheduler s).
Proof.
  destruct (isRunning (scheduler s)) eqn:Hrunning.
  - by rewrite (runSyncNow_running _ _ Hrunning).
  - rewrite (runSyncNow_idle _ _ Hrunning). unfold finish, try_finally.
    pose proof (pass_syncTask w (snd (begin w s))) as Hpass.
    destruct (pass w (snd (begin w s))) as [r s']. cbn in *. by rewrite Hpass.
Qed.

Lemma stop_unscheduled σ :
  well_scheduled σ ->
  ∃ σ', stopWeeklySync σ = (Ok tt, σ')
        ∧ syncTask (scheduler σ'.1) = false
        ∧ live σ'.2 = [] ∧ held σ'.2 = None
        ∧ isRunning (scheduler σ'.1) = isRunning (scheduler σ.1)
        ∧ nextRun (scheduler σ'.1) = nextRun (scheduler σ.1)
        ∧ given σ'.2 = given σ.2
        ∧ ticks σ'.1 = ticks σ.1.
Proof.
  destruct σ as [s c]. unfold well_scheduled, stopWeeklySync, destroy. cbn.
  destruct (held c) as [h|] eqn:Hheld.
  - intros [Hflag (task & Hlive)]. monad. rewrite Hflag. eexists. split; [reflexivity|].
    cbn. rewrite Hlive, Hheld. cbn. rewrite decide_False by (by intros H; apply H).
    done.
  - intros [Hflag Hlive]. monad. rewrite Hflag. eexists. split; [reflexivity|]. by cbn.
Qed.

Lemma schedule_fresh w lib p tz σ :
  syncTask (scheduler σ.1) = false ->
  live σ.2 = [] ->
  match schedule_fault lib p tz with
  | Some e =>
      (exec schedule lib p tz; lift (updateNextRunTime w)) σ = (Throw e, σ)
  | None =>
      ∃ σ', (exec schedule lib p tz; lift (updateNextRunTime w)) σ = (Ok tt, σ')
            ∧ syncTask (scheduler σ'.1) = true
            ∧ live σ'.2 = [(given σ.2, {| pattern := p; timezone := tz |})]
            ∧ held σ'.2 = Some (given σ.2)
            ∧ nextRun (scheduler σ'.1) = Some (Calendar.nextRunTime w (clock w (ticks σ.1)))
  end.
Proof.
  destruct σ as [s c]. cbn. intros Hflag Hlive.
  unfold schedule. destruct (schedule_fault lib p tz) as [e|]; [done|].
  unfold bind at 1, modify at 1, lift.
  destruct (updateNextRunTime_syncTask w (set_scheduler (set_syncTask true) s))
    as (s' & -> & Htask & _ & Hnext).
  eexists. split; [reflexivity|]. cbn in *. by rewrite Htask, Hnext, Hlive.
Qed.

Lemma perform_well_scheduled σ c :
  well_scheduled σ -> well_scheduled (perform σ c).
Proof.
  intros Hwell. destruct c as [w lib| |w lib|w lib p tz|w]; cbn [perform].
  - unfold startWeeklySync, bind at 1, get at 1.
    destruct (syncTask (scheduler σ.1)) eqn:Hflag; [done|].
    assert (live σ.2 = []) as Hlive.
    { unfold well_scheduled in Hwell. destruct (held σ.2); [|tauto].
      destruct Hwell as [? _]. congruence. }
    pose proof (schedule_fresh w lib "0 2 * * 0" "Europe/Paris" σ Hflag Hlive) as Hs.
    destruct (schedule_fault lib _ _).
    + by rewrite Hs.
    + destruct Hs as (σ' & -> & Hflag' & Hlive' & Hheld' & _).
      unfold well_scheduled. cbn. rewrite Hheld'. eauto.
  - destruct (stop_unscheduled σ Hwell) as (σ' & -> & Hflag & Hlive & Hheld & _).
    unfold well_scheduled. cbn. by rewrite Hheld.
  - unfold restartWeeklySync, bind at 1.
    destruct (stop_unscheduled σ Hwell) as (σ' & -> & Hflag & Hlive & Hheld & _).
    unfold startWeeklySync, bind at 1, get at 1. rewrite Hflag.
    pose proof (schedule_fresh w lib "0 2 * * 0" "Europe/Paris" σ' Hflag Hlive) as Hs.
    destruct (schedule_fault lib _ _).
    + rewrite Hs. unfold well_scheduled. cbn. by rewrite Hheld.
    + destruct Hs as (σ'' & -> & Hflag' & Hlive' & Hheld' & _).
      unfold well_scheduled. cbn. rewrite Hheld'. eauto.
  - unfold setCustomSchedule, stopHourlySync, bind at 1.
    destruct (stop_unscheduled σ Hwell) as (σ' & -> & Hflag & Hlive & Hheld & _).
    pose proof (schedule_fresh w lib p tz σ' Hflag Hlive) as Hs.
    destruct (schedule_fault lib _ _).
    + rewrite Hs. unfold well_scheduled. cbn. by rewrite Hheld.
    + destruct Hs as (σ'' & -> & Hflag' & Hlive' & Hheld' & _).
      unfold well_scheduled. cbn. rewrite Hheld'. eauto.
  - destruct σ as [s c]. unfold lift.
    pose proof (runSyncNow_syncTask w s) as Htask.
    destruct (runSyncNow w s) as [r s']. unfold well_scheduled in *. cbn in *.
    by rewrite Htask.
Qed.

End Controls.

(** X14. The service never runs two schedules at once.  From a state
    in which [syncTask] refers to the one live task, or is [null] with
    no task live (as when the process starts), every sequence of
    [startWeeklySync], [stopWeeklySync], [restartWeeklySync],
    [setCustomSchedule] and manual passes, whatever the library and the
    environment answer, leaves at most one live task, the one [syncTask]
    refers to. *)
Theorem one_schedule_at_most
    (σ : SchedulerControl.State) (controls : list SchedulerControl.Control) :
  well_scheduled σ ->
  well_scheduled (SchedulerControl.after controls σ)
  ∧ (length (Cron.live (SchedulerControl.after controls σ).2) <= 1)%nat.
Proof.
  intros Hwell.
  assert (well_scheduled (SchedulerControl.after controls σ)) as Hafter.
  { revert σ Hwell. induction controls as [|c controls IH]; intros σ Hwell; [done|].
    apply (IH (SchedulerControl.perform σ c)). by apply perform_well_scheduled. }
  split; [done|]. unfold well_scheduled in Hafter.
  destruct (Cron.held _); [destruct Hafter as [_ [task ->]]|destruct Hafter as [_ ->]];
    simpl; lia.
Qed.

(** What [setCustomSchedule] does to a well-scheduled state. *)
Lemma setCustomSchedule_effect
    (w : World) (lib : Cron.Lib) (cronPattern timezone : string)
    (σ : SchedulerControl.State) :
  well_scheduled σ ->
  let r := fst (SchedulerControl.setCustomSchedule w lib cronPattern timezone σ) in
  let σ' := snd (SchedulerControl.setCustomSchedule w lib cronPattern timezone σ) in
  match Cron.schedule_fault lib cronPattern timezone with
  | None =>
      r = Ok tt
      ∧ Cron.live σ'.2
        = [(Cron.given σ.2, {| Cron.pattern := cronPattern; Cron.timezone := timezone |})]
      ∧ Cron.held σ'.2 = Some (Cron.given σ.2)
      ∧ nextRun (scheduler σ'.1) = Some (Calendar.nextRunTime w (clock w (ticks σ.1)))
      ∧ ∃ status σ'',
          SchedulerControl.getStatus w σ' = (Ok status, σ'')
          ∧ SchedulerControl.isSchedulerActive status = true
          ∧ SchedulerControl.cronPattern status = "0 2 * * 0"
          ∧ SchedulerControl.st_timezone status = "Europe/Paris"
  | Some e =>
      r = Throw e
      ∧ Cron.live σ'.2 = []
      ∧ Cron.held σ'.2 = None
      ∧ syncTask (scheduler σ'.1) = false
      ∧ nextRun (scheduler σ'.1) = nextRun (scheduler σ.1)
  end.
Proof.
  intros Hwell r σ'. subst r σ'.
  destruct (stop_unscheduled σ Hwell)
    as (σ1 & Hstop & Hflag & Hlive & Hheld & _ & Hnext & Hgiven & Hticks).
  assert (SchedulerControl.setCustomSchedule w lib cronPattern timezone σ
          = (exec SchedulerControl.schedule lib cronPattern timezone;
             lift (updateNextRunTime w)) σ1) as ->.
  { unfold SchedulerControl.setCustomSchedule, SchedulerControl.stopHourlySync, bind at 1.
    by rewrite Hstop. }
  pose proof (schedule_fresh w lib cronPattern timezone σ1 Hflag Hlive) as Hs.
  destruct (Cron.schedule_fault lib cronPattern timezone) as [e|].
  - rewrite Hs. cbn [fst snd]. done.
  - destruct Hs as (σ2 & -> & Hflag2 & Hlive2 & Hheld2 & Hnext2). cbn [fst snd].
    rewrite Hlive2, Hheld2, Hnext2, Hgiven, Hticks.
    split; [done|]. split; [done|]. split; [done|]. split; [done|].
    destruct σ2 as [s2 c2]. cbn in Hflag2.
    unfold SchedulerControl.getStatus. monad. cbn [fst snd]. rewrite Hflag2.
    destruct (lastRun (scheduler s2)) as [t0|]; [destruct (t0 =? 0)%Z|];
      do 2 eexists; (split; [reflexivity|]); done.
Qed.

(** X15. [setCustomSchedule] replaces the schedule: it stops the task
    that was live, and when [cron.schedule] accepts the pattern it
    leaves exactly one live task, with the pattern and the time zone it
    was given; [getStatus] still reports the pattern [0 2 * * 0] and the
    zone [Europe/Paris], and, on a host whose local time is at a
    constant offset from UTC, [nextRun] is the first Sunday 2:00 local
    time after the present, whatever the pattern.  When [cron.schedule]
    throws, the error is thrown on and no task is live any more: the
    former schedule is lost. *)
Theorem custom_schedule_replaces
    (w : World) (lib : Cron.Lib) (cronPattern timezone : string)
    (σ : SchedulerControl.State) (offset : Z) :
  well_scheduled σ ->
  constant_zone w offset ->
  let r := fst (SchedulerControl.setCustomSchedule w lib cronPattern timezone σ) in
  let σ' := snd (SchedulerControl.setCustomSchedule w lib cronPattern timezone σ) in
  let now := clock w (ticks σ.1) in
  match Cron.schedule_fault lib cronPattern timezone with
  | None =>
      r = Ok tt
      ∧ Cron.live σ'.2
        = [(Cron.given σ.2, {| Cron.pattern := cronPattern; Cron.timezone := timezone |})]
      ∧ Cron.held σ'.2 = Some (Cron.given σ.2)
      ∧ (∃ next,
           nextRun (scheduler σ'.1) = Some next
           ∧ next = (Calendar.nextSunday (now + offset) - offset)%Z
           ∧ Calendar.getDay (next + offset) = 0%Z
           ∧ Calendar.TimeWithinDay (next + offset) = (2 * Calendar.msPerHour)%Z
           ∧ (now < next <= now + 7 * Calendar.msPerDay)%Z
           ∧ ∀ t, (now < t)%Z ->
                  Calendar.getDay (t + offset) = 0%Z ->
                  Calendar.TimeWithinDay (t + offset) = (2 * Calendar.msPerHour)%Z ->
                  (next <= t)%Z)
      ∧ ∃ status σ'',
          SchedulerControl.getStatus w σ' = (Ok status, σ'')
          ∧ SchedulerControl.isSchedulerActive status = true
          ∧ SchedulerControl.cronPattern status = "0 2 * * 0"
          ∧ SchedulerControl.st_timezone status = "Europe/Paris"
  | Some e =>
      r = Throw e
      ∧ Cron.live σ'.2 = []
      ∧ Cron.held σ'.2 = None
      ∧ syncTask (scheduler σ'.1) = false
      ∧ nextRun (scheduler σ'.1) = nextRun (scheduler σ.1)
  end.
Proof.
  intros Hwell Hzone r σ' now.
  pose proof (setCustomSchedule_effect w lib cronPattern timezone σ Hwell) as Heffect.
  cbv zeta in Heffect. fold r σ' now in Heffect.
  destruct (Cron.schedule_fault lib cronPattern timezone) as [e|]; [exact Heffect|].
  destruct Heffect as (Hr & Hlive & Hheld & Hnext & Hstatus).
  split; [done|]. split; [done|]. split; [done|]. split; [|done].
  rewrite (nextRunTime_constant_zone w offset now Hzone) in Hnext.
  destruct (nextSunday_first (now + offset)) as (Hday & Htime & Hbounds & Hfirst).
  cbv zeta in Hday, Htime, Hbounds, Hfirst.
  eexists. split; [exact Hnext|]. split; [done|].
  rewrite Z.sub_add. split; [done|]. split; [done|]. split; [lia|].
  intros t Ht Htday Httime. specialize (Hfirst (t + offset)%Z). lia.
Qed.


(** X19. [POST /api/sync/scheduler/configure] validates before it
    acts.  A missing or empty [cronPattern], or one that
    [validateCronPattern] rejects ([cron.validate] returned [false] or
    threw), is answered with 400 Bad Request and nothing changes: the
    schedule in place keeps running.  A pattern that passes is handed to
    [setCustomSchedule] with the time zone of the body, [Europe/Paris]
    when it gives none; the reply is 200 and echoes the two when
    [cron.schedule] accepts them, and 500 when it throws, in which case
    no schedule is left. *)
Theorem configure_validates_first
    (w : World) (lib : Cron.Lib) (body : Routes.ConfigureBody)
    (σ : SchedulerControl.State) :
  let configured := Routes.post_scheduler_configure w lib body σ in
  let timezone := default "Europe/Paris" (Routes.b_timezone body) in
  (Js.truthy_str (Routes.b_cronPattern body) = false ->
   configured
   = (Ok (Routes.failed 400 "Bad Request" "The cron pattern is required"), σ))
  ∧ (∀ cronPattern,
       Routes.b_cronPattern body = Some cronPattern ->
       cronPattern ≠ "" ->
       (SchedulerControl.validateCronPattern lib cronPattern = false ->
        configured = (Ok (Routes.failed 400 "Bad Request" "Invalid cron pattern"), σ))
       ∧ (SchedulerControl.validateCronPattern lib cronPattern = true ->
          well_scheduled σ ->
          ∃ reply,
            fst configured = Ok reply
            ∧ match Cron.schedule_fault lib cronPattern timezone with
              | None =>
                  Routes.statusCode reply = 200%Z
                  ∧ (∃ status, Routes.data reply = Some (cronPattern, timezone, status))
                  ∧ Cron.live (snd configured).2
                    = [(Cron.given σ.2,
                        {| Cron.pattern := cronPattern; Cron.timezone := timezone |})]
              | Some _ =>
                  Routes.statusCode reply = 500%Z
                  ∧ Cron.live (snd configured).2 = []
                  ∧ syncTask (scheduler (snd configured).1) = false
              end)).
Proof.
  intros configured timezone. subst configured. split.
  { intros Hmissing. unfold Routes.post_scheduler_configure, try_catch. by rewrite Hmissing. }
  intros cronPattern Hpattern Hnonempty.
  assert (Js.truthy_str (Routes.b_cronPattern body) = true) as Htruthy.
  { rewrite Hpattern. by destruct cronPattern. }
  split.
  { intros Hinvalid. unfold Routes.post_scheduler_configure, try_catch.
    rewrite Htruthy, Hpattern. change (default "" (Some cronPattern)) with cronPattern.
    by rewrite Hinvalid. }
  intros Hvalid Hwell.
  pose proof (setCustomSchedule_effect w lib cronPattern timezone σ Hwell) as Hcustom.
  cbv zeta in Hcustom.
  assert (Routes.post_scheduler_configure w lib body σ
          = try_catch
              (exec SchedulerControl.setCustomSchedule w lib cronPattern timezone;
               do status <- SchedulerControl.getStatus w;
               do t <- lift (now w);
               ret (Routes.ok (Some "Scheduler configured successfully")
                              (cronPattern, timezone, status) t))
              (fun _ => ret (Routes.failed 500 "Internal Server Error"
                                           "Error configuring the scheduler")) σ) as ->.
  { unfold Routes.post_scheduler_configure, try_catch at 1.
    rewrite Htruthy, Hpattern. change (default "" (Some cronPattern)) with cronPattern.
    cbn [negb]. by rewrite Hvalid. }
  destruct (SchedulerControl.setCustomSchedule w lib cronPattern timezone σ)
    as [r σ'] eqn:Hset. cbn [fst snd] in Hcustom.
  destruct (Cron.schedule_fault lib cronPattern timezone) as [e|].
  - destruct Hcustom as (-> & Hlive & _ & Hflag & _).
    match goal with
    | |- context [try_catch ?m ?h σ] =>
        assert (try_catch m h σ
                = (Ok (Routes.failed 500 "Internal Server Error"
                                     "Error configuring the scheduler"), σ')) as ->
    end.
    { unfold try_catch, bind at 1. by rewrite Hset. }
    eexists. split; [reflexivity|]. by cbn.
  - destruct Hcustom as (-> & Hlive & _ & _ & (status & σ'' & Hstatus & _)).
    assert (σ''.2 = σ'.2) as Htasks.
    { revert Hstatus. destruct σ' as [s' c']. unfold SchedulerControl.getStatus. monad.
      cbn [fst snd].
      destruct (syncTask (scheduler s')); [|by intros [= _ <-]].
      destruct (lastRun (scheduler s')) as [t0|]; [destruct (t0 =? 0)%Z|];
        by intros [= _ <-]. }
    destruct σ'' as [s'' c''].
    match goal with
    | |- context [try_catch ?m ?h σ] =>
        assert (try_catch m h σ
                = (Ok (Routes.ok (Some "Scheduler configured successfully")
                                 (cronPattern, timezone, status) (clock w (ticks s''))),
                   (set_ticks S s'', c''))) as ->
    end.
    { unfold try_catch, bind at 1. rewrite Hset. unfold bind at 1. rewrite Hstatus.
      by monad. }
    eexists. split; [reflexivity|]. cbn in *. rewrite Htasks.
    split; [done|]. split; [by eexists|done].
Qed.

(** X22. [POST /api/sync/scheduler/stop] always answers 200 and
    leaves no live task.  The status it reports says that the scheduler
    is not active, with an uptime of 0; a pass in flight is not
    interrupted, and [nextRun] keeps the date computed for the schedule
    that was stopped. *)
Theorem stop_route_keeps_next_run (w : World) (σ : SchedulerControl.State) :
  well_scheduled σ ->
  ∃ status t σ',
    Routes.post_scheduler_stop w σ
    = (Ok (Routes.ok (Some "Synchronization scheduler stopped") status t), σ')
    ∧ Cron.live σ'.2 = []
    ∧ Cron.held σ'.2 = None
    ∧ SchedulerControl.isSchedulerActive status = false
    ∧ SchedulerControl.uptime status = 0%Z
    ∧ SchedulerControl.isSyncRunning status = isRunning (scheduler σ.1)
    ∧ SchedulerControl.st_nextRun status = nextRun (scheduler σ.1)
    ∧ isRunning (scheduler σ'.1) = isRunning (scheduler σ.1)
    ∧ nextRun (scheduler σ'.1) = nextRun (scheduler σ.1).
Proof.
  intros Hwell.
  destruct (stop_unscheduled σ Hwell)
    as (σ1 & Hstop & Hflag & Hlive & Hheld & Hrunning & Hnext & _).
  unfold Routes.post_scheduler_stop, SchedulerControl.stopHourlySync, try_catch, bind at 1.
  rewrite Hstop. destruct σ1 as [s1 c1]. cbn [fst snd] in *.
  unfold SchedulerControl.getStatus. monad. cbn [fst snd]. rewrite Hflag.
  do 3 eexists. split; [reflexivity|]. cbn. by rewrite Hrunning, Hnext.
Qed.
(** ** The log of passes and its routes *)

#[global] Instance newer_first_total : Total SyncLogs.newer_first.
Proof. intros a b. unfold SyncLogs.newer_first. lia. Qed.

#[global] Instance newer_first_trans : Transitive SyncLogs.newer_first.
Proof. intros a b c. unfold SyncLogs.newer_first. lia. Qed.

Section Logs.

Import SyncLogs Routes.

Lemma getSyncLogs_eq w find_fault limit s :
  getSyncLogs w find_fault limit s
  = (if db_ready w then
       match find_fault with
       | Some e => Throw e
       | None => Ok (limited (default 10%Z limit) (merge_sort newer_first (sync_logs s)))
       end
     else Throw (Js.new_Error "Database not initialized. Call connectToDatabase first."),
     s).
Proof.
  unfold getSyncLogs. monad. destruct (db_ready w); [|done]. by destruct find_fault.
Qed.

Lemma sorted_take_drop (l : list LogEntry) n a b :
  StronglySorted newer_first l -> a ∈ take n l -> b ∈ drop n l -> newer_first a b.
Proof.
  intros Hsorted Ha Hb. rewrite <- (take_drop n l) in Hsorted.
  by eapply StronglySorted_app_1_elem_of.
Qed.

End Logs.

(** X16. [getSyncLogs(n)], for a positive [n] and a readable log,
    returns the [n] most recent log documents, the most recent first:
    as many documents as the log holds up to [n], each of them in the
    log, in decreasing order of [createdAt], and none of the documents
    left out is more recent than one returned.  It reads the log only. *)
Theorem getSyncLogs_most_recent (w : World) (s : Sys) (n : Z) :
  db_ready w = true ->
  (0 < n)%Z ->
  ∃ logs rest,
    SyncLogs.getSyncLogs w None (Some n) s = (Ok logs, s)
    ∧ logs ++ rest ≡ₚ sync_logs s
    ∧ length logs = Nat.min (Z.to_nat n) (length (sync_logs s))
    ∧ StronglySorted SyncLogs.newer_first logs
    ∧ ∀ a b, a ∈ logs -> b ∈ rest ->
             (SyncLogs.createdAt_of b <= SyncLogs.createdAt_of a)%Z.
Proof.
  intros Hready Hn.
  set (sorted := merge_sort SyncLogs.newer_first (sync_logs s)).
  exists (take (Z.to_nat n) sorted), (drop (Z.to_nat n) sorted).
  assert (StronglySorted SyncLogs.newer_first sorted) as Hsorted
    by (apply StronglySorted_merge_sort; apply _).
  assert (sorted ≡ₚ sync_logs s) as Hperm by apply merge_sort_Permutation.
  split; [|split; [|split; [|split]]].
  - rewrite getSyncLogs_eq, Hready. unfold SyncLogs.limited.
    change (default 10%Z (Some n)) with n.
    assert ((n =? 0)%Z = false) as -> by (apply Z.eqb_neq; lia).
    by rewrite Z.abs_eq by lia.
  - by rewrite take_drop.
  - by rewrite length_take, Hperm.
  - rewrite <- (take_drop (Z.to_nat n) sorted) in Hsorted.
    by eapply StronglySorted_app_1_l.
  - intros a b Ha Hb. by eapply sorted_take_drop.
Qed.

Section Parsing.

Import Routes.






End Parsing.


Section Statistics.

Import SyncLogs Routes.

Lemma filter_partition (logs : list LogEntry) :
  length logs
  = (length (filter (fun log => negb (has_error log) = true) logs)
     + length (filter (fun log => has_error log = true) logs))%nat.
Proof.
  induction logs as [|log logs IH]; [done|].
  rewrite !filter_cons.
  destruct (has_error log); repeat case_decide; try done; cbn [length]; lia.
Qed.

Lemma head_newest (sorted logs : list LogEntry) n log :
  StronglySorted newer_first sorted ->
  sorted ≡ₚ logs ->
  head (take n sorted) = Some log ->
  log ∈ logs ∧ ∀ other, other ∈ logs -> (createdAt_of other <= createdAt_of log)%Z.
Proof.
  intros Hsorted Hperm Hhead.
  destruct sorted as [|first rest]; [by destruct n|].
  destruct n as [|n]; [done|]. cbn in Hhead. injection Hhead as ->.
  apply StronglySorted_cons in Hsorted as [Hall _].
  split; [rewrite <- Hperm; by left|].
  intros other Hother. rewrite <- Hperm in Hother.
  apply elem_of_cons in Hother as [->|Hother]; [lia|].
  rewrite Forall_forall in Hall. by apply Hall.
Qed.

End Statistics.

(** X18. [GET /api/sync/stats] summarises the 50 most recent log
    documents at most.  Every document counts once, as a successful or
    as a failed synchronization: [totalSyncs] is the sum of
    [successfulSyncs] and [failedSyncs], and is the smaller of 50 and
    the size of the log.  [lastSync] is a most recent document of the
    whole log, and is [null] exactly when the log is empty, in which
    case the average duration is 0.  The reply is 500 when the log
    cannot be read. *)
Theorem stats_count_every_log (w : World) (find_fault : option Js.Error) (s : Sys) :
  ∃ reply s',
    Routes.get_stats w find_fault s = (Ok reply, s')
    ∧ sync_logs s' = sync_logs s
    ∧ match Routes.data reply with
      | Some d =>
          Routes.statusCode reply = 200%Z
          ∧ Routes.totalSyncs d = (Routes.successfulSyncs d + Routes.failedSyncs d)%nat
          ∧ Routes.totalSyncs d = Nat.min 50 (length (sync_logs s))
          ∧ (∀ log, Routes.lastSync d = Some log ->
                    log ∈ sync_logs s
                    ∧ ∀ other, other ∈ sync_logs s ->
                               (SyncLogs.createdAt_of other <= SyncLogs.createdAt_of log)%Z)
          ∧ (Routes.lastSync d = None <-> sync_logs s = [])
          ∧ (sync_logs s = [] ->
             Routes.averageDuration d = 0%float ∧ Routes.totalNewKOIs d = 0%nat)
      | None =>
          Routes.statusCode reply = 500%Z
          ∧ (db_ready w = false ∨ is_Some find_fault)
      end.
Proof.
  unfold Routes.get_stats, try_catch at 1, bind at 1. rewrite getSyncLogs_eq.
  destruct (db_ready w) eqn:Hready; [destruct find_fault as [e|]|].
  - do 2 eexists. split; [reflexivity|]. cbn. repeat split; try done. right. by eexists.
  - monad. do 2 eexists. split; [reflexivity|]. cbn [Routes.data Routes.ok].
    split; [done|]. split; [done|].
    set (sorted := merge_sort SyncLogs.newer_first (sync_logs s)).
    assert (StronglySorted SyncLogs.newer_first sorted) as Hsorted
      by (apply StronglySorted_merge_sort; apply _).
    assert (sorted ≡ₚ sync_logs s) as Hperm by apply merge_sort_Permutation.
    change (SyncLogs.limited (default 10%Z (Some 50%Z)) sorted) with (take 50 sorted).
    unfold Routes.statistics.
    cbn [Routes.totalSyncs Routes.successfulSyncs Routes.failedSyncs Routes.lastSync
         Routes.averageDuration Routes.totalNewKOIs].
    split; [apply filter_partition|].
    split; [by rewrite length_take, Hperm|].
    split; [intros log Hlog; by eapply head_newest|].
    split.
    + split.
      * intros Hnone. destruct sorted as [|first rest] eqn:Hs; [|done].
        by apply Permutation_nil_l in Hperm.
      * intros Hempty. rewrite Hempty in Hperm. by apply Permutation_nil_r in Hperm as ->.
    + intros Hempty. rewrite Hempty in Hperm. by apply Permutation_nil_r in Hperm as ->.
  - do 2 eexists. split; [reflexivity|]. cbn. repeat split; try done. by left.
Qed.
(** ** The classification of exoplanets *)

Section Classification.

Import ExoplanetClassificationService.

Lemma elem_of_insert {A} (compare : A -> A -> float) x a sorted :
  x ∈ insert compare a sorted <-> x = a ∨ x ∈ sorted.
Proof.
  induction sorted as [|y rest IH]; cbn [insert].
  - rewrite list_elem_of_singleton, elem_of_nil. tauto.
  - destruct (PrimFloat.ltb 0 (compare a y)).
    + rewrite !elem_of_cons, IH. tauto.
    + rewrite !elem_of_cons. tauto.
Qed.

Lemma elem_of_sort {A} (compare : A -> A -> float) x xs :
  x ∈ sort compare xs <-> x ∈ xs.
Proof.
  unfold sort. induction xs as [|a xs IH]; [done|].
  cbn [foldr]. rewrite elem_of_insert, elem_of_cons, IH. tauto.
Qed.

Lemma sort_nil {A} (compare : A -> A -> float) xs : sort compare xs = [] -> xs = [].
Proof.
  destruct xs as [|a xs]; [done|]. intros Hnil.
  assert (a ∈ sort compare (a :: xs)) as Ha by (apply elem_of_sort; by left).
  rewrite Hnil in Ha. by apply elem_of_nil in Ha.
Qed.

Lemma elem_of_scored toString radius temperature distance r :
  r ∈ scored toString radius temperature distance ->
  (classification r, entry r) ∈ CLASSIFICATIONS
  ∧ confidence r = calculateScore radius temperature distance (criteria (entry r))
  ∧ PrimFloat.ltb 0 (confidence r) = true
  ∧ reason r = measured toString radius temperature distance.
Proof.
  unfold scored. intros ([key c] & Hin & Hr)%list_elem_of_omap.
  destruct (PrimFloat.ltb 0 _) eqn:Hpositive; [|done].
  injection Hr as <-. by cbn.
Qed.

Lemma scored_nil toString radius temperature distance key c :
  scored toString radius temperature distance = [] ->
  (key, c) ∈ CLASSIFICATIONS ->
  PrimFloat.ltb 0 (calculateScore radius temperature distance (criteria c)) = false.
Proof.
  intros Hnil Hin.
  destruct (PrimFloat.ltb 0 _) eqn:Hpositive; [|done]. exfalso.
  assert ({| classification := key; entry := c;
             confidence := calculateScore radius temperature distance (criteria c);
             reason := measured toString radius temperature distance |}
          ∈ scored toString radius temperature distance) as Hr.
  { unfold scored. apply list_elem_of_omap. exists (key, c). split; [done|].
    by rewrite Hpositive. }
  rewrite Hnil in Hr. by apply elem_of_nil in Hr.
Qed.

End Classification.

(** X21. [classifyExoplanet] always answers with one of the twelve
    classifications of its table, under the name the table gives it.
    The confidence is 0 exactly when a measurement is missing
    ([null], absent, 0 or [NaN]), and the answer is then [barren].
    Otherwise the confidence is positive: it is the score
    [calculateScore] gives the classification returned, or 0.1 for the
    default [barren] (the number [0x1.999999999999ap-4]), which is
    returned only when no classification of the table has a positive
    score. *)
Theorem classification_is_scored
    (toString : float -> string) (exoplanet : ExoplanetClassificationService.Exoplanet) :
  let r := ExoplanetClassificationService.classifyExoplanet toString exoplanet in
  let insufficient :=
    ExoplanetClassificationService.missing (ExoplanetClassificationService.koi_prad exoplanet)
    || ExoplanetClassificationService.missing (ExoplanetClassificationService.koi_teq exoplanet)
    || ExoplanetClassificationService.missing (ExoplanetClassificationService.koi_sma exoplanet) in
  (ExoplanetClassificationService.classification r, ExoplanetClassificationService.entry r)
    ∈ ExoplanetClassificationService.CLASSIFICATIONS
  ∧ (ExoplanetClassificationService.confidence r = 0%float <-> insufficient = true)
  ∧ (insufficient = true ->
     ExoplanetClassificationService.classification r = "barren"
     ∧ ExoplanetClassificationService.reason r = "Insufficient data")
  ∧ (insufficient = false ->
     ∃ radius temperature distance,
       ExoplanetClassificationService.koi_prad exoplanet = Some radius
       ∧ ExoplanetClassificationService.koi_teq exoplanet = Some temperature
       ∧ ExoplanetClassificationService.koi_sma exoplanet = Some distance
       ∧ PrimFloat.ltb 0 (ExoplanetClassificationService.confidence r) = true
       ∧ (ExoplanetClassificationService.confidence r
          = ExoplanetClassificationService.calculateScore radius temperature distance
              (ExoplanetClassificationService.criteria (ExoplanetClassificationService.entry r))
          ∨ (ExoplanetClassificationService.classification r = "barren"
             ∧ ExoplanetClassificationService.confidence r = 0x1.999999999999ap-4%float
             ∧ ∀ key c,
                 (key, c) ∈ ExoplanetClassificationService.CLASSIFICATIONS ->
                 PrimFloat.ltb 0
                   (ExoplanetClassificationService.calculateScore radius temperature distance
                      (ExoplanetClassificationService.criteria c)) = false))).
Proof.
  intros r insufficient. subst r.
  assert (("barren", ExoplanetClassificationService.barren)
          ∈ ExoplanetClassificationService.CLASSIFICATIONS) as Hbarren.
  { unfold ExoplanetClassificationService.CLASSIFICATIONS. rewrite !elem_of_cons. tauto. }
  unfold ExoplanetClassificationService.classifyExoplanet. fold insufficient.
  destruct insufficient eqn:Hinsufficient.
  { cbn. split; [done|]. split; [done|]. split; done. }
  subst insufficient.
  apply orb_false_iff in Hinsufficient as [[Hr Ht]%orb_false_iff Hd].
  destruct (ExoplanetClassificationService.koi_prad exoplanet) as [radius|]; [|done].
  destruct (ExoplanetClassificationService.koi_teq exoplanet) as [temperature|]; [|done].
  destruct (ExoplanetClassificationService.koi_sma exoplanet) as [distance|]; [|done].
  change (default 0%float (Some radius)) with radius.
  change (default 0%float (Some temperature)) with temperature.
  change (default 0%float (Some distance)) with distance.
  destruct (ExoplanetClassificationService.sort _ _) as [|best rest] eqn:Hsort.
  - apply sort_nil in Hsort. cbn.
    split; [done|]. split; [split; [intros H; vm_compute in H; discriminate H|done]|].
    split; [done|]. intros _. exists radius, temperature, distance.
    repeat split; try done. right. repeat split; try done.
    intros key c Hin. by eapply scored_nil.
  - assert (best ∈ ExoplanetClassificationService.scored toString radius temperature distance)
      as Hbest.
    { eapply elem_of_sort. rewrite Hsort. by left. }
    destruct (elem_of_scored _ _ _ _ _ Hbest) as (Hin & Hscore & Hpositive & _).
    split; [done|]. split.
    { split; [|done]. intros Hzero. rewrite Hzero in Hpositive. vm_compute in Hpositive.
      discriminate Hpositive. }
    split; [done|]. intros _. exists radius, temperature, distance.
    repeat split; try done. by left.
Qed.

(** * The theorems at sample inputs *)

Import Sample.

(** A classifier that answers [False Positive] with probability 0.25:
    the record is saved with the confidence 0.75. *)
Lemma gateway_verdict_witness :
  ∃ r s' doc,
    sendCandidateToInferAPI (world catalogue [] (always "False Positive" (Some 0.25%float)))
                            "K00100.01" idle = (Ok r, s')
    ∧ success r = true
    ∧ action r = Some "saved_as_false_positive"
    ∧ koi_objects s' = koi_objects idle ++ [doc]
    ∧ koi_disposition doc = Some "FALSE POSITIVE"
    ∧ classified_by_automation doc "False Positive" (Some 0.25%float) 0.75%float.
Proof.
  refine (proj1 (gateway_verdict
                   (world catalogue [] (always "False Positive" (Some 0.25%float)))
                   "K00100.01" idle "OK" (row "K00100.01" "CANDIDATE" None) [] "OK"
                   (verdict "False Positive" (Some 0.25%float)) "False Positive" 0.25%float
                   _ _ _ _ _ _ _) _);
    try reflexivity.
  left. reflexivity.
Defined.

(** A classifier that answers [confirmed] without a probability: the
    record is saved with the confidence 0. *)
Lemma gateway_missing_probability_witness :
  ∃ r s' doc,
    sendCandidateToInferAPI (world catalogue [] (always "confirmed" None))
                            "K00100.01" idle = (Ok r, s')
    ∧ action r = Some "saved_as_confirmed"
    ∧ koi_objects s' = koi_objects idle ++ [doc]
    ∧ koi_disposition doc = Some "CONFIRMED"
    ∧ confidence_score doc = Some 0%float
    ∧ classified_by_automation doc "confirmed" None 0%float.
Proof.
  refine (proj2 (gateway_missing_probability
                   (world catalogue [] (always "confirmed" None))
                   "K00100.01" idle "OK" (row "K00100.01" "CANDIDATE" None) [] "OK"
                   (verdict "confirmed" None) "confirmed"
                   _ _ _ _ _ _) _);
    reflexivity.
Defined.

(** A manual trigger while the pass begun from [idle] is in flight. *)
Lemma single_flight_witness :
  SchedulerService.reachable (running, 1%nat)
  ∧ runSyncNow (world [] [] unreachable) running = (Throw conflict, running)
  ∧ (∀ r s', finish (world [] [] unreachable) running = (r, s') ->
             isRunning (scheduler s') = false).
Proof.
  assert (SchedulerService.reachable (running, 1%nat)) as Hreach.
  { eapply reachable_step; [apply (reachable_idle idle); reflexivity|].
    apply (step_trigger (world [] [] unreachable) Manual idle 0 Started running).
    reflexivity. }
  split; [exact Hreach|].
  destruct (single_flight (running, 1%nat) Hreach) as (_ & Hrunning & _).
  destruct (Hrunning eq_refl (world [] [] unreachable)) as (Hthrows & _ & _ & _ & Hfinish).
  split; [exact Hthrows|].
  intros r s' Hrun. exact (proj1 (Hfinish r s' Hrun)).
Defined.


(** In [named_store] no record has the base [K00002], and the greatest
    label is 40: the name is [Kepler-41 b]. *)
Lemma allocate_new_group_witness :
  fst (generateKeplerName (world [] [] unreachable) "K00002.01" (with_store named_store))
  = Ok "Kepler-41 b"
  ∧ ∃ m, greatest_label named_store m
         ∧ generateKeplerName (world [] [] unreachable) "K00002.01" (with_store named_store)
           = (Ok (kepler (m + 1) "b"), with_store named_store)
         ∧ (m <= Js.MAX_SAFE_INTEGER)%N.
Proof.
  split; [reflexivity|].
  apply (allocate_new_group (world [] [] unreachable) "K00002.01" (with_store named_store)).
  - reflexivity.
  - reflexivity.
  - reflexivity.
  - reflexivity.
  - intros koi Hin Hsimilar. simpl in Hin.
    repeat (apply elem_of_cons in Hin as [->|Hin]; [discriminate Hsimilar|]).
    by apply elem_of_nil in Hin.
Defined.

Lemma fetched_world catalogue down classifier name row :
  fetched (world catalogue down classifier) name = Ok row ->
  row ∈ catalogue ∧ kepoi_name row = Some name.
Proof.
  unfold fetched, world. simpl. destruct (bool_decide (name ∈ down)); [done|]. simpl.
  destruct (filter _ catalogue) as [|first rest] eqn:Hfilter; [done|].
  intros [= ->].
  assert (row ∈ filter (fun koi => kepoi_name koi = Some name) catalogue) as Hin
    by (rewrite Hfilter; by left).
  apply list_elem_of_filter in Hin. tauto.
Qed.

Lemma world_answers_by_name catalogue down classifier :
  answers_by_name (world catalogue down classifier).
Proof. intros name row Hrow. by apply fetched_world in Hrow as [_ ?]. Qed.

Lemma catalogue_consistent classifier : consistent_remote (world catalogue [] classifier).
Proof.
  split.
  - intros name row [Hin _]%fetched_world. unfold catalogue in Hin.
    repeat (apply elem_of_cons in Hin as [->|Hin]).
    + split; [done|]. by intros [? ?].
    + split; [by eexists|done].
    + by apply elem_of_nil in Hin.
  - intros remote entry row [= <-] Hin Hrow. unfold catalogue in Hin. simpl in Hin.
    repeat (apply elem_of_cons in Hin as [->|Hin]).
    + by injection Hrow as <-.
    + by injection Hrow as <-.
    + by apply elem_of_nil in Hin.
Qed.

(** C2, as stated, fails.  The remote catalogue lists a candidate
    before the Confirmed record it names [Kepler-1 b]; the store is
    empty and the classifier confirms the candidate.  The Allocator
    names the candidate [Kepler-1 b], then the Confirmed record is
    stored under the name the catalogue gives it: two Confirmed records
    share an assigned name. *)
Lemma duplicate_names :
  let w := world catalogue [] (always "CONFIRMED" (Some 0.5%float)) in
  let docs := koi_objects (snd (synchronizeKOIData w idle)) in
  consistent_remote w
  ∧ reachable_store consistent_remote docs
  ∧ kepoi_name <$> docs = [Some "K00100.01"; Some "K00001.01"]
  ∧ koi_disposition <$> docs = [Some "CONFIRMED"; Some "CONFIRMED"]
  ∧ kepler_name <$> docs = [Some "Kepler-1 b"; Some "Kepler-1 b"]
  ∧ ¬ names_invariant docs
  ∧ ¬ names_always_invariant.
Proof.
  intros w docs.
  assert (reachable_store consistent_remote docs) as Hreach.
  { unfold docs. destruct (synchronizeKOIData w idle) as [r s'] eqn:Hpass.
    eapply (reachable_pass _ w idle); [apply catalogue_consistent|constructor|done]. }
  assert (¬ names_invariant docs) as Hnot.
  { intros (_ & Hunique & _).
    assert (∃ a b, docs !! 0%nat = Some a ∧ docs !! 1%nat = Some b
                   ∧ is_confirmed a ∧ is_confirmed b ∧ kepler_name a = kepler_name b)
      as (a & b & Ha & Hb & Hca & Hcb & Hsame).
    { do 2 eexists. split; [vm_compute; reflexivity|]. split; [vm_compute; reflexivity|].
      by vm_compute. }
    by specialize (Hunique 0%nat 1%nat a b Ha Hb Hca Hcb Hsame). }
  split; [apply catalogue_consistent|]. split; [done|].
  split; [reflexivity|]. split; [reflexivity|]. split; [reflexivity|]. split; [done|].
  intros Halways. by apply Hnot, Halways.
Qed.

(** The same pass keeps the amended invariant. *)
Lemma names_follow_status_witness :
  Forall (fun koi => is_confirmed koi <-> is_Some (kepler_name koi))
         (koi_objects (snd (synchronizeKOIData
                              (world catalogue [] (always "CONFIRMED" (Some 0.5%float))) idle))).
Proof.
  apply Forall_forall.
  apply (names_follow_status
           (koi_objects (snd (synchronizeKOIData
                                (world catalogue [] (always "CONFIRMED" (Some 0.5%float))) idle)))).
  destruct (synchronizeKOIData (world catalogue [] (always "CONFIRMED" (Some 0.5%float))) idle)
    as [r s'] eqn:Hpass.
  eapply (reachable_pass _ _ idle); [apply catalogue_consistent|constructor|exact Hpass].
Defined.

(** C9, as stated, fails.  The remote list holds two Confirmed records
    and the fetch of the full record of the first times out.  The pass
    returns its statistics, with one error and one record confirmed; the
    second record is persisted; and [executeSyncTask] logs the
    statistics of a pass that returned, not an [errorStats]. *)
Lemma fetch_failure_not_fatal :
  let w := world decided_catalogue ["K00001.01"] unreachable in
  decided (project (row "K00001.01" "CONFIRMED" (Some "Kepler-1 b")))
  ∧ project <$> decided_catalogue = newKepOIEntries (project <$> decided_catalogue) (names_of [])
  ∧ fst (fetchCompleteKOIData w "K00001.01" idle) = Throw timeout
  ∧ (∃ stats, fst (synchronizeKOIData w idle) = Ok stats
              ∧ errors stats = 1%nat ∧ confirmed stats = 1%nat)
  ∧ kepoi_name <$> koi_objects (snd (synchronizeKOIData w idle)) = [Some "K00002.01"]
  ∧ (∃ stats t, sync_logs (snd (SchedulerService.executeSyncTask w idle)) = [LogStats stats t])
  ∧ ¬ fetch_failure_fatal.
Proof.
  intros w.
  split; [by left|]. split; [reflexivity|]. split; [reflexivity|].
  split; [eexists; split; [reflexivity|split; reflexivity]|].
  split; [reflexivity|]. split; [do 2 eexists; reflexivity|].
  intros Hfatal.
  destruct (Hfatal w idle "OK" (project <$> decided_catalogue)
              (project (row "K00001.01" "CONFIRMED" (Some "Kepler-1 b"))) timeout)
    as (e & s' & Hthrows); try reflexivity.
  - by left.
  - by left.
  - vm_compute in Hthrows. discriminate Hthrows.
Qed.

(** The same pass, as the amended statement describes it. *)
Lemma fetch_failure_confined_witness :
  (∃ s1 st1 s2 st2 s3 st3 stats s',
    for_of [] (process_entry (world decided_catalogue ["K00001.01"] unreachable))
           (opening_state idle,
            opening_stats (world decided_catalogue ["K00001.01"] unreachable) idle
                          (project <$> decided_catalogue)
                          ([] ++ project (row "K00001.01" "CONFIRMED" (Some "Kepler-1 b"))
                              :: [project (row "K00002.01" "CONFIRMED" (Some "Kepler-2 b"))]))
    = (Ok tt, (s1, st1))
    ∧ process_entry (world decided_catalogue ["K00001.01"] unreachable)
                    (project (row "K00001.01" "CONFIRMED" (Some "Kepler-1 b"))) (s1, st1)
      = (Ok tt, (s2, st2))
    ∧ koi_objects s2 = koi_objects s1
    ∧ errors st2 = S (errors st1)
    ∧ errorDetails st2
      = errorDetails st1
        ++ [processing_error (project (row "K00001.01" "CONFIRMED" (Some "Kepler-1 b"))) timeout]
    ∧ for_of [project (row "K00002.01" "CONFIRMED" (Some "Kepler-2 b"))]
             (process_entry (world decided_catalogue ["K00001.01"] unreachable)) (s2, st2)
      = (Ok tt, (s3, st3))
    ∧ synchronizeKOIData (world decided_catalogue ["K00001.01"] unreachable) idle
      = (Ok stats, s')
    ∧ koi_objects s' = koi_objects s3
    ∧ (1 <= errors stats)%nat
    ∧ processing_error (project (row "K00001.01" "CONFIRMED" (Some "Kepler-1 b"))) timeout
      ∈ errorDetails stats)
  ∧ (∀ w0 s0 e s0',
       synchronizeKOIData w0 s0 = (Throw e, s0') ->
       (fst (fetchKepOINamesFromNASA w0 s0) = Throw e
        ∨ fst (getExistingKepOINames w0 (snd (fetchKepOINamesFromNASA w0 s0))) = Throw e)
       ∧ koi_objects s0' = koi_objects s0).
Proof.
  apply (fetch_failure_confined (world decided_catalogue ["K00001.01"] unreachable) idle "OK"
           (project <$> decided_catalogue) []
           [project (row "K00002.01" "CONFIRMED" (Some "Kepler-2 b"))]
           (project (row "K00001.01" "CONFIRMED" (Some "Kepler-1 b"))) timeout);
    try reflexivity.
  by left.
Defined.

(** A pass whose classifier times out on the candidate [K00100.01]:
    the candidate is absent from the store the pass leaves, the pass
    returns with a single detail for it, and the next pass finds it new
    again. *)
Lemma gateway_failure_isolated_witness :
  ¬ stored (koi_objects (snd (synchronizeKOIData (world catalogue [] unreachable) idle)))
           "K00100.01"
  ∧ (∃ stats detail,
       fst (synchronizeKOIData (world catalogue [] unreachable) idle) = Ok stats
       ∧ filter (fun d => ed_kepoi_name d = Some "K00100.01") (errorDetails stats) = [detail]
       ∧ ed_error detail = Some "Timeout 10s exceeded")
  ∧ project (row "K00100.01" "CANDIDATE" None)
    ∈ newKepOIEntries (project <$> catalogue)
        (names_of (koi_objects (snd (synchronizeKOIData (world catalogue [] unreachable) idle)))).
Proof.
  pose (w := world catalogue [] unreachable).
  pose (entry := project (row "K00100.01" "CANDIDATE" None)).
  pose (after := [project (row "K00001.01" "CONFIRMED" (Some "Kepler-1 b"))]).
  pose (s1 := opening_state idle).
  pose (st1 := opening_stats w idle (project <$> catalogue) ([] ++ entry :: after)).
  destruct (gateway_failure_isolated w idle "OK" (project <$> catalogue) [] after entry
              s1 st1 (result_of (sendCandidateToInferAPI w "K00100.01" s1))
              (snd (sendCandidateToInferAPI w "K00100.01" s1)))
    as (st2 & detail & s3 & st3 & stats & s' & _ & _ & _ & _ & _ & Hreason & _ & Hpass
        & Hone & Habsent & Hnext); try reflexivity.
  - apply (bool_decide_unpack _). reflexivity.
  - apply world_answers_by_name.
  - fold w. rewrite Hpass. cbn [fst snd]. split; [exact Habsent|]. split.
    + exists stats, detail. split; [reflexivity|]. split; [exact Hone|].
      rewrite Hreason. reflexivity.
    + destruct (Hnext w "OK" eq_refl eq_refl eq_refl)
        as (before2 & after2 & _ & _ & _ & _ & _ & _ & _ & Hnew & _).
      rewrite Hnew. apply elem_of_app. right. by left.
Defined.

(** Two passes over a catalogue of two Confirmed records: the first
    stores both, the second finds nothing new. *)
Lemma differ_second_pass_example :
  kepoi_name <$> koi_objects (snd (synchronizeKOIData (world decided_catalogue [] unreachable) idle))
  = [Some "K00001.01"; Some "K00002.01"]
  ∧ ∃ stats,
      fst (synchronizeKOIData (world decided_catalogue [] unreachable)
             (snd (synchronizeKOIData (world decided_catalogue [] unreachable) idle)))
      = Ok stats
      ∧ totalFromNASA stats = 2%nat
      ∧ newKOIs stats = 0%nat.
Proof.
  split; [vm_compute; reflexivity|].
  destruct (synchronizeKOIData (world decided_catalogue [] unreachable)
              (snd (synchronizeKOIData (world decided_catalogue [] unreachable) idle)))
    as [result s2] eqn:Hsecond.
  vm_compute in Hsecond. injection Hsecond as <- <-.
  eexists. split; [reflexivity|]. split; reflexivity.
Qed.

(** A classifier that cannot be reached: one GET, one POST with the
    timeout of 10000 ms, and a failed result. *)
Lemma gateway_timeout_example :
  fst (sendCandidateToInferAPI (world catalogue [] unreachable) "K00100.01" idle)
  = Ok (failure "K00100.01" None 1 "Timeout 10s exceeded" None)
  ∧ trace (snd (sendCandidateToInferAPI (world catalogue [] unreachable) "K00100.01" idle))
    = [GetComplete "K00100.01" 30000; PostInfer [("kepoi_name", Js.Str "K00100.01")] 10000].
Proof. split; vm_compute; reflexivity. Qed.
(** * The further properties at sample inputs *)

Import Scenario.

Lemma pass_books_witness :
  let w := world decided_catalogue ["K00001.01"] unreachable in
  let stats := stats_of (synchronizeKOIData w idle) in
  ∃ remote,
    listed w = Ok remote
    ∧ totalFromNASA stats = length remote
    ∧ newKOIs stats = length (newKepOIEntries remote (names_of (koi_objects idle)))
    ∧ (confirmed stats + falsePositive stats + candidatesOtherPrediction stats
       + errors stats = newKOIs stats)%nat
    ∧ candidates stats
      = length (filter (fun entry => disposition_of entry = Some "CANDIDATE")
                       (newKepOIEntries remote (names_of (koi_objects idle))))
    ∧ candidatesSent stats = candidatesClassifiedByAI stats
    ∧ candidatesSent stats
      = (candidatesSavedAsFalsePositive stats + candidatesSavedAsConfirmed stats
         + candidatesOtherPrediction stats)%nat
    ∧ candidates stats = (candidatesSent stats + gateway_failures stats)%nat
    ∧ errors stats = length (errorDetails stats).
Proof.
  intros w stats.
  apply (pass_books w idle stats (snd (synchronizeKOIData w idle))).
  vm_compute. reflexivity.
Defined.

Lemma failed_pass_reported_witness :
  let e := Js.new_Error "Could not retrieve NASA kepoi_names: timeout of 10000ms exceeded" in
  ∃ s',
    runSyncNow offline idle = (Throw e, s')
    ∧ koi_objects s' = koi_objects idle
    ∧ trace s' = trace idle ++ [GetNames 60000]
    ∧ isRunning (scheduler s') = false
    ∧ lastRun (scheduler s') = Some (clock offline (ticks idle))
    ∧ nextRun (scheduler s') = nextRun (scheduler idle)
    ∧ (sync_logs s' = sync_logs idle
       ∨ ∃ d t, sync_logs s'
                = sync_logs idle ++ [LogError (clock offline (ticks idle)) (Js.message e) d t])
    ∧ ∃ reply,
        Route.post_run offline idle = (Ok reply, s')
        ∧ Route.reply_data reply = None
        ∧ if Js.includes (Js.message e) "already in progress"
          then Route.statusCode reply = 409%Z
          else Route.statusCode reply = 500%Z
               ∧ Route.reply_error reply = Some "Internal Server Error"
               ∧ Route.reply_message reply = "Error during synchronization".
Proof.
  intros e. apply (failed_pass_reported offline idle e); reflexivity.
Defined.

Lemma pass_without_database_witness :
  ∃ e s',
    runSyncNow disconnected idle = (Throw e, s')
    ∧ match listed disconnected with
      | Ok _ => e = Js.new_Error "Database not initialized. Call connectToDatabase first."
      | Throw e' => e = e'
      end
    ∧ koi_objects s' = koi_objects idle
    ∧ sync_logs s' = sync_logs idle
    ∧ trace s' = trace idle ++ [GetNames 60000]
    ∧ isRunning (scheduler s') = false.
Proof. apply (pass_without_database disconnected idle); reflexivity. Defined.

Lemma pass_outlives_its_log_witness :
  let stats := stats_of (synchronizeKOIData unlogged (snd (begin unlogged idle))) in
  ∃ s' t,
    runSyncNow unlogged idle = (Ok (Some stats), s')
    ∧ koi_objects s' = koi_objects (snd (synchronizeKOIData unlogged (snd (begin unlogged idle))))
    ∧ sync_logs s'
      = (if db_fault unlogged (InsertOneLog (LogStats stats t)) is Some _ then sync_logs idle
         else sync_logs idle ++ [LogStats stats t])
    ∧ isRunning (scheduler s') = false
    ∧ (syncTask (scheduler idle) = false -> nextRun (scheduler s') = None)
    ∧ ∃ reply,
        Route.post_run unlogged idle = (Ok reply, s')
        ∧ Route.statusCode reply = 200%Z
        ∧ Route.reply_data reply = Some (Some stats).
Proof.
  intros stats. apply (pass_outlives_its_log unlogged idle stats); [reflexivity|].
  vm_compute. reflexivity.
Defined.

Lemma kepler_name_round_trip_witness :
  extractKeplerNumber (Some (kepler 7 "C")) = Some 7%N
  ∧ extractKeplerLetter (Some (kepler 7 "C")) = Some (Js.lower_char "C").
Proof. apply (kepler_name_round_trip 7 "C"); [by vm_compute|reflexivity]. Defined.


Lemma same_base_is_similar_witness :
  extractKOIBase ("K00001" +:+ "." +:+ "04") = "K00001"
  ∧ similar_to (extractKOIBase ("K00001" +:+ "." +:+ "04"))
               (row "k00001.02" "CONFIRMED" (Some "Kepler-7 b")) = true.
Proof.
  apply (same_base_is_similar "K00001" "k00001" "04" "02"
           (row "k00001.02" "CONFIRMED" (Some "Kepler-7 b"))); try reflexivity.
  discriminate.
Defined.

Lemma failed_connection_is_final_witness :
  let ops := [Database.ConnectToDatabase driver_ok; Database.GetDatabase;
              Database.CloseDatabase driver_ok] in
  let v' := Database.after ops (snd (Database.connectToDatabase driver_down Database.initial)) in
  fst (Database.connectToDatabase driver_down Database.initial) = Throw refused
  ∧ (∀ d', Database.connectToDatabase d' v' = (Ok None, v'))
  ∧ Database.getDatabase v'
    = (Throw (Js.new_Error "Database not initialized. Call connectToDatabase first."), v')
  ∧ Database.connects v' = S (Database.connects Database.initial).
Proof.
  intros ops.
  apply (failed_connection_is_final driver_down refused Database.initial ops); reflexivity.
Defined.

Lemma handle_survives_close_witness :
  let v := snd (Database.connectToDatabase driver_ok Database.initial) in
  let ops := [Database.CloseDatabase driver_ok; Database.ConnectToDatabase driver_ok] in
  let v' := Database.after ops v in
  Database.getDatabase v' = (Ok "kepler_database", v')
  ∧ (∀ d, Database.connectToDatabase d v' = (Ok (Some "kepler_database"), v'))
  ∧ Database.connects v' = Database.connects v.
Proof.
  intros v ops.
  apply (handle_survives_close v "kepler_database" ops); reflexivity.
Defined.

Lemma one_schedule_at_most_witness :
  let w := world [] [] unreachable in
  let controls :=
    [ SchedulerControl.StartWeeklySync w cron_ok;
      SchedulerControl.SetCustomSchedule w cron_ok "0 * * * *" "UTC";
      SchedulerControl.RunSyncNow w;
      SchedulerControl.RestartWeeklySync w cron_ok;
      SchedulerControl.StartWeeklySync w cron_ok ] in
  well_scheduled (SchedulerControl.after controls unscheduled)
  ∧ (length (Cron.live (SchedulerControl.after controls unscheduled).2) <= 1)%nat.
Proof.
  intros w controls. apply (one_schedule_at_most unscheduled controls).
  split; reflexivity.
Defined.

Lemma custom_schedule_replaces_witness :
  let w := world [] [] unreachable in
  let σ := SchedulerControl.after [SchedulerControl.StartWeeklySync w cron_ok] unscheduled in
  let r := fst (SchedulerControl.setCustomSchedule w cron_ok "0 * * * *" "UTC" σ) in
  let σ' := snd (SchedulerControl.setCustomSchedule w cron_ok "0 * * * *" "UTC" σ) in
  r = Ok tt
  ∧ Cron.live σ'.2 = [(Cron.given σ.2, {| Cron.pattern := "0 * * * *"; Cron.timezone := "UTC" |})]
  ∧ Cron.held σ'.2 = Some (Cron.given σ.2)
  ∧ (∃ next,
       nextRun (scheduler σ'.1) = Some next
       ∧ next = (Calendar.nextSunday (clock w (ticks σ.1) + 3600000) - 3600000)%Z
       ∧ Calendar.getDay (next + 3600000) = 0%Z
       ∧ Calendar.TimeWithinDay (next + 3600000) = (2 * Calendar.msPerHour)%Z
       ∧ (clock w (ticks σ.1) < next <= clock w (ticks σ.1) + 7 * Calendar.msPerDay)%Z
       ∧ ∀ t, (clock w (ticks σ.1) < t)%Z ->
              Calendar.getDay (t + 3600000) = 0%Z ->
              Calendar.TimeWithinDay (t + 3600000) = (2 * Calendar.msPerHour)%Z ->
              (next <= t)%Z)
  ∧ ∃ status σ'',
      SchedulerControl.getStatus w σ' = (Ok status, σ'')
      ∧ SchedulerControl.isSchedulerActive status = true
      ∧ SchedulerControl.cronPattern status = "0 2 * * 0"
      ∧ SchedulerControl.st_timezone status = "Europe/Paris".
Proof.
  intros w σ.
  apply (custom_schedule_replaces w cron_ok "0 * * * *" "UTC" σ 3600000).
  - split; [reflexivity|]. by eexists.
  - intros t isUTC. reflexivity.
Defined.

Lemma getSyncLogs_most_recent_witness :
  let w := world [] [] unreachable in
  ∃ logs rest,
    SyncLogs.getSyncLogs w None (Some 2%Z) three_logs = (Ok logs, three_logs)
    ∧ logs ++ rest ≡ₚ sync_logs three_logs
    ∧ length logs = Nat.min (Z.to_nat 2) (length (sync_logs three_logs))
    ∧ StronglySorted SyncLogs.newer_first logs
    ∧ ∀ a b, a ∈ logs -> b ∈ rest ->
             (SyncLogs.createdAt_of b <= SyncLogs.createdAt_of a)%Z.
Proof.
  intros w. apply (getSyncLogs_most_recent w three_logs 2); [reflexivity|lia].
Defined.

Lemma stop_route_keeps_next_run_witness :
  let w := world [] [] unreachable in
  let σ := SchedulerControl.after [SchedulerControl.StartWeeklySync w cron_ok] unscheduled in
  ∃ status t σ',
    Routes.post_scheduler_stop w σ
    = (Ok (Routes.ok (Some "Synchronization scheduler stopped") status t), σ')
    ∧ Cron.live σ'.2 = []
    ∧ Cron.held σ'.2 = None
    ∧ SchedulerControl.isSchedulerActive status = false
    ∧ SchedulerControl.uptime status = 0%Z
    ∧ SchedulerControl.isSyncRunning status = isRunning (scheduler σ.1)
    ∧ SchedulerControl.st_nextRun status = nextRun (scheduler σ.1)
    ∧ isRunning (scheduler σ'.1) = isRunning (scheduler σ.1)
    ∧ nextRun (scheduler σ'.1) = nextRun (scheduler σ.1).
Proof.
  intros w σ. apply (stop_route_keeps_next_run w σ).
  split; [reflexivity|]. by eexists.
Defined.

Lemma gateway_reports_fetch_failure_witness :
  let w := world decided_catalogue ["K00001.01"] unreachable in
  ∃ r s',
    sendCandidateToInferAPI w "K00001.01" idle = (Ok r, s')
    ∧ success r = false
    ∧ koi_objects s' = koi_objects idle
    ∧ trace s' = trace idle ++ [GetComplete "K00001.01" 30000]
    ∧ (timed_out timeout -> ir_error r = Some "Timeout 10s exceeded" ∧ ir_status r = None)
    ∧ (¬ timed_out timeout -> ∀ status text, Js.response timeout = Some (status, text) ->
       ir_status r = Some status
       ∧ ir_error r = Some ("HTTP " +:+ pretty status +:+ ": " +:+ text))
    ∧ (¬ timed_out timeout -> Js.response timeout = None ->
       ir_status r = None
       ∧ ir_error r = Some ("Connection error: " +:+ Js.message timeout)).
Proof.
  intros w. apply (gateway_reports_fetch_failure w "K00001.01" idle timeout). reflexivity.
Defined.

Lemma gateway_reports_save_failure_witness :
  let body := verdict "CONFIRMED" (Some 0.5%float) in
  ∃ r s',
    sendCandidateToInferAPI read_only "K00100.01" idle = (Ok r, s')
    ∧ koi_objects s' = koi_objects idle
    ∧ (Js.toUpperCase <$> prediction body = Some "FALSE POSITIVE" ->
       success r = false ∧ ir_status r = Some 200%Z
       ∧ ∃ message, ir_error r = Some ("Save error: " +:+ message))
    ∧ (Js.toUpperCase <$> prediction body = Some "CONFIRMED" ->
       success r = false ∧ ir_status r = Some 200%Z
       ∧ ∃ message, ir_error r = Some ("Save error (CONFIRMED): " +:+ message)).
Proof.
  intros body.
  apply (gateway_reports_save_failure read_only "K00100.01" idle
           (row "K00100.01" "CANDIDATE" None) "OK" body); [reflexivity|reflexivity|].
  right. intros doc. by eexists.
Defined.
